(** * trellobackup: a shallow embedding of [trellobackup.py]

    The script exports Trello boards to a directory tree: one blob per card
    under [raw_tickets], one symbolic link per card under [current], and a
    git commit of the result.  This file embeds the functions of
    [trellobackup/trellobackup.py] and proves the properties its
    specification states about them.

    Python byte strings are [string]; dictionaries are [gmap string _];
    the dictionaries the code edits in place (the comments of a card) live
    in an explicit heap; the file system is a finite map from absolute
    paths to nodes; exceptions and shared state are threaded by a small
    state-and-exception monad. *)

From Stdlib Require Import Ascii String ZArith Lia.
From stdpp Require Import base option list strings gmap fin_maps pretty.

Set Warnings "-register-all".

(** ** Python [str] methods used by the script *)
Module Str.

  (** [s.replace(a, b)] for one-character [a] and [b]. *)
Fixpoint replace (a b : ascii) (s : string) : string :=
    match s with
    | EmptyString => EmptyString
    | String c s' => String (if decide (c = a) then b else c) (replace a b s')
    end.

  (** Number of occurrences of a character: [s.count(a)]. *)
Fixpoint count (a : ascii) (s : string) : nat :=
    match s with
    | EmptyString => 0
    | String c s' => (if decide (c = a) then 1 else 0) + count a s'
    end.

  (** [s.startswith(a)] and [s.endswith(a)] for a one-character [a]. *)
Definition startswith (a : ascii) (s : string) : bool :=
    match s with
    | String c _ => bool_decide (c = a)
    | EmptyString => false
    end.

Fixpoint endswith (a : ascii) (s : string) : bool :=
    match s with
    | EmptyString => false
    | String c EmptyString => bool_decide (c = a)
    | String _ s' => endswith a s'
    end.

  (** [s.split(a)]: the pieces between the occurrences of [a]; never the
      empty list. *)
Fixpoint split (a : ascii) (s : string) : list string :=
    match s with
    | EmptyString => [EmptyString]
    | String c s' =>
        if decide (c = a) then EmptyString :: split a s'
        else match split a s' with
             | w :: ws => String c w :: ws
             | [] => [String c EmptyString]
             end
    end.

  (** [sep.join(l)]. *)
Fixpoint join (sep : string) (l : list string) : string :=
    match l with
    | [] => EmptyString
    | [x] => x
    | x :: l' => x +:+ sep +:+ join sep l'
    end.

End Str.

(** ** [os.path] (posixpath) string functions *)
Module OsPath.

  (** One step of [posixpath.join]: an absolute component replaces what is
      accumulated; otherwise a separator is inserted unless the accumulated
      path is empty or already ends with one. *)
Definition join2 (path b : string) : string :=
    if Str.startswith "/" b then b
    else if bool_decide (path = EmptyString) || Str.endswith "/" path
         then path +:+ b
         else path +:+ String "/" b.

  (** [os.path.join(a, *p)]. *)
Definition join (a : string) (p : list string) : string :=
    fold_left join2 p a.

  (** [os.path.isabs]. *)
Definition isabs (s : string) : bool := Str.startswith "/" s.

  (** The non-empty pieces of a path between its slashes:
      [[x for x in p.split('/') if x]]. *)
Definition parts (s : string) : list string :=
    filter (λ c, c ≠ EmptyString) (Str.split "/" s).

  (** [s.rstrip('/')]. *)
Fixpoint rstrip_slash (s : string) : string :=
    match s with
    | EmptyString => EmptyString
    | String c s' =>
        match rstrip_slash s' with
        | EmptyString => if decide (c = "/"%char) then EmptyString else String c EmptyString
        | r => String c r
        end
    end.

  (** [head, tail = p[:i], p[i:]] with [i = p.rfind('/') + 1]: the text up
      to and including the last slash, and the text after it. *)
Fixpoint rcut (s : string) : string * string :=
    match s with
    | EmptyString => (EmptyString, EmptyString)
    | String c s' =>
        let '(h, t) := rcut s' in
        if bool_decide (h = EmptyString) && negb (bool_decide (c = "/"%char))
        then (EmptyString, String c t)
        else (String c h, t)
    end.

  (** [os.path.dirname]: the head, without its trailing slashes unless it
      consists of slashes only. *)
Definition dirname (p : string) : string :=
    let head := (rcut p).1 in
    if bool_decide (head ≠ EmptyString) && bool_decide (rstrip_slash head ≠ EmptyString)
    then rstrip_slash head else head.

  (** One iteration of the loop of [os.path.normpath] over the pieces of
      the path. *)
Definition norm_step (initial_slashes : nat) (new_comps : list string)
      (comp : string) : list string :=
    if bool_decide (comp = EmptyString ∨ comp = String "." EmptyString) then new_comps
    else if bool_decide (comp ≠ String "." (String "." EmptyString))
            || (bool_decide (initial_slashes = 0) && bool_decide (new_comps = []))
            || bool_decide (last new_comps = Some (String "." (String "." EmptyString)))
         then new_comps ++ [comp]
         else removelast new_comps.

Definition initial_slashes (path : string) : nat :=
    match path with
    | String "/" (String "/" (String "/" _)) => 1
    | String "/" (String "/" _) => 2
    | String "/" _ => 1
    | _ => 0
    end.

  (** [os.path.normpath]. *)
Definition normpath (path : string) : string :=
    if bool_decide (path = EmptyString) then String "." EmptyString
    else
      let i := initial_slashes path in
      let comps := fold_left (norm_step i) (Str.split "/" path) [] in
      let path' := Str.join (String "/" EmptyString) comps in
      let path' := Nat.iter i (String "/") path' in
      if bool_decide (path' = EmptyString) then String "." EmptyString else path'.

  (** [os.path.abspath], given the result of [os.getcwd()]. *)
Definition abspath (getcwd : string) (path : string) : string :=
    normpath (if isabs path then path else join getcwd [path]).

  (** [os.path.commonprefix] on two lists. *)
Fixpoint commonprefix (l1 l2 : list string) : list string :=
    match l1, l2 with
    | x :: l1', y :: l2' => if decide (x = y) then x :: commonprefix l1' l2' else []
    | _, _ => []
    end.

  (** [os.path.relpath(path, start)]; [None] is the [ValueError] raised for
      an empty [path]. *)
Definition relpath (getcwd : string) (path start : string) : option string :=
    if bool_decide (path = EmptyString) then None
    else
      let start_list := parts (abspath getcwd start) in
      let path_list := parts (abspath getcwd path) in
      let i := length (commonprefix start_list path_list) in
      let rel_list := replicate (length start_list - i) (String "." (String "." EmptyString))
                      ++ drop i path_list in
      match rel_list with
      | [] => Some (String "." EmptyString)
      | x :: rest => Some (join x rest)
      end.

End OsPath.

(** ** Python values, the heap and the file system *)

(** Heap locations of the dictionaries the script shares and edits. *)
Definition loc := positive.

(** Python values.  A dictionary is a heap object, referred to by [VRef]:
    the script deletes keys of dictionaries that the card and the shaped
    record both refer to. *)
Inductive pyval :=
  | VNone
  | VBool (b : bool)
  | VInt (n : Z)
  | VStr (s : string)
  | VList (l : list pyval)
  | VRef (l : loc).

Abbreviation pydict := (gmap string pyval).

(** Absolute paths of the file system, root first; [[]] is the root
    directory. *)
Definition path := list string.

Inductive node :=
  | Dir
  | File (data : string)
  | Link (target : string).

Inductive errno := ENOENT | ENOTDIR | EEXIST | EISDIR | ELOOP.

(** Python exceptions raised by the modelled code. *)
Inductive exn :=
  | KeyError (key : string)
  | TypeError
  | ValueError
  | UnicodeError
  | IOError (e : errno)
  | OSError (e : errno).

(** External commands and instrumented calls, in the order they happen. *)
Inductive event :=
  | WipeDir (dirpath : list string)    (* a call of [wipe_dir] on these fragments *)
  | System (cmd : string)              (* [os.system(cmd)] *)
  | Popen (args : list string).        (* [subprocess.Popen(args)] *)

Record world := World {
  w_heap : gmap loc pydict;
  w_fs : gmap path node;
  w_cwd : path;
  w_log : list event;
}.

Definition set_heap (h : gmap loc pydict) (w : world) : world :=
  World h (w_fs w) (w_cwd w) (w_log w).
Definition set_fs (f : gmap path node) (w : world) : world :=
  World (w_heap w) f (w_cwd w) (w_log w).
Definition set_cwd (c : path) (w : world) : world :=
  World (w_heap w) (w_fs w) c (w_log w).
Definition add_log (e : event) (w : world) : world :=
  World (w_heap w) (w_fs w) (w_cwd w) (w_log w ++ [e]).

(** ** The monad of the script: state, exceptions, and a third outcome for
    what the model does not cover (a directory reached through a symbolic
    link, a shell command line that is not a plain word list).  Only the
    log is known after such a step. *)
Inductive outcome (A : Type) :=
  | Ret (a : A) (w : world)
  | Raise (e : exn) (w : world)
  | Outside (log : list event).
Arguments Ret {A} a w.
Arguments Raise {A} e w.
Arguments Outside {A} log.

Definition M (A : Type) : Type := world → outcome A.

#[global] Instance M_ret : MRet M := λ A a w, Ret a w.
#[global] Instance M_bind : MBind M := λ A B f m w,
  match m w with
  | Ret a w' => f a w'
  | Raise e w' => Raise e w'
  | Outside l => Outside l
  end.

Definition raise {A} (e : exn) : M A := λ w, Raise e w.
Definition outside {A} : M A := λ w, Outside (w_log w).
Definition get : M world := λ w, Ret w w.
Definition modify (f : world → world) : M unit := λ w, Ret () (f w).
Definition emit (e : event) : M unit := modify (add_log e).

(** [for x in l: body]. *)
Fixpoint for_each {A} (l : list A) (body : A → M unit) : M unit :=
  match l with
  | [] => mret ()
  | x :: l' => body x ;; for_each l' body
  end.

(** [[f(x) for x in l]]. *)
Fixpoint map_each {A B} (l : list A) (f : A → M B) : M (list B) :=
  match l with
  | [] => mret []
  | x :: l' => y ← f x; ys ← map_each l' f; mret (y :: ys)
  end.

(** [try: body finally: final]. *)
Definition try_finally {A} (body : M A) (final : M unit) : M A := λ w,
  match body w with
  | Ret a w' => (final ;; mret a) w'
  | Raise e w' =>
      match final w' with
      | Ret _ w'' => Raise e w''
      | Raise e' w'' => Raise e' w''
      | Outside l => Outside l
      end
  | Outside l => Outside l
  end.

(** [try: body except OSError, e: if e.errno != errno.EEXIST: raise]. *)
Definition ignoring_eexist (body : M unit) : M unit := λ w,
  match body w with
  | Raise (OSError EEXIST) w' => Ret () w'
  | r => r
  end.

(** ** System calls on the modelled file system *)
Module Fs.

Definition dot : string := String "." EmptyString.
Definition dotdot : string := String "." (String "." EmptyString).

Definition parent (p : path) : path := removelast p.

  (** The components the kernel resolves: the non-empty pieces of the path,
      and a final [.] when the path ends with a slash (the last piece must
      then be a directory). *)
Definition kparts (s : string) : list string :=
    OsPath.parts s ++ (if Str.endswith "/" s then [dot] else []).

  (** Result of a path lookup: an existing entry, a free name in an
      existing directory, an error, or a lookup that leaves the model
      because a symbolic link stands where a directory is expected. *)
Inductive lookup :=
    | Found (p : path) (n : node)
    | Absent (p : path)
    | Err (e : errno)
    | Unknown.

  (** Resolution of the components [todo] from the directory [cur], the
      last component not being followed when it is a symbolic link. *)
Fixpoint walk (fs : gmap path node) (cur : path) (todo : list string) : lookup :=
    match todo with
    | [] => Found cur Dir
    | c :: rest =>
        if decide (c = dot) then walk fs cur rest
        else if decide (c = dotdot) then walk fs (parent cur) rest
        else
          match fs !! (cur ++ [c]) with
          | None => match rest with [] => Absent (cur ++ [c]) | _ => Err ENOENT end
          | Some Dir => walk fs (cur ++ [c]) rest
          | Some (File d) =>
              match rest with [] => Found (cur ++ [c]) (File d) | _ => Err ENOTDIR end
          | Some (Link t) =>
              match rest with [] => Found (cur ++ [c]) (Link t) | _ => Unknown end
          end
    end.

Definition MAXSYMLINKS : nat := 40.

  (** Following the symbolic link a lookup ended on, at most [budget]
      times; the target of a link is resolved from the directory that
      holds the link. *)
Fixpoint follow (budget : nat) (fs : gmap path node) (r : lookup) : lookup :=
    match r with
    | Found p (Link t) =>
        match budget with
        | 0 => Err ELOOP
        | S b =>
            if decide (t = EmptyString) then Err ENOENT
            else follow b fs
                   (walk fs (if OsPath.isabs t then [] else parent p) (kparts t))
        end
    | _ => r
    end.

Definition start_dir (w : world) (s : string) : path :=
    if OsPath.isabs s then [] else w_cwd w.

  (** [lstat(s)] and [stat(s)]. *)
Definition lstat (w : world) (s : string) : lookup :=
    if decide (s = EmptyString) then Err ENOENT
    else walk (w_fs w) (start_dir w s) (kparts s).

Definition stat (w : world) (s : string) : lookup :=
    follow MAXSYMLINKS (w_fs w) (lstat w s).

  (** [os.getcwd()]. *)
Definition getcwd (w : world) : string :=
    String "/" (Str.join (String "/" EmptyString) (w_cwd w)).

  (** [os.chdir(s)]. *)
Definition chdir (s : string) : M unit := λ w,
    match stat w s with
    | Found q Dir => Ret () (set_cwd q w)
    | Found _ _ => Raise (OSError ENOTDIR) w
    | Absent _ => Raise (OSError ENOENT) w
    | Err e => Raise (OSError e) w
    | Unknown => Outside (w_log w)
    end.

  (** [os.path.exists(s)]: [stat] succeeds. *)
Definition exists_ (s : string) : M bool := λ w,
    match stat w s with
    | Found _ _ => Ret true w
    | Absent _ | Err _ => Ret false w
    | Unknown => Outside (w_log w)
    end.

  (** [with open(s, 'w') as out: out.write(data)]: the file is created or
      truncated, through a final symbolic link if there is one. *)
Definition open_write (s data : string) : M unit := λ w,
    match stat w s with
    | Found q (File _) | Absent q => Ret () (set_fs (<[q := File data]> (w_fs w)) w)
    | Found _ Dir => Raise (IOError EISDIR) w
    | Found _ (Link _) => Raise (IOError ELOOP) w
    | Err e => Raise (IOError e) w
    | Unknown => Outside (w_log w)
    end.

  (** [os.symlink(target, s)]. *)
Definition symlink (target s : string) : M unit := λ w,
    if decide (target = EmptyString) then Raise (OSError ENOENT) w
    else
      match lstat w s with
      | Absent q => Ret () (set_fs (<[q := Link target]> (w_fs w)) w)
      | Found _ _ => Raise (OSError EEXIST) w
      | Err e => Raise (OSError e) w
      | Unknown => Outside (w_log w)
      end.

  (** [os.mkdir] of the path made of [comps] from [start] (a trailing
      slash is allowed, so the components are the plain pieces). *)
Definition mkdir_at (start : path) (comps : list string) : M unit := λ w,
    match walk (w_fs w) start comps with
    | Absent q => Ret () (set_fs (<[q := Dir]> (w_fs w)) w)
    | Found _ _ => Raise (OSError EEXIST) w
    | Err e => Raise (OSError e) w
    | Unknown => Outside (w_log w)
    end.

Definition exists_at (start : path) (comps : list string) : M bool := λ w,
    match follow MAXSYMLINKS (w_fs w) (walk (w_fs w) start comps) with
    | Found _ _ => Ret true w
    | Absent _ | Err _ => Ret false w
    | Unknown => Outside (w_log w)
    end.

  (** The recursion of [os.makedirs(name)], on the pieces of [name] in
      reverse order: [tail] is the last piece and [rhead] the pieces
      of [head].  The head is created first when it is not empty and does
      not exist; [EEXIST] from that creation is ignored; a tail [.] then
      ends the call; otherwise [name] itself is created with [os.mkdir]. *)
Fixpoint makedirs_go (start : path) (abs : bool) (rcomps : list string) : M unit :=
    match rcomps with
    | [] => mkdir_at start []
    | tail :: rhead =>
        head_exists ← (if negb abs && bool_decide (rhead = [])
                       then mret true else exists_at start (reverse rhead));
        if head_exists : bool then mkdir_at start (reverse rcomps)
        else
          ignoring_eexist (makedirs_go start abs rhead) ;;
          if decide (tail = dot) then mret ()
          else mkdir_at start (reverse rcomps)
    end.

  (** [os.makedirs(name)]. *)
Definition makedirs (name : string) : M unit :=
    if decide (name = EmptyString) then raise (OSError ENOENT)
    else w ← get;
         makedirs_go (start_dir w name) (OsPath.isabs name) (reverse (OsPath.parts name)).

  (** The effect of the command [rm -r p] once the shell has passed [p] to
      it as one argument: the entry and everything below it are removed;
      [rm] refuses a last component [.] or [..] and the root, and only
      reports an entry it cannot find. *)
Definition rm_r (p : string) : M unit := λ w,
    match reverse (OsPath.parts p) with
    | [] => Ret () w
    | name :: _ =>
        if bool_decide (name = dot ∨ name = dotdot) then Ret () w
        else
          match lstat w p with
          | Found q _ =>
              Ret () (set_fs (filter (λ kv, ¬ q `prefix_of` kv.1) (w_fs w)) w)
          | Absent _ | Err _ => Ret () w
          | Unknown => Outside (w_log w)
          end
    end.

  (** [os.path.isdir] of the entry [n] stored at [k]. *)
Definition isdir_entry (w : world) (k : path) (n : node) : option bool :=
    match follow MAXSYMLINKS (w_fs w) (Found k n) with
    | Found _ Dir => Some true
    | Found _ _ | Absent _ | Err _ => Some false
    | Unknown => None
    end.

  (** [l2] without its prefix [l1], when it has it. *)
Fixpoint below (l1 l2 : path) : option (list string) :=
    match l1, l2 with
    | [], _ => Some l2
    | x :: l1', y :: l2' => if decide (x = y) then below l1' l2' else None
    | _ :: _, [] => None
    end.

  (** All the directories between [q] and the entry [q ++ rel] are real
      directories. *)
Fixpoint reachable (fs : gmap path node) (q : path) (rel : list string) : bool :=
    match rel with
    | [] | [_] => true
    | d :: rel' =>
        match fs !! (q ++ [d]) with
        | Some Dir => reachable fs (q ++ [d]) rel'
        | _ => false
        end
    end.

  (** The file names [os.walk(top)] yields, each joined to the directory
      it is in: every entry below [top] that is not a directory.  (The
      order of [os.listdir] is not specified; the script only tests
      membership.) *)
Definition walk_files (top : string) : M (list string) := λ w,
    match stat w top with
    | Found q Dir =>
        (map_each (map_to_list (w_fs w)) (λ kv,
           match below q kv.1 with
           | Some (d :: rel) =>
               if reachable (w_fs w) q (d :: rel) then
                 match isdir_entry w kv.1 kv.2 with
                 | Some true => mret []
                 | Some false => mret [OsPath.join top (d :: rel)]
                 | None => outside
                 end
               else mret []
           | _ => mret []
           end) ≫= (λ ls, mret (concat ls))) w
    | Found _ _ | Absent _ | Err _ => Ret [] w
    | Unknown => Outside (w_log w)
    end.

End Fs.

(** ** The shell, for the one command line the script builds *)
Module Sh.

  (** Characters the shell passes through unchanged and that do not split
      words: letters, digits, bytes above 127, and [_ - . / + , : = @ %]. *)
Definition inert (c : ascii) : bool :=
    let n := nat_of_ascii c in
    ((48 <=? n) && (n <=? 57) || (65 <=? n) && (n <=? 90)
     || (97 <=? n) && (n <=? 122) || (128 <=? n))%nat
    || bool_decide (c ∈ ["_"; "-"; "."; "/"; "+"; ","; ":"; "="; "@"; "%"]%char).

Fixpoint all_chars (f : ascii → bool) (s : string) : bool :=
    match s with
    | EmptyString => true
    | String c s' => f c && all_chars f s'
    end.

Definition quote : ascii := "'"%char.

Inductive reading :=
    | Word          (* the text reaches the command as one argument *)
    | NothingRuns   (* syntax error, or no operand: nothing is removed *)
    | NotModelled.

  (** How [sh -c] reads the command line [rm -r p].  A text of inert
      characters that does not start with a dash is one operand.  An odd
      number of single quotes among otherwise inert characters leaves a
      quoted string unterminated: the shell reports a syntax error and
      runs nothing.  An empty text leaves [rm] without operand. *)
Definition read_operand (p : string) : reading :=
    if decide (p = EmptyString) then NothingRuns
    else if all_chars inert p && negb (Str.startswith "-" p) then Word
    else if all_chars (λ c, inert c || bool_decide (c = quote)) p
            && Nat.odd (Str.count quote p)
         then NothingRuns
         else NotModelled.

End Sh.

(** ** Library functions the script calls, kept abstract *)
Record PyLib := {
  (** [yaml.safe_dump(data, allow_unicode=True, encoding='utf-8')] *)
  yaml_safe_dump : gmap loc pydict → pyval → string;
  (** [unicode(s, 'utf8')]; [None] when it raises *)
  unicode_utf8 : pyval → option pyval;
  (** the text a replacement field of [unicode.format] produces for a
      value; [None] when the conversion raises *)
  format_field : gmap loc pydict → pyval → option string;
  (** [txt.encode('utf-8')] *)
  encode_utf8 : string → string;
}.

(** ** What the Trello client returns *)

(** A [trello.Checklist]. *)
Record Checklist := {
  cl_id : pyval;
  cl_name : pyval;
  cl_items : pyval;
}.

(** A fetched [trello.Card].  Its attributes are only read by the script;
    [card_comments] is the list of its comment dictionaries, which are
    heap objects. *)
Record Card := {
  card_id : string;
  card_name : string;
  card_description : pyval;
  card_closed : pyval;
  card_url : pyval;
  card_member_ids : pyval;
  card_short_id : Z;
  card_board_id : pyval;
  card_list_id : pyval;
  card_labels : pyval;
  card_badges : pyval;
  card_due : pyval;
  card_checked : pyval;
  card_comments : list loc;
  card_checklists : list Checklist;
}.

(** A [trello.List] with the result of [list_cards()]. *)
Record TList := {
  list_id : string;
  list_name : string;
  list_cards : list Card;
}.

(** A [trello.Board] with the results of [closed_cards()] and
    [all_lists()]. *)
Record Board := {
  board_id : string;
  board_name : string;
  board_closed_cards : list Card;
  board_all_lists : list TList;
}.

(** ** Dictionary operations on the heap *)
Module Py.

Definition nl : string := String "010" EmptyString.

  (** ['%s_%s' % (a, b)] for two strings. *)
Definition underscore (a b : string) : string := a +:+ String "_" b.

Definition alloc (d : pydict) : M loc := λ w,
    let l := fresh (dom (w_heap w)) in
    Ret l (set_heap (<[l := d]> (w_heap w)) w).

Definition the_dict (l : loc) : M pydict := λ w,
    match w_heap w !! l with
    | Some d => Ret d w
    | None => Outside (w_log w)
    end.

  (** [d.get(k)] *)
Definition dict_get (l : loc) (k : string) : M pyval :=
    d ← the_dict l; mret (default VNone (d !! k)).

  (** [d[k]] *)
Definition getitem (v : pyval) (k : string) : M pyval :=
    match v with
    | VRef l =>
        d ← the_dict l;
        match d !! k with
        | Some x => mret x
        | None => raise (KeyError k)
        end
    | _ => raise TypeError
    end.

  (** [d[k] = v] *)
Definition setitem (l : loc) (k : string) (v : pyval) : M unit :=
    d ← the_dict l; modify (λ w, set_heap (<[l := <[k := v]> d]> (w_heap w)) w).

  (** [del d[k]] *)
Definition delitem (v : pyval) (k : string) : M unit :=
    match v with
    | VRef l =>
        d ← the_dict l;
        match d !! k with
        | Some _ => modify (λ w, set_heap (<[l := delete k d]> (w_heap w)) w)
        | None => raise (KeyError k)
        end
    | _ => raise TypeError
    end.

  (** [d[k].append(v)] for a list stored under [k]. *)
Definition append_item (l : loc) (k : string) (v : pyval) : M unit :=
    x ← getitem (VRef l) k;
    match x with
    | VList xs => setitem l k (VList (xs ++ [v]))
    | _ => raise TypeError
    end.

  (** Truth value of a Python object, as tested by [if x:]. *)
Definition truthy (v : pyval) : M bool :=
    match v with
    | VNone => mret false
    | VBool b => mret b
    | VInt n => mret (negb (n =? 0)%Z)
    | VStr s => mret (negb (bool_decide (s = EmptyString)))
    | VList l => mret (match l with [] => false | _ => true end)
    | VRef l => d ← the_dict l; mret (negb (bool_decide (size d = 0%nat)))
    end.

End Py.

(** ** The script [trellobackup.py] *)
Section Script.

  (** Module-level configuration: the result directory read from
      [trellobackuprc], the working directory at import time (the roots
      below are made absolute then), and the text of [datetime.now()] at
      commit time. *)
Variable RESULTS_DIR_ROOT : string.
Variable IMPORT_CWD : string.
Variable NOW : string.
Variable py : PyLib.

Definition BLOBS_ROOT : string :=
    OsPath.abspath IMPORT_CWD (OsPath.join RESULTS_DIR_ROOT ["raw_tickets"]).
Definition TREE_ROOT : string :=
    OsPath.abspath IMPORT_CWD (OsPath.join RESULTS_DIR_ROOT ["current"]).

  (** [temporary_chdir(path)], applied to the body of the [with] block. *)
Definition temporary_chdir {A} (path : string) (body : M A) : M A :=
    w ← get;
    let old_dir := Fs.getcwd w in
    Fs.chdir path ;;
    try_finally body (Fs.chdir old_dir).

  (** [toyaml(data)]. *)
Definition toyaml (data : pyval) : M string :=
    w ← get; mret (yaml_safe_dump py (w_heap w) data).

  (** [normpath], called with any number of path fragments. *)
Definition normpath (fragments : list string) : string :=
    let path_fragments := map (Str.replace "/" "-") fragments in
    let full_path := OsPath.join RESULTS_DIR_ROOT path_fragments in
    Str.replace " " "_" full_path.

  (** [mkdir], called with path fragments. *)
Definition mkdir (path : list string) : M unit :=
    let full_path := normpath path in
    e ← Fs.exists_ full_path;
    if e : bool then mret () else Fs.makedirs full_path.

  (** [os.system('rm -r %s' % full_path)]: the command line is read by the
      shell. *)
Definition os_system_rm_r (full_path : string) : M unit :=
    emit (System ("rm -r " +:+ full_path)) ;;
    match Sh.read_operand full_path with
    | Sh.Word => Fs.rm_r full_path
    | Sh.NothingRuns => mret ()
    | Sh.NotModelled => outside
    end.

  (** [wipe_dir], called with path fragments. *)
Definition wipe_dir (dirpath : list string) : M unit :=
    emit (WipeDir dirpath) ;;
    let full_path := normpath dirpath in
    e ← Fs.exists_ full_path;
    (if e : bool then os_system_rm_r full_path else mret ()) ;;
    mkdir dirpath.

  (** [get_current_files()]. *)
Definition get_current_files : M (list string) :=
    files ← Fs.walk_files BLOBS_ROOT;
    files' ← Fs.walk_files TREE_ROOT;
    mret (files ++ files').

  (** [write_card(blob_path, tree_path, data)]. *)
Definition write_card (blob_path tree_path data : string) : M unit :=
    w ← get;
    match OsPath.relpath (Fs.getcwd w) blob_path (OsPath.dirname tree_path) with
    | None => raise ValueError
    | Some rel_path =>
        Fs.open_write blob_path data ;;
        Fs.symlink rel_path tree_path
    end.

  (** A fragment passed to [normpath] must have a [replace] method. *)
Definition as_str (v : pyval) : M string :=
    match v with
    | VStr s => mret s
    | _ => raise TypeError
    end.

  (** [dump_yaml(card_data, tree_path)]. *)
Definition dump_yaml (card_data : loc) (tree_path : string) : M unit :=
    id ← Py.getitem (VRef card_data) "id" ≫= as_str;
    let blob_path := normpath ["raw_tickets"; id] +:+ ".yaml" in
    let tree_path := tree_path +:+ ".yaml" in
    data ← toyaml (VRef card_data);
    write_card blob_path tree_path data.

Definition fmt (v : pyval) : M string :=
    w ← get;
    match format_field py (w_heap w) v with
    | Some s => mret s
    | None => raise UnicodeError
    end.

  (** [TXT_DUMP_COMMENTS_TEMPLATE.format(comment=comment)]. *)
Definition format_comment (comment : pyval) : M string :=
    member ← Py.getitem comment "memberCreator";
    username ← Py.getitem member "username" ≫= fmt;
    date ← Py.getitem comment "date" ≫= fmt;
    data ← Py.getitem comment "data";
    text ← Py.getitem data "text" ≫= fmt;
    mret (username +:+ Py.nl +:+ date +:+ Py.nl +:+ Py.nl +:+ text +:+ Py.nl).

  (** The elements a [for] loop sees in a value. *)
Definition iterate (v : pyval) : M (list pyval) :=
    match v with
    | VList l => mret l
    | VStr s => mret ((λ c, VStr (String c EmptyString)) <$> list_ascii_of_string s)
    | VRef l => d ← Py.the_dict l; mret (VStr <$> (map_to_list d).*1)
    | _ => raise TypeError
    end.

  (** [dump_txt(card_data, tree_path)]. *)
Definition dump_txt (card_data : loc) (tree_path : string) : M unit :=
    comments ← Py.getitem (VRef card_data) "comments" ≫= iterate;
    comments ← map_each comments format_comment;
    let comments := Str.join Py.nl comments in
    name ← Py.getitem (VRef card_data) "name";
    match unicode_utf8 py name with
    | Some u => Py.setitem card_data "name" u
    | None => raise UnicodeError
    end ;;
    name ← Py.getitem (VRef card_data) "name" ≫= fmt;
    description ← Py.getitem (VRef card_data) "description" ≫= fmt;
    let txt := name +:+ Py.nl +:+ Py.nl +:+ description +:+ Py.nl +:+ Py.nl
               +:+ "Comments:" +:+ Py.nl +:+ comments +:+ Py.nl in
    id ← Py.getitem (VRef card_data) "id" ≫= as_str;
    let blob_path := normpath ["raw_tickets"; id] +:+ ".txt" in
    let tree_path := tree_path +:+ ".txt" in
    write_card blob_path tree_path (encode_utf8 py txt).

  (** The attributes [dl_card] copies with [getattr], in its order. *)
Definition copied_attrs (card : Card) : list (string * pyval) :=
    [("id", VStr (card_id card)); ("name", VStr (card_name card));
     ("description", card_description card); ("closed", card_closed card);
     ("url", card_url card); ("member_ids", card_member_ids card);
     ("short_id", VInt (card_short_id card)); ("board_id", card_board_id card);
     ("list_id", card_list_id card); ("labels", card_labels card);
     ("badges", card_badges card); ("due", card_due card);
     ("checked", card_checked card)].

Definition SENTINEL : string := "COMPTE SUPPRIME".

  (** The body of the loop [for comm in card.comments] of [dl_card]. *)
Definition trim_comment (card_data : loc) (comm : loc) : M unit :=
    Py.delitem (VRef comm) "idMemberCreator" ;;
    member_info ← Py.dict_get comm "memberCreator";
    t ← Py.truthy member_info;
    (if t : bool then
       for_each ["avatarHash"; "fullName"; "initials"] (λ key, Py.delitem member_info key)
     else
       s ← Py.alloc {[ "username" := VStr SENTINEL ]};
       Py.setitem comm "memberCreator" (VRef s)) ;;
    Py.append_item card_data "comments" (VRef comm).

  (** [dl_card] up to the two dumps: the construction of [card_data]. *)
Definition shape_card (card : Card) : M loc :=
    card_data ← Py.alloc ∅;
    for_each (copied_attrs card) (λ kv, Py.setitem card_data kv.1 kv.2) ;;
    Py.setitem card_data "comments" (VList []) ;;
    for_each (card_comments card) (trim_comment card_data) ;;
    cl_data ← map_each (card_checklists card) (λ cl,
      d ← Py.alloc {[ "id" := cl_id cl; "name" := cl_name cl; "items" := cl_items cl ]};
      mret (VRef d));
    Py.setitem card_data "checklists" (VList cl_data) ;;
    mret card_data.

  (** [dl_card(card, tree_path)]. *)
Definition dl_card (card : Card) (tree_path : string) : M unit :=
    card_data ← shape_card card;
    dump_yaml card_data tree_path ;;
    dump_txt card_data tree_path.

  (** [retrieve_trello_data()], on the boards [client.list_boards()]
      returns. *)
Definition retrieve_trello_data (boards : list Board) : M unit :=
    for_each boards (λ board,
      if decide (board_name board = "Welcome Board") then mret ()
      else
        let board_dirname := Py.underscore (board_id board) (board_name board) in
        wipe_dir ["current"; board_dirname] ;;
        let closed_cards := board_closed_cards board in
        (match closed_cards with
         | [] => mret ()
         | _ =>
             wipe_dir ["current"; board_dirname; "archives"] ;;
             for_each closed_cards (λ closed_card,
               let tree_path := normpath
                 ["current"; board_dirname; "archives";
                  Py.underscore (pretty (card_short_id closed_card)) (card_name closed_card)] in
               dl_card closed_card tree_path)
         end) ;;
        for_each (board_all_lists board) (λ list_,
          let list_name_path := Py.underscore (list_id list_) (list_name list_) in
          mkdir ["current"; board_dirname; list_name_path] ;;
          for_each (list_cards list_) (λ card,
            let tree_path := normpath
              ["current"; board_dirname; list_name_path;
               Py.underscore (pretty (card_short_id card)) (card_name card)] in
            dl_card card tree_path))).

  (** [_git_cmd]: the command is run; its return code is not used by the
      callers modelled here. *)
Definition git_cmd (args : list string) : M unit :=
    emit (Popen ("git" :: args)).

Definition git_commit : M unit :=
    git_cmd ["add"; "."] ;;
    let commit_msg := "backup - " +:+ NOW in
    git_cmd ["commit"; "-m"; commit_msg].

Definition git_push : M unit :=
    git_cmd ["push"; "origin"; "master"].

  (** [gitit(repo_path, prev_files)]. *)
Definition gitit (repo_path : string) (prev_files : list string) : M unit :=
    temporary_chdir repo_path (
      current_files ← get_current_files;
      for_each prev_files (λ old_file,
        if bool_decide (old_file ∈ current_files) then mret ()
        else git_cmd ["rm"; old_file]) ;;
      git_commit ;;
      git_push).

End Script.

(** ** Vocabulary of the statements *)

(** What one fragment contributes to a normalized path: its text with both
    substitutions applied, character by character. *)
Definition sanitize_char (c : ascii) : ascii :=
  if decide (c = "/"%char) then "-"%char
  else if decide (c = " "%char) then "_"%char else c.

Fixpoint sanitize (s : string) : string :=
  match s with
  | EmptyString => EmptyString
  | String c s' => String (sanitize_char c) (sanitize s')
  end.

(** The fragments of a path, each preceded by its own separator. *)
Fixpoint assemble (seps frags : list string) : string :=
  match seps, frags with
  | sep :: seps', f :: frags' => sep +:+ f +:+ assemble seps' frags'
  | _, _ => EmptyString
  end.

Definition is_separator (s : string) : Prop :=
  s = EmptyString ∨ s = String "/" EmptyString.

(** The log an outcome ends with. *)
Definition outcome_log {A} (o : outcome A) : list event :=
  match o with
  | Ret _ w | Raise _ w => w_log w
  | Outside l => l
  end.

(** A computation that only observes the world. *)
Definition readonly {A} (m : M A) : Prop :=
  ∀ w, match m w with
       | Ret _ w' | Raise _ w' => w' = w
       | Outside l => l = w_log w
       end.

(** The [git rm] command for a file. *)
Definition git_rm (f : string) : event := Popen ["git"; "rm"; f].

(** *** Shaping: the heap before and after *)

Definition protected_keys : list string :=
  ["idMemberCreator"; "avatarHash"; "fullName"; "initials"].

(** The value stored under [memberCreator] in the comment at [c]. *)
Definition author_of (h : gmap loc pydict) (c : loc) : option pyval :=
  h !! c ≫= (λ d, d !! "memberCreator").

(** The objects shaping may edit: the comments of the card and the author
    dictionaries they refer to when shaping starts. *)
Definition edited (h0 : gmap loc pydict) (cs : list loc) (l : loc) : Prop :=
  l ∈ cs ∨ ∃ c, c ∈ cs ∧ author_of h0 c = Some (VRef l).

(** How the heap may change between two points of the shaping of a card
    whose comments are [cs], started in the heap [h0]: objects stay; a
    protected key that is absent stays absent; [username] entries are
    kept; the author of a comment changes only when its creator id is
    deleted; and objects of [h0] that are not [edited] keep their value. *)
Definition evolves (h0 : gmap loc pydict) (cs : list loc)
    (h h' : gmap loc pydict) : Prop :=
  ∀ l d, h !! l = Some d →
    ∃ d', h' !! l = Some d'
      ∧ (∀ k, k ∈ protected_keys → d !! k = None → d' !! k = None)
      ∧ d' !! "username" = d !! "username"
      ∧ (d' !! "memberCreator" = d !! "memberCreator"
         ∨ (is_Some (d !! "idMemberCreator") ∧ d' !! "idMemberCreator" = None))
      ∧ (is_Some (h0 !! l) → ¬ edited h0 cs l → d' = d).

(** A comment of the shaped record is redacted: it has no creator id, and
    its author dictionary has none of the three personal keys. *)
Definition redacted (h : gmap loc pydict) (c : loc) : Prop :=
  ∃ d m md,
    h !! c = Some d ∧ d !! "idMemberCreator" = None
    ∧ d !! "memberCreator" = Some (VRef m) ∧ h !! m = Some md
    ∧ md !! "avatarHash" = None ∧ md !! "fullName" = None
    ∧ md !! "initials" = None.

(** The fetched comment carries no author: the key is missing or null. *)
Definition no_author (h : gmap loc pydict) (c : loc) : Prop :=
  ∃ d, h !! c = Some d
       ∧ (d !! "memberCreator" = None ∨ d !! "memberCreator" = Some VNone).

(** The author of the comment is a dictionary whose [username] is the
    placeholder for deleted accounts. *)
Definition sentinel_author (h : gmap loc pydict) (c : loc) : Prop :=
  ∃ m md, author_of h c = Some (VRef m) ∧ h !! m = Some md
          ∧ md !! "username" = Some (VStr SENTINEL).

(** Every modelled outcome of [m] from a world satisfying [P] is related
    to the start by [R], and a returned value satisfies [Q]. *)
Definition sound {A} (P : world → Prop) (m : M A)
    (R : world → world → Prop) (Q : A → world → Prop) : Prop :=
  ∀ w, P w →
    match m w with
    | Ret a w' => R w w' ∧ Q a w'
    | Raise _ w' => R w w'
    | Outside _ => True
    end.

(** The same, between two points of the trimming of one comment: only the
    objects in [X] may be given a new author. *)
Definition changes (h0 : gmap loc pydict) (cs : list loc) (X : loc → Prop)
    (h h' : gmap loc pydict) : Prop :=
  ∀ l d, h !! l = Some d →
    ∃ d', h' !! l = Some d'
      ∧ (∀ k, k ∈ protected_keys → d !! k = None → d' !! k = None)
      ∧ d' !! "username" = d !! "username"
      ∧ (¬ X l → d' !! "memberCreator" = d !! "memberCreator")
      ∧ (is_Some (h0 !! l) → ¬ edited h0 cs l → d' = d).

(** Two worlds that differ in their heaps only. *)
Definition heap_only (Rh : relation (gmap loc pydict)) (w w' : world) : Prop :=
  Rh (w_heap w) (w_heap w') ∧ w_fs w' = w_fs w ∧ w_cwd w' = w_cwd w
  ∧ w_log w' = w_log w.

(** Two worlds whose heaps are related, whatever the rest. *)
Definition heap_rel (Rh : relation (gmap loc pydict)) (w w' : world) : Prop :=
  Rh (w_heap w) (w_heap w').

(** The worlds reached from the heap [h0]. *)
Definition reached (h0 : gmap loc pydict) (cs : list loc) (w : world) : Prop :=
  evolves h0 cs h0 (w_heap w).

Ltac solve_key :=
  first [ done
        | by apply (bool_decide_unpack _); vm_compute
        | let H := fresh in
          intros H; apply (bool_decide_pack _) in H; by vm_compute in H ].

(** A computation that leaves the heap as it is. *)
Definition keeps_heap {A} (m : M A) : Prop :=
  ∀ w, match m w with
       | Ret _ w' | Raise _ w' => w_heap w' = w_heap w
       | Outside _ => True
       end.

(** Every object stays and keeps what it stores under the key [k0]. *)
Definition keeps_key (k0 : string) (h h' : gmap loc pydict) : Prop :=
  ∀ l d, h !! l = Some d → ∃ d', h' !! l = Some d' ∧ d' !! k0 = d !! k0.

(** The value stored under [comments] in the record at [cd]. *)
Definition comments_of (h : gmap loc pydict) (cd : loc) : option pyval :=
  h !! cd ≫= (λ d, d !! "comments").

(** ** A concrete run, used to exercise the statements *)
Module Example.

  (** Stand-ins for the library functions. *)
Definition py : PyLib := {|
    yaml_safe_dump := λ _ _, "yaml";
    unicode_utf8 := λ v, Some v;
    format_field := λ _ v, match v with VStr s => Some s | _ => Some "?" end;
    encode_utf8 := λ s, s;
  |}.

  (** Two fetched comments: the first with its author, the second from a
      deleted account. *)
Definition comment1 : pydict :=
    {[ "idMemberCreator" := VStr "m1"; "memberCreator" := VRef 3%positive;
       "date" := VStr "2015-01-01"; "data" := VRef 4%positive ]}.
Definition author1 : pydict :=
    {[ "id" := VStr "m1"; "username" := VStr "alice"; "avatarHash" := VStr "ff";
       "fullName" := VStr "Alice A"; "initials" := VStr "AA" ]}.
Definition comment2 : pydict :=
    {[ "idMemberCreator" := VStr "m2"; "date" := VStr "2015-01-02";
       "data" := VRef 5%positive ]}.
Definition heap0 : gmap loc pydict :=
    {[ 1%positive := comment1; 2%positive := comment2; 3%positive := author1;
       4%positive := {[ "text" := VStr "hello" ]};
       5%positive := {[ "text" := VStr "bye" ]} ]}.

Definition card : Card := {|
    card_id := "abc"; card_name := "x y"; card_description := VStr "d";
    card_closed := VBool false; card_url := VNone; card_member_ids := VList [];
    card_short_id := 1; card_board_id := VNone; card_list_id := VNone;
    card_labels := VList []; card_badges := VNone; card_due := VNone;
    card_checked := VNone;
    card_comments := [1%positive; 2%positive]; card_checklists := [];
  |}.

Definition board : Board := {|
    board_id := "b"; board_name := "B"; board_closed_cards := [];
    board_all_lists := [ {| list_id := "l"; list_name := "L"; list_cards := [card] |} ];
  |}.

  (** A repository [/home/u/results] holding only [raw_tickets], the
      script being run from [/home/u]. *)
Definition fs0 : gmap path node :=
    list_to_map [(["home"], Dir); (["home"; "u"], Dir);
                 (["home"; "u"; "results"], Dir);
                 (["home"; "u"; "results"; "raw_tickets"], Dir)].

Definition w0 : world := World heap0 fs0 ["home"; "u"] [].

  (** The same with the directory of the list already made. *)
Definition fs1 : gmap path node :=
    list_to_map [(["home"; "u"; "results"; "current"], Dir);
                 (["home"; "u"; "results"; "current"; "b_B"], Dir);
                 (["home"; "u"; "results"; "current"; "b_B"; "l_L"], Dir)] ∪ fs0.

Definition w1 : world := World heap0 fs1 ["home"; "u"] [].

  (** After a run: one blob [A], one link [B]; and a snapshot taken
      before the run, when the link [C] of another board was there too. *)
Definition fs2 : gmap path node :=
    list_to_map
      [(["home"; "u"; "results"; "raw_tickets"; "abc.yaml"], File "yaml");
       (["home"; "u"; "results"; "current"; "b_B"; "l_L"; "1_x_y.yaml"],
        Link "../../../raw_tickets/abc.yaml")] ∪ fs1.

Definition w2 : world := World ∅ fs2 ["home"; "u"] [].

Definition file_A : string := "/home/u/results/raw_tickets/abc.yaml".
Definition file_B : string := "/home/u/results/current/b_B/l_L/1_x_y.yaml".
Definition file_C : string := "/home/u/results/current/c_C/l_L/2_z.yaml".

Definition root : string := "results".
Definition tree_path : string := "results/current/b_B/l_L/1_x_y".

  (** A repository where the directory of the list is there but
      [raw_tickets] is not. *)
Definition fs3 : gmap path node :=
    delete ["home"; "u"; "results"; "raw_tickets"] fs1.

Definition w3 : world := World heap0 fs3 ["home"; "u"] [].

Definition blob_yaml : string := "results/raw_tickets/abc.yaml".
Definition link_yaml : string := "results/current/b_B/l_L/1_x_y.yaml".

  (** A board whose name holds a single quote, and its directory after a
      previous run, with the link of a card [9_old] in it. *)
Definition quote_dirname : string := "b_Dev's".
Definition old_link : path :=
    ["home"; "u"; "results"; "current"; quote_dirname; "l_L"; "9_old.yaml"].
Definition fs4 : gmap path node :=
    list_to_map
      [(["home"; "u"; "results"; "current"; quote_dirname], Dir);
       (["home"; "u"; "results"; "current"; quote_dirname; "l_L"], Dir);
       (old_link, Link "../../../raw_tickets/old.yaml")] ∪ fs1.

Definition w4 : world := World ∅ fs4 ["home"; "u"] [].

  (** A card whose only comment, the object 4, has no creator id. *)
Definition card_no_creator : Card := {|
    card_id := "abc"; card_name := "x y"; card_description := VStr "d";
    card_closed := VBool false; card_url := VNone; card_member_ids := VList [];
    card_short_id := 1; card_board_id := VNone; card_list_id := VNone;
    card_labels := VList []; card_badges := VNone; card_due := VNone;
    card_checked := VNone;
    card_comments := [4%positive]; card_checklists := [];
  |}.

End Example.

(** *** Paths *)

(** An ordinary path component: not empty, not [.] or [..], without
    slash. *)
Definition ordinary (c : string) : Prop :=
  c ≠ EmptyString ∧ c ≠ Fs.dot ∧ c ≠ Fs.dotdot ∧ Str.count "/" c = 0.

(** The configured root, as [normpath] rewrites it. *)
Definition rewritten_root (root : string) : string := Str.replace " " "_" root.

(** The rewritten root names the directory [R] of the world, and does
    not go up on its way there. *)
Definition root_at (root : string) (w : world) (R : path) : Prop :=
  Forall (λ c, c ≠ Fs.dotdot) (OsPath.parts (rewritten_root root))
  ∧ Fs.walk (w_fs w) (Fs.start_dir w (rewritten_root root))
      (OsPath.parts (rewritten_root root)) = Fs.Found R Dir.

(** Directories stay directories. *)
Definition grows (fs fs' : gmap path node) : Prop :=
  ∀ k, fs !! k = Some Dir → fs' !! k = Some Dir.

(** The directories [base/c1], [base/c1/c2], ... added to a file system. *)
Fixpoint add_dirs (fs : gmap path node) (base : path) (new : list string)
    : gmap path node :=
  match new with
  | [] => fs
  | c :: new' => add_dirs (<[base ++ [c] := Dir]> fs) (base ++ [c]) new'
  end.

(** ** Writing a card (vocabulary) *)

(** A directory on the way to [s] is missing. *)
Definition parent_missing (w : world) (s : string) : Prop :=
  Fs.lstat w s = Fs.Err ENOENT.

(** Something is stored at [s], a symbolic link included. *)
Definition entry_exists (w : world) (s : string) : Prop :=
  ∃ q n, Fs.lstat w s = Fs.Found q n.

(** [s] can be opened for writing, the data going to the entry [q]: [s]
    names, in an existing directory, a regular file or nothing. *)
Definition can_write (w : world) (s : string) (q : path) : Prop :=
  Fs.stat w s = Fs.Absent q ∨ ∃ d, Fs.stat w s = Fs.Found q (File d).

(** [open] refuses [s] with the error [er]. *)
Definition open_refused (w : world) (s : string) (er : errno) : Prop :=
  Fs.stat w s = Fs.Err er ∨ (er = EISDIR ∧ ∃ q, Fs.stat w s = Fs.Found q Dir).

(** [symlink] refuses the name [s] with the error [er]. *)
Definition link_refused (w : world) (s : string) (er : errno) : Prop :=
  Fs.lstat w s = Fs.Err er ∨ (er = EEXIST ∧ ∃ q n, Fs.lstat w s = Fs.Found q n).

Definition written (q : path) (data : string) (w : world) : world :=
  set_fs (<[q := File data]> (w_fs w)) w.

Definition linked (p : path) (target : string) (w : world) : world :=
  set_fs (<[p := Link target]> (w_fs w)) w.

(** Nothing is stored at the first name of [need] below [base], nor below
    that name. *)
Definition free_from (fs : gmap path node) (base : path) (need : list string) : Prop :=
  need ≠ [] ∧ ∀ k, fs !! (base ++ take 1 need ++ k) = None.

(** The path [comps] below [R] is a directory reached through directories,
    or its first names are such directories and the rest is free. *)
Definition dir_or_free (fs : gmap path node) (R : path) (comps : list string) : Prop :=
  Fs.walk fs R comps = Fs.Found (R ++ comps) Dir
  ∨ ∃ have need, comps = have ++ need
                 ∧ Fs.walk fs R have = Fs.Found (R ++ have) Dir
                 ∧ free_from fs (R ++ have) need.

(** The command line [rm -r p] reaches [rm] with the one operand [p]. *)
Definition shell_plain (p : string) : Prop := Sh.read_operand p = Sh.Word.

(** What a call of [wipe_dir] on the path [comps] below [R] achieves, from
    [w] to [w']: the path is a directory reached through directories, with
    nothing in it; what is neither in it nor on the way to it is as before;
    the directories down to [R] are still directories. *)
Definition wiped (R : path) (comps : list string) (w w' : world) : Prop :=
  w_heap w' = w_heap w ∧ w_cwd w' = w_cwd w
  ∧ Fs.walk (w_fs w') R comps = Fs.Found (R ++ comps) Dir
  ∧ (∀ k, k ≠ [] → w_fs w' !! (R ++ comps ++ k) = None)
  ∧ (∀ k, ¬ (R ++ comps) `prefix_of` k → ¬ k `prefix_of` (R ++ comps) →
          w_fs w' !! k = w_fs w !! k)
  ∧ (∀ k, k `prefix_of` R → w_fs w !! k = Some Dir → w_fs w' !! k = Some Dir).

(** ** The files of a card (vocabulary) *)

(** The names [retrieve_trello_data] builds for the directory of a board,
    the directory of a list and the link of a card. *)
Definition board_dirname (b : Board) : string :=
  Py.underscore (board_id b) (board_name b).
Definition list_name_path (l : TList) : string :=
  Py.underscore (list_id l) (list_name l).
Definition card_basename (c : Card) : string :=
  Py.underscore (pretty (card_short_id c)) (card_name c).

(** The target of the link of a card, for the extension [ext]. *)
Definition card_target (c : Card) (ext : string) : string :=
  "../../../raw_tickets/" +:+ (sanitize (card_id c) +:+ ext).

(** ** The commands of a run (vocabulary) *)

(** A computation that leaves the log as it is, whatever its outcome. *)
Definition silent {A} (m : M A) : Prop :=
  ∀ w, outcome_log (m w) = w_log w.

(** A computation that only adds events satisfying [φ] to the log,
    whatever its outcome. *)
Definition logs {A} (φ : event → Prop) (m : M A) : Prop :=
  ∀ w, ∃ evs, outcome_log (m w) = w_log w ++ evs ∧ Forall φ evs.

(** The two events of [wipe_dir] on the fragments [frags]. *)
Definition wipe_event (root : string) (frags : list string) (e : event) : Prop :=
  e = WipeDir frags ∨ e = System ("rm -r " +:+ normpath root frags).

(** An event of the wipe of the directory of a board of the list, or of
    its [archives] directory. *)
Definition scoped (root : string) (boards : list Board) (e : event) : Prop :=
  ∃ b, b ∈ boards ∧ board_name b ≠ "Welcome Board"
       ∧ (wipe_event root ["current"; board_dirname b] e
          ∨ wipe_event root ["current"; board_dirname b; "archives"] e).

(** An outcome that is a return. *)
Definition returns {A} (o : outcome A) : bool :=
  match o with Ret _ _ => true | _ => false end.

(** ** The record of a card (vocabulary) *)

(** No object of [h'] stores something under [k] unless it did in [h]. *)
Definition gains_no (k : string) (h h' : gmap loc pydict) : Prop :=
  ∀ l d', h' !! l = Some d' → is_Some (d' !! k) →
          ∃ d, h !! l = Some d ∧ is_Some (d !! k).

(** The comment at [c] carries its creator id. *)
Definition has_creator_id (h : gmap loc pydict) (c : loc) : Prop :=
  ∃ d, h !! c = Some d ∧ is_Some (d !! "idMemberCreator").

(** The dictionary [dl_card] makes of a checklist. *)
Definition checklist_dict (cl : Checklist) : pydict :=
  {[ "id" := cl_id cl; "name" := cl_name cl; "items" := cl_items cl ]}.

(** The record [dl_card] hands to the dumps, [cls] being its checklists. *)
Definition shaped_record (card : Card) (cls : list pyval) : pydict :=
  <["checklists" := VList cls]>
    (<["comments" := VList (VRef <$> card_comments card)]>
       (list_to_map (copied_attrs card))).

(** * Properties *)


(** ** Strings *)
Section StrFacts.
Implicit Types (s t : string) (a b c : ascii).

Lemma str_app_cons c s t : String c s +:+ t = String c (s +:+ t).
  Proof. reflexivity. Qed.

Lemma str_app_nil_l s : EmptyString +:+ s = s.
  Proof. reflexivity. Qed.

Lemma str_app_nil_r s : s +:+ EmptyString = s.
  Proof. induction s; rewrite ?str_app_cons; [done|congruence]. Qed.

Lemma str_app_assoc s t u : (s +:+ t) +:+ u = s +:+ t +:+ u.
  Proof. induction s; rewrite ?str_app_cons, ?str_app_nil_l; [done|congruence]. Qed.

Lemma replace_app a b s t :
    Str.replace a b (s +:+ t) = Str.replace a b s +:+ Str.replace a b t.
  Proof. induction s; rewrite ?str_app_cons, ?str_app_nil_l; simpl; rewrite ?str_app_cons; [done|congruence]. Qed.

Lemma count_app a s t : Str.count a (s +:+ t) = Str.count a s + Str.count a t.
  Proof. induction s; rewrite ?str_app_cons, ?str_app_nil_l; simpl; [done|lia]. Qed.

Lemma count_replace_gone a b s : a ≠ b → Str.count a (Str.replace a b s) = 0.
  Proof.
    intros Hab. induction s as [|c s IH]; simpl; [done|].
    rewrite IH. repeat case_decide; simplify_eq; done.
  Qed.

Lemma count_replace_other a b c s :
    c ≠ a → c ≠ b → Str.count c (Str.replace a b s) = Str.count c s.
  Proof.
    intros Ha Hb. induction s as [|d s IH]; simpl; [done|].
    rewrite IH. repeat case_decide; simplify_eq; done.
  Qed.

Lemma startswith_count_0 a s : Str.count a s = 0 → Str.startswith a s = false.
  Proof.
    destruct s as [|c s]; simpl; [done|].
    case_decide; [lia|]. intros _. by apply bool_decide_eq_false.
  Qed.

Lemma sanitize_replace s :
    sanitize s = Str.replace " " "_" (Str.replace "/" "-" s).
  Proof.
    induction s as [|c s IH]; simpl; [done|]. rewrite IH. f_equal.
    unfold sanitize_char. repeat case_decide; simplify_eq; done.
  Qed.

Lemma sanitize_no_slash s : Str.count "/" (sanitize s) = 0.
  Proof.
    induction s as [|c s IH]; simpl; [done|]. rewrite IH.
    unfold sanitize_char. repeat case_decide; simplify_eq; done.
  Qed.

Lemma sanitize_no_space s : Str.count " " (sanitize s) = 0.
  Proof.
    induction s as [|c s IH]; simpl; [done|]. rewrite IH.
    unfold sanitize_char. repeat case_decide; simplify_eq; done.
  Qed.
End StrFacts.

(** ** The path normalizer *)

Lemma join2_relative path b :
  Str.startswith "/" b = false →
  ∃ sep, is_separator sep ∧ OsPath.join2 path b = path +:+ sep +:+ b.
Proof.
  intros Hb. unfold OsPath.join2. rewrite Hb.
  destruct (_ || _).
  - exists EmptyString. split; [by left|done].
  - exists (String "/" EmptyString). split; [by right|done].
Qed.

Lemma join_assemble root frags :
  Forall (λ f, Str.count "/" f = 0) frags →
  ∃ seps, length seps = length frags ∧ Forall is_separator seps ∧
    OsPath.join root frags = root +:+ assemble seps frags.
Proof.
  intros Hfr. revert root. induction Hfr as [|f frags Hf _ IH]; intros root.
  - exists []. simpl. by rewrite str_app_nil_r.
  - destruct (join2_relative root f) as (sep & Hsep & Hj).
    { by apply startswith_count_0. }
    destruct (IH (OsPath.join2 root f)) as (seps & Hlen & Hseps & Heq).
    exists (sep :: seps). split_and!; simpl; [by f_equal|by constructor|].
    unfold OsPath.join in *. simpl. rewrite Heq, Hj.
    by rewrite !str_app_assoc.
Qed.

Lemma replace_assemble seps frags :
  Forall is_separator seps →
  Str.replace " " "_" (assemble seps frags)
  = assemble seps (map (Str.replace " " "_") frags).
Proof.
  intros Hs. revert frags. induction Hs as [|sep seps Hsep _ IH]; intros [|f frags]; simpl; try done.
  rewrite !replace_app, IH. by destruct Hsep as [-> | ->].
Qed.

Lemma normpath_assemble root frags :
  ∃ seps, length seps = length frags ∧ Forall is_separator seps ∧
    normpath root frags = Str.replace " " "_" root +:+ assemble seps (map sanitize frags).
Proof.
  destruct (join_assemble root (map (Str.replace "/" "-") frags)) as (seps & Hlen & Hseps & Heq).
  { apply Forall_map, Forall_true. intros f. simpl. by apply count_replace_gone. }
  exists seps. split_and!; [by rewrite Hlen, length_map|done|].
  unfold normpath. rewrite Heq, replace_app, replace_assemble by done.
  do 2 f_equal. rewrite map_map. apply map_ext. intros f. by rewrite sanitize_replace.
Qed.

Lemma normpath_no_space root frags : Str.count " " (normpath root frags) = 0.
Proof. unfold normpath. by apply count_replace_gone. Qed.

(** C3.  The path normalizer.  For every root and every sequence of
    fragments, the produced path is the root followed by the fragments in
    order, each preceded by a separator that is empty or one slash and each
    rewritten character by character (slash to dash, space to underscore),
    so that no fragment contributes a slash; the produced path contains no
    space; and it is a function of the root and the fragments alone (it
    reads no state and has no effect), so equal inputs give equal
    outputs. *)
Theorem normpath_contract (root : string) (frags : list string) :
  (∃ seps, length seps = length frags ∧ Forall is_separator seps ∧
     normpath root frags
     = Str.replace " " "_" root +:+ assemble seps (map sanitize frags))
  ∧ Forall (λ f, Str.count "/" (sanitize f) = 0) frags
  ∧ Str.count " " (normpath root frags) = 0
  ∧ normpath root frags
    = Str.replace " " "_" (OsPath.join root (map (Str.replace "/" "-") frags)).
Proof.
  split_and!.
  - apply normpath_assemble.
  - apply Forall_true. intros f. apply sanitize_no_slash.
  - apply normpath_no_space.
  - reflexivity.
Qed.

(** C10.  The substitution of spaces is applied to the whole joined path,
    the configured root included: when the root contains a space, every
    produced path starts with the rewritten root, which differs from the
    configured one, and does not start with the configured root. *)
Theorem normpath_rewrites_root (root : string) (frags : list string) :
  Str.count " " root ≠ 0 →
  (∃ rest, normpath root frags = Str.replace " " "_" root +:+ rest)
  ∧ Str.replace " " "_" root ≠ root
  ∧ ∀ rest, normpath root frags ≠ root +:+ rest.
Proof.
  intros Hsp. split_and!.
  - destruct (normpath_assemble root frags) as (seps & _ & _ & ->). eauto.
  - intros Heq. apply Hsp. rewrite <-Heq. by apply count_replace_gone.
  - intros rest Heq. apply Hsp.
    pose proof (normpath_no_space root frags) as H0.
    rewrite Heq, count_app in H0. lia.
Qed.

Lemma normpath_rewrites_root_witness :
  Str.count " " "my results" ≠ 0 ∧
  ((∃ rest, normpath "my results" ["current"; "1_a b"]
            = Str.replace " " "_" "my results" +:+ rest)
   ∧ Str.replace " " "_" "my results" ≠ "my results"
   ∧ ∀ rest, normpath "my results" ["current"; "1_a b"] ≠ "my results" +:+ rest).
Proof.
  split; [by vm_compute|].
  apply (normpath_rewrites_root "my results" ["current"; "1_a b"]). by vm_compute.
Defined.

(** ** The monad *)

Lemma bind_unfold {A B} (m : M A) (f : A → M B) w :
  (m ≫= f) w = match m w with
               | Ret a w' => f a w'
               | Raise e w' => Raise e w'
               | Outside l => Outside l
               end.
Proof. reflexivity. Qed.

Lemma bind_ret {A B} (m : M A) (f : A → M B) w a w' :
  m w = Ret a w' → (m ≫= f) w = f a w'.
Proof. intros H. by rewrite bind_unfold, H. Qed.

Lemma bind_raise {A B} (m : M A) (f : A → M B) w e w' :
  m w = Raise e w' → (m ≫= f) w = Raise e w'.
Proof. intros H. by rewrite bind_unfold, H. Qed.

Lemma bind_outside {A B} (m : M A) (f : A → M B) w l :
  m w = Outside l → (m ≫= f) w = Outside l.
Proof. intros H. by rewrite bind_unfold, H. Qed.

Lemma readonly_ret {A} (a : A) : readonly (mret a).
Proof. by intros w. Qed.

Lemma readonly_raise {A} e : readonly (@raise A e).
Proof. by intros w. Qed.

Lemma readonly_outside {A} : readonly (@outside A).
Proof. by intros w. Qed.

Lemma readonly_bind {A B} (m : M A) (f : A → M B) :
  readonly m → (∀ a, readonly (f a)) → readonly (m ≫= f).
Proof.
  intros Hm Hf w. rewrite bind_unfold. specialize (Hm w).
  destruct (m w) as [a w'|e w'|l]; subst; [apply Hf|done..].
Qed.

Lemma readonly_map_each {A B} (l : list A) (f : A → M B) :
  (∀ a, readonly (f a)) → readonly (map_each l f).
Proof.
  intros Hf. induction l as [|x l IH]; simpl; [apply readonly_ret|].
  apply readonly_bind; [done|]. intros y.
  apply readonly_bind; [done|]. intros ys. apply readonly_ret.
Qed.

Lemma readonly_walk_files top : readonly (Fs.walk_files top).
Proof.
  intros w. unfold Fs.walk_files.
  destruct (Fs.stat w top) as [q [| |]| | |]; try done.
  match goal with |- match ?m w with _ => _ end => assert (readonly m) as Hr end; [|apply Hr].
  apply readonly_bind; [|intros; apply readonly_ret].
  apply readonly_map_each. intros [k n]. cbn [fst snd].
  destruct (Fs.below q k) as [[|d rel]|]; try apply readonly_ret.
  destruct (Fs.reachable _ _ _); [|apply readonly_ret].
  destruct (Fs.isdir_entry w k n) as [[]|];
    [apply readonly_ret..|apply readonly_outside].
Qed.

Lemma readonly_get_current_files root icwd : readonly (get_current_files root icwd).
Proof.
  unfold get_current_files.
  apply readonly_bind; [apply readonly_walk_files|]. intros files.
  apply readonly_bind; [apply readonly_walk_files|]. intros files'. apply readonly_ret.
Qed.

(** ** Reconciliation *)

(** The removal loop of [gitit] appends one [git rm] per stale file, in
    the order of the snapshot. *)
Lemma removal_loop (prev current : list string) (w : world) :
  for_each prev (λ old_file,
    if bool_decide (old_file ∈ current) then mret () else git_cmd ["rm"; old_file]) w
  = Ret () (World (w_heap w) (w_fs w) (w_cwd w)
              (w_log w ++ (git_rm <$> filter (λ f, f ∉ current) prev))).
Proof.
  revert w. induction prev as [|f prev IH]; intros w; simpl.
  - rewrite app_nil_r. by destruct w.
  - rewrite bind_unfold. rewrite filter_cons. case_bool_decide; case_decide; try done.
    + simpl. by rewrite IH.
    + simpl. rewrite IH. simpl. by rewrite <-app_assoc.
Qed.

Lemma chdir_log s w : outcome_log (Fs.chdir s w) = w_log w.
Proof. unfold Fs.chdir. by destruct (Fs.stat w s) as [q [| |]| | |]. Qed.

Lemma chdir_ret_log s w w' : Fs.chdir s w = Ret () w' → w_log w' = w_log w.
Proof. intros H. by rewrite <-(chdir_log s w), H. Qed.

Lemma try_finally_chdir_log {A} (body : M A) s w a w' :
  body w = Ret a w' →
  outcome_log (try_finally body (Fs.chdir s) w) = w_log w'.
Proof.
  intros Hb. unfold try_finally. rewrite Hb, bind_unfold.
  pose proof (chdir_log s w') as Hl.
  by destruct (Fs.chdir s w') as [[] w''|e w''|l].
Qed.

(** C1.  Reconciliation.  When [gitit] enters the repository and lists the
    files now present (the post-run file set [current]), the commands it
    runs are: one [git rm] for each file of the pre-run snapshot [prev]
    that is not in [current], and then add, commit and push.  So a
    removal is issued for a file exactly when it is in the snapshot and
    absent from the post-run set. *)
Theorem gitit_removes_exactly (root icwd now repo_path : string)
    (prev current : list string) (w w1 w2 : world) :
  Fs.chdir repo_path w = Ret () w1 →
  get_current_files root icwd w1 = Ret current w2 →
  ∃ removals,
    outcome_log (gitit root icwd now repo_path prev w)
    = w_log w ++ removals
      ++ [Popen ["git"; "add"; "."];
          Popen ["git"; "commit"; "-m"; "backup - " +:+ now];
          Popen ["git"; "push"; "origin"; "master"]]
    ∧ Forall (λ e, ∃ f, e = git_rm f) removals
    ∧ ∀ f, git_rm f ∈ removals ↔ f ∈ prev ∧ f ∉ current.
Proof.
  intros Hcd Hcur.
  exists (git_rm <$> filter (λ f, f ∉ current) prev). split_and!.
  - pose proof (readonly_get_current_files root icwd w1) as Hro.
    rewrite Hcur in Hro. subst w2.
    unfold gitit, temporary_chdir. rewrite bind_unfold. simpl.
    rewrite bind_unfold, Hcd.
    erewrite try_finally_chdir_log.
    2:{ rewrite bind_unfold, Hcur. rewrite bind_unfold, removal_loop.
        unfold git_commit, git_push. reflexivity. }
    simpl. rewrite (chdir_ret_log _ _ _ Hcd). by rewrite <-!app_assoc.
  - apply Forall_fmap, Forall_true. intros f. by exists f.
  - intros f. rewrite list_elem_of_fmap. split.
    + intros (f' & Heq & Hin). injection Heq as ->.
      by apply list_elem_of_filter in Hin as [? ?].
    + intros [Hin Hnot]. exists f. split; [done|]. by apply list_elem_of_filter.
Qed.

(** ** Shaping a card: the heap *)
Section Heap.
Variable h0 : gmap loc pydict.
Variable cs : list loc.
Implicit Types (h : gmap loc pydict) (d : pydict) (l c m : loc).

Lemma changes_refl X h : changes h0 cs X h h.
  Proof. intros l d Hl. exists d. by split_and!. Qed.

Lemma changes_trans X h1 h2 h3 :
    changes h0 cs X h1 h2 → changes h0 cs X h2 h3 → changes h0 cs X h1 h3.
  Proof.
    intros H12 H23 l d Hl.
    destruct (H12 l d Hl) as (d2 & Hl2 & Ha & Hb & Hc & Hd).
    destruct (H23 l d2 Hl2) as (d3 & Hl3 & Ha' & Hb' & Hc' & Hd').
    exists d3. split_and!; [done|..].
    - intros k Hk Hn. by apply Ha', Ha.
    - by rewrite Hb', Hb.
    - intros HX. by rewrite Hc', Hc.
    - intros H0 He. by rewrite Hd', Hd.
  Qed.

Lemma evolves_refl h : evolves h0 cs h h.
  Proof. intros l d Hl. exists d. split_and!; auto. Qed.

Lemma evolves_trans h1 h2 h3 :
    evolves h0 cs h1 h2 → evolves h0 cs h2 h3 → evolves h0 cs h1 h3.
  Proof.
    intros H12 H23 l d Hl.
    destruct (H12 l d Hl) as (d2 & Hl2 & Ha & Hb & Hc & Hd).
    destruct (H23 l d2 Hl2) as (d3 & Hl3 & Ha' & Hb' & Hc' & Hd').
    exists d3. split_and!; [done|..].
    - intros k Hk Hn. by apply Ha', Ha.
    - by rewrite Hb', Hb.
    - destruct Hc as [Hc|[Hs Hn]].
      + destruct Hc' as [Hc'|[Hs' Hn']].
        * left. by rewrite Hc', Hc.
        * right. split; [|done].
          destruct (d !! "idMemberCreator") eqn:E; [done|]. exfalso.
          assert (d2 !! "idMemberCreator" = None) as Hn2 by (apply Ha; [unfold protected_keys; repeat constructor|done]).
          rewrite Hn2 in Hs'. by destruct Hs'.
      + right. split; [done|]. apply Ha'; [|done]. unfold protected_keys; repeat constructor.
    - intros H0 He. by rewrite Hd', Hd.
  Qed.

Lemma changes_evolves h h' : changes h0 cs (λ _, False) h h' → evolves h0 cs h h'.
  Proof.
    intros H l d Hl. destruct (H l d Hl) as (d' & Hl' & Ha & Hb & Hc & Hd).
    exists d'. split_and!; auto.
  Qed.

Lemma changes_weaken (X Y : loc → Prop) h h' :
    (∀ l, X l → Y l) → changes h0 cs X h h' → changes h0 cs Y h h'.
  Proof.
    intros HXY H l d Hl. destruct (H l d Hl) as (d' & Hl' & Ha & Hb & Hc & Hd).
    exists d'. split_and!; auto.
  Qed.

  (** The three ways the script updates the heap. *)
Lemma changes_alloc X h l d : h !! l = None → changes h0 cs X h (<[l := d]> h).
  Proof.
    intros Hn l' d' Hl'. exists d'.
    rewrite lookup_insert_ne by congruence. by split_and!.
  Qed.

Lemma changes_delete X h l d k :
    h !! l = Some d → k ≠ "username" → k ≠ "memberCreator" →
    (is_Some (h0 !! l) → edited h0 cs l) →
    changes h0 cs X h (<[l := delete k d]> h).
  Proof.
    intros Hl Hu Hm He l' d' Hl'. destruct (decide (l' = l)) as [->|Hne].
    - rewrite Hl in Hl'. injection Hl' as <-.
      exists (delete k d). rewrite lookup_insert_eq. split_and!; [done|..].
      + intros k' _ Hn. rewrite lookup_delete_None. by right.
      + by rewrite lookup_delete_ne.
      + intros _. by rewrite lookup_delete_ne.
      + intros H0 Hed. by destruct Hed; apply He.
    - exists d'. rewrite lookup_insert_ne by done. by split_and!.
  Qed.

Lemma changes_set (X : loc → Prop) h l d k v :
    h !! l = Some d → k ∉ protected_keys → k ≠ "username" →
    (k = "memberCreator" → X l) →
    (is_Some (h0 !! l) → edited h0 cs l) →
    changes h0 cs X h (<[l := <[k := v]> d]> h).
  Proof.
    intros Hl Hp Hu Hm He l' d' Hl'. destruct (decide (l' = l)) as [->|Hne].
    - rewrite Hl in Hl'. injection Hl' as <-.
      exists (<[k := v]> d). rewrite lookup_insert_eq. split_and!; [done|..].
      + intros k' Hk' Hn. rewrite lookup_insert_ne; [done|]. by intros ->.
      + by rewrite lookup_insert_ne.
      + intros HX. rewrite lookup_insert_ne; [done|]. intros ->. by apply HX, Hm.
      + intros H0 Hed. by destruct Hed; apply He.
    - exists d'. rewrite lookup_insert_ne by done. by split_and!.
  Qed.

  (** Deleting the creator id of a comment and then changing the heap,
      the author of that comment possibly included, is an evolution. *)
Lemma evolves_trim h h' c d :
    h !! c = Some d → is_Some (d !! "idMemberCreator") →
    (is_Some (h0 !! c) → edited h0 cs c) →
    changes h0 cs (λ l, l = c) (<[c := delete "idMemberCreator" d]> h) h' →
    evolves h0 cs h h'.
  Proof.
    intros Hc Hid He Hch l dl Hl. destruct (decide (l = c)) as [->|Hne].
    - rewrite Hc in Hl. injection Hl as <-.
      destruct (Hch c (delete "idMemberCreator" d)) as (d' & Hl' & Ha & Hb & _ & Hd).
      { by rewrite lookup_insert_eq. }
      exists d'. split_and!; [done|..].
      + intros k Hk Hn. apply Ha; [done|]. rewrite lookup_delete_None. by right.
      + by rewrite Hb, lookup_delete_ne.
      + right. split; [done|]. apply Ha; [unfold protected_keys; repeat constructor|]. by rewrite lookup_delete_eq.
      + intros H0 Hed. by destruct Hed; apply He.
    - destruct (Hch l dl) as (d' & Hl' & Ha & Hb & Hc' & Hd).
      { by rewrite lookup_insert_ne. }
      exists d'. split_and!; auto.
  Qed.
End Heap.

(** ** Rules for [sound] *)
Section Sound.
Context (P : world → Prop) (R : world → world → Prop).
Context `{!Reflexive R, !Transitive R}.
Hypothesis P_stable : ∀ w w', P w → R w w' → P w'.

Lemma sound_ret {A} (a : A) (Q : A → world → Prop) :
    (∀ w, P w → Q a w) → sound P (mret a) R Q.
  Proof. intros HQ w HP. simpl. split; [reflexivity|by apply HQ]. Qed.

Lemma sound_raise {A} e (Q : A → world → Prop) : sound P (raise e) R Q.
  Proof. intros w HP. simpl. reflexivity. Qed.

Lemma sound_outside {A} (Q : A → world → Prop) : sound P outside R Q.
  Proof. by intros w HP. Qed.

Lemma sound_bind {A B} (m : M A) (f : A → M B) Q1 (Q2 : B → world → Prop) :
    sound P m R Q1 →
    (∀ a, sound (λ w, P w ∧ Q1 a w) (f a) R Q2) →
    sound P (m ≫= f) R Q2.
  Proof.
    intros Hm Hf w HP. rewrite bind_unfold. specialize (Hm w HP).
    destruct (m w) as [a w1|e w1|l]; [|done..].
    destruct Hm as [HR HQ1].
    specialize (Hf a w1 (conj (P_stable _ _ HP HR) HQ1)).
    destruct (f a w1) as [b w2|e w2|l]; [|by etrans|done].
    destruct Hf as [HR' HQ2]. split; [by etrans|done].
  Qed.

Lemma sound_weaken {A} (P' : world → Prop) (m : M A) (Q Q' : A → world → Prop) :
    (∀ w, P' w → P w) → (∀ a w, Q a w → Q' a w) →
    sound P m R Q → sound P' m R Q'.
  Proof.
    intros HP HQ Hm w Hw. specialize (Hm w (HP _ Hw)).
    destruct (m w); [|done..]. destruct Hm. split; [done|by apply HQ].
  Qed.

Lemma sound_seq {A B} (m : M A) (f : A → M B) Q1 (Q2 : B → world → Prop) :
    sound P m R Q1 → (∀ a, sound P (f a) R Q2) → sound P (m ≫= f) R Q2.
  Proof.
    intros Hm Hf. eapply sound_bind; [done|]. intros a.
    eapply sound_weaken; [| |apply Hf]; [by intros ? [? ?]|done].
  Qed.

Lemma sound_for_each {A} (l : list A) (body : A → M unit) :
    (∀ x, x ∈ l → sound P (body x) R (λ _ _, True)) →
    sound P (for_each l body) R (λ _ _, True).
  Proof.
    induction l as [|x l IH]; intros Hb; simpl.
    - by apply sound_ret.
    - eapply sound_seq; [apply Hb; by left|]. intros _.
      apply IH. intros y Hy. apply Hb. by right.
  Qed.

Lemma sound_map_each {A B} (l : list A) (f : A → M B) :
    (∀ x, x ∈ l → sound P (f x) R (λ _ _, True)) →
    sound P (map_each l f) R (λ _ _, True).
  Proof.
    induction l as [|x l IH]; intros Hb; simpl.
    - by apply sound_ret.
    - eapply sound_seq; [apply Hb; by left|]. intros y.
      eapply sound_seq; [apply IH; intros z Hz; apply Hb; by right|].
      intros ys. by apply sound_ret.
  Qed.

Lemma sound_readonly {A} (m : M A) : readonly m → sound P m R (λ _ _, True).
  Proof.
    intros Hro w HP. specialize (Hro w).
    destruct (m w); subst; [split; [reflexivity|done]|reflexivity|done].
  Qed.
End Sound.

Lemma readonly_bind_ret {A B} (m : M A) (f : A → B) :
  readonly m → readonly (m ≫= λ a, mret (f a)).
Proof. intros. apply readonly_bind; [done|]. intros. apply readonly_ret. Qed.

Lemma readonly_the_dict l : readonly (Py.the_dict l).
Proof. intros w. unfold Py.the_dict. by destruct (_ !! _). Qed.

Lemma readonly_dict_get l k : readonly (Py.dict_get l k).
Proof. apply readonly_bind; [apply readonly_the_dict|]. intros. apply readonly_ret. Qed.

Lemma readonly_getitem v k : readonly (Py.getitem v k).
Proof.
  destruct v; try apply readonly_raise.
  apply readonly_bind; [apply readonly_the_dict|]. intros d.
  destruct (d !! k); [apply readonly_ret|apply readonly_raise].
Qed.

Lemma readonly_truthy v : readonly (Py.truthy v).
Proof.
  destruct v; try apply readonly_ret.
  apply readonly_bind; [apply readonly_the_dict|]. intros. apply readonly_ret.
Qed.

#[global] Instance heap_only_refl Rh `{!Reflexive Rh} : Reflexive (heap_only Rh).
Proof. intros w. by split_and!. Qed.

#[global] Instance heap_only_trans Rh `{!Transitive Rh} : Transitive (heap_only Rh).
Proof.
  intros w1 w2 w3 (Ha & Ha1 & Ha2 & Ha3) (Hb & Hb1 & Hb2 & Hb3).
  split_and!; [by etrans|congruence..].
Qed.

(** ** The heap primitives change the heap as [changes] allows *)
Section HeapSound.
Variable h0 : gmap loc pydict.
Variable cs : list loc.
Variable X : loc → Prop.

#[local] Instance changes_reflexive : Reflexive (changes h0 cs X).
  Proof. intros h. apply changes_refl. Qed.
#[local] Instance changes_transitive : Transitive (changes h0 cs X).
  Proof. intros h1 h2 h3. apply changes_trans. Qed.

#[local] Abbreviation T := (λ _ : world, True).
#[local] Abbreviation R := (heap_only (changes h0 cs X)).

Lemma T_stable : ∀ w w', T w → R w w' → T w'.
  Proof. done. Qed.

Lemma sound_delitem v k :
    k ≠ "username" → k ≠ "memberCreator" →
    (∀ l, v = VRef l → is_Some (h0 !! l) → edited h0 cs l) →
    sound T (Py.delitem v k) R (λ _ _, True).
  Proof.
    intros Hu Hm He w _. destruct v as [| | | | |l]; simpl; try done.
    unfold Py.the_dict, mbind, M_bind.
    destruct (w_heap w !! l) as [d|] eqn:Hl; [|done].
    destruct (d !! k); simpl; [|done].
    split; [|done]. split_and!; try done. simpl.
    apply changes_delete; auto.
  Qed.

Lemma sound_setitem l k v :
    k ∉ protected_keys → k ≠ "username" → (k = "memberCreator" → X l) →
    (is_Some (h0 !! l) → edited h0 cs l) →
    sound T (Py.setitem l k v) R (λ _ _, True).
  Proof.
    intros Hp Hu Hm He w _. unfold Py.setitem, Py.the_dict, mbind, M_bind.
    destruct (w_heap w !! l) as [d|] eqn:Hl; [|done]. simpl.
    split; [|done]. split_and!; try done. simpl.
    apply changes_set; auto.
  Qed.

Lemma sound_alloc d : sound T (Py.alloc d) R (λ _ _, True).
  Proof.
    intros w _. unfold Py.alloc. split; [|done]. split_and!; try done. simpl.
    apply changes_alloc. apply not_elem_of_dom, is_fresh.
  Qed.

Lemma sound_append_item l k v :
    k ∉ protected_keys → k ≠ "username" → k ≠ "memberCreator" →
    (is_Some (h0 !! l) → edited h0 cs l) →
    sound T (Py.append_item l k v) R (λ _ _, True).
  Proof.
    intros Hp Hu Hm He. unfold Py.append_item.
    eapply sound_seq; [apply _|by intros|apply sound_readonly, readonly_getitem; apply _|].
    intros [| | | |xs|]; try (apply sound_raise; apply _).
    by apply sound_setitem.
  Qed.
End HeapSound.

Lemma sound_rel_weaken {A} (P : world → Prop) (m : M A) (R R' : world → world → Prop) Q :
  (∀ w w', R w w' → R' w w') → sound P m R Q → sound P m R' Q.
Proof.
  intros HR Hm w HP. specialize (Hm w HP).
  destruct (m w); [destruct Hm; split|..]; auto.
Qed.

Lemma sound_pre_weaken {A} (P P' : world → Prop) (m : M A) R Q :
  (∀ w, P' w → P w) → sound P m R Q → sound P' m R Q.
Proof. intros HP Hm w Hw. by apply Hm, HP. Qed.

Lemma heap_only_mono (Rh Rh' : relation (gmap loc pydict)) w w' :
  (∀ h h', Rh h h' → Rh' h h') → heap_only Rh w w' → heap_only Rh' w w'.
Proof. intros H (? & ? & ? & ?). split_and!; auto. Qed.

Lemma heap_only_rel Rh w w' : heap_only Rh w w' → heap_rel Rh w w'.
Proof. by intros (? & _). Qed.

#[global] Instance heap_rel_refl Rh `{!Reflexive Rh} : Reflexive (heap_rel Rh).
Proof. intros w. unfold heap_rel. reflexivity. Qed.

#[global] Instance heap_rel_trans Rh `{!Transitive Rh} : Transitive (heap_rel Rh).
Proof. intros w1 w2 w3. unfold heap_rel. by etrans. Qed.

Section Shaping.
Variable h0 : gmap loc pydict.
Variable cs : list loc.
Hypothesis Hcs : (∀ c, c ∈ cs → is_Some (h0 !! c)) ∨ h0 = ∅.

#[local] Instance evolves_reflexive : Reflexive (evolves h0 cs).
  Proof. intros h. apply evolves_refl. Qed.
#[local] Instance evolves_transitive : Transitive (evolves h0 cs).
  Proof. intros h1 h2 h3. apply evolves_trans. Qed.
#[local] Existing Instance changes_reflexive.
#[local] Existing Instance changes_transitive.

#[local] Abbreviation T := (λ _ : world, True).
#[local] Abbreviation Ev := (heap_only (evolves h0 cs)).

Lemma reached_stable w w' : reached h0 cs w → Ev w w' → reached h0 cs w'.
  Proof. intros Hr (He & _). unfold reached. by etrans. Qed.

  (** A step that gives no comment a new author is an evolution. *)
Lemma sound_plain {A} (m : M A) :
    sound T m (heap_only (changes h0 cs (λ _, False))) (λ _ _, True) →
    sound (reached h0 cs) m Ev (λ _ _, True).
  Proof.
    intros Hm. eapply (sound_pre_weaken (λ _, True)); [done|].
    eapply sound_rel_weaken; [|exact Hm].
    intros w w'. apply heap_only_mono. apply changes_evolves.
  Qed.

  (** The author dictionary a comment refers to, once its creator id could
      be deleted, is the one it referred to when shaping started. *)
Lemma author_is_edited w c d m :
    reached h0 cs w → c ∈ cs →
    w_heap w !! c = Some d → is_Some (d !! "idMemberCreator") →
    d !! "memberCreator" = Some (VRef m) →
    is_Some (h0 !! m) → edited h0 cs m.
  Proof.
    intros Hr Hc Hd Hid Hm Hm0. destruct Hcs as [Hin| ->].
    - destruct (Hin c Hc) as [d0 Hd0].
      destruct (Hr c d0 Hd0) as (d' & Hd' & _ & _ & Hmc & _).
      rewrite Hd in Hd'. injection Hd' as <-.
      destruct Hmc as [Hmc|[_ Hn]]; [|rewrite Hn in Hid; by destruct Hid].
      right. exists c. split; [done|]. unfold author_of. rewrite Hd0. simpl. congruence.
    - rewrite lookup_empty in Hm0. by destruct Hm0.
  Qed.

Lemma comment_is_edited c : c ∈ cs → is_Some (h0 !! c) → edited h0 cs c.
  Proof. intros Hc _. by left. Qed.

  (** The rest of one iteration, after the creator id is deleted. *)
Lemma trim_tail_sound cd c (v : pyval) (b : bool) :
    c ∈ cs → h0 !! cd = None →
    (∀ m, v = VRef m → is_Some (h0 !! m) → edited h0 cs m) →
    sound T
      ((if b then
          for_each ["avatarHash"; "fullName"; "initials"] (λ key, Py.delitem v key)
        else
          s ← Py.alloc {[ "username" := VStr SENTINEL ]};
          Py.setitem c "memberCreator" (VRef s)) ;;
       Py.append_item cd "comments" (VRef c))
      (heap_only (changes h0 cs (λ l, l = c))) (λ _ _, True).
  Proof.
    intros Hc Hcd Hv.
    eapply sound_seq; [apply _|by intros| |].
    - destruct b.
      + apply sound_for_each; [apply _..|by intros|].
        intros key Hkey. apply sound_delitem; [| |done].
        * intros ->. revert Hkey. solve_key.
        * intros ->. revert Hkey. solve_key.
      + eapply sound_seq; [apply _|by intros|apply sound_alloc|].
        intros s. apply sound_setitem; [solve_key|done|done|].
        by apply comment_is_edited.
    - intros _. apply sound_append_item; [solve_key|done|done|].
      rewrite Hcd. by intros [? ?].
  Qed.

  (** One iteration of the loop over the comments. *)
Lemma trim_comment_sound cd c :
    c ∈ cs → h0 !! cd = None →
    sound (reached h0 cs) (trim_comment cd c) Ev (λ _ _, True).
  Proof.
    intros Hc Hcd w Hr. unfold trim_comment. rewrite bind_unfold.
    unfold Py.delitem at 1. cbv beta iota. rewrite bind_unfold. unfold Py.the_dict at 1.
    destruct (w_heap w !! c) as [d|] eqn:Hd; [|done].
    destruct (d !! "idMemberCreator") as [x|] eqn:Hid; [|simpl; reflexivity].
    simpl. set (w1 := set_heap _ w).
    assert (Hstep : ∀ w', heap_only (changes h0 cs (λ l, l = c)) w1 w' → Ev w w').
    { intros w' (Hch & Hfs & Hcwd & Hlog). split_and!; [|done..].
      eapply evolves_trim; [done|by rewrite Hid|by apply comment_is_edited|done]. }
    rewrite bind_unfold. unfold Py.dict_get. rewrite bind_unfold.
    unfold Py.the_dict at 1. simpl. rewrite lookup_insert_eq. simpl.
    rewrite lookup_delete_ne by done.
    set (v := default VNone (d !! "memberCreator")).
    rewrite bind_unfold. pose proof (readonly_truthy v w1) as Hro.
    destruct (Py.truthy v w1) as [b w2|e w2|l]; [subst w2| |done].
    2:{ subst w2. apply Hstep. reflexivity. }
    pose proof (trim_tail_sound cd c v b Hc Hcd) as Htail.
    specialize (Htail (λ m Hv, author_is_edited w c d m Hr Hc Hd (mk_is_Some _ _ Hid)
      ltac:(subst v; destruct (d !! "memberCreator"); simpl in *; congruence)) w1 I).
    simpl in Htail.
    match type of Htail with match ?t with _ => _ end =>
      destruct t as [[] w3|e w3|l] end; [|by apply Hstep|done].
    destruct Htail as [Htail _]. split; [by apply Hstep|done].
  Qed.
End Shaping.

Lemma keeps_heap_readonly {A} (m : M A) : readonly m → keeps_heap m.
Proof. intros H w. specialize (H w). destruct (m w); by subst. Qed.

Lemma keeps_heap_bind {A B} (m : M A) (f : A → M B) :
  keeps_heap m → (∀ a, keeps_heap (f a)) → keeps_heap (m ≫= f).
Proof.
  intros Hm Hf w. rewrite bind_unfold. specialize (Hm w).
  destruct (m w) as [a w1|e w1|l]; [|done..].
  specialize (Hf a w1). destruct (f a w1); congruence.
Qed.

Lemma keeps_heap_open_write s data : keeps_heap (Fs.open_write s data).
Proof. intros w. unfold Fs.open_write. by destruct (Fs.stat w s) as [q [| |]| | |]. Qed.

Lemma keeps_heap_symlink t s : keeps_heap (Fs.symlink t s).
Proof.
  intros w. unfold Fs.symlink. case_decide; [done|].
  by destruct (Fs.lstat w s) as [q [| |]| | |].
Qed.

Lemma readonly_get : readonly get.
Proof. by intros w. Qed.

Lemma keeps_heap_write_card blob tree data : keeps_heap (write_card blob tree data).
Proof.
  unfold write_card. apply keeps_heap_bind; [apply keeps_heap_readonly, readonly_get|].
  intros w. destruct (OsPath.relpath _ _ _); [|apply keeps_heap_readonly, readonly_raise].
  apply keeps_heap_bind; [apply keeps_heap_open_write|]. intros _. apply keeps_heap_symlink.
Qed.

Lemma sound_keeps_heap {A} (P : world → Prop) (Rh : relation (gmap loc pydict))
    `{!Reflexive Rh} (m : M A) :
  keeps_heap m → sound P m (heap_rel Rh) (λ _ _, True).
Proof.
  intros Hk w _. specialize (Hk w). unfold heap_rel.
  destruct (m w); rewrite ?Hk; [split|..]; done.
Qed.

Lemma readonly_as_str v : readonly (as_str v).
Proof. destruct v; first [apply readonly_ret|apply readonly_raise]. Qed.

Lemma readonly_fmt py v : readonly (fmt py v).
Proof.
  unfold fmt. apply readonly_bind; [apply readonly_get|]. intros w.
  destruct (format_field _ _ _); [apply readonly_ret|apply readonly_raise].
Qed.

Lemma readonly_toyaml py v : readonly (toyaml py v).
Proof. unfold toyaml. apply readonly_bind; [apply readonly_get|]. intros. apply readonly_ret. Qed.

Lemma readonly_iterate v : readonly (iterate v).
Proof.
  destruct v; try apply readonly_ret; try apply readonly_raise.
  apply readonly_bind; [apply readonly_the_dict|]. intros. apply readonly_ret.
Qed.

Lemma readonly_format_comment py v : readonly (format_comment py v).
Proof.
  unfold format_comment.
  repeat first [ apply readonly_ret | apply readonly_getitem | apply readonly_fmt
               | apply readonly_bind; [|intros ?] ].
Qed.

Section ShapeCard.
Variable h0 : gmap loc pydict.
Variable card : Card.
#[local] Abbreviation cs := (card_comments card).
Hypothesis Hcs : (∀ c, c ∈ cs → is_Some (h0 !! c)) ∨ h0 = ∅.

#[local] Existing Instance evolves_reflexive.
#[local] Existing Instance evolves_transitive.
#[local] Existing Instance changes_reflexive.
#[local] Existing Instance changes_transitive.

#[local] Abbreviation Ev := (heap_only (evolves h0 cs)).

Lemma new_is_free cd : h0 !! cd = None → is_Some (h0 !! cd) → edited h0 cs cd.
  Proof. intros ->. by intros [? ?]. Qed.

Lemma shape_rest_sound cd :
    h0 !! cd = None →
    sound (reached h0 cs)
      (for_each (copied_attrs card) (λ kv, Py.setitem cd kv.1 kv.2) ;;
       Py.setitem cd "comments" (VList []) ;;
       for_each (card_comments card) (trim_comment cd) ;;
       cl_data ← map_each (card_checklists card) (λ cl,
         d ← Py.alloc {[ "id" := cl_id cl; "name" := cl_name cl; "items" := cl_items cl ]};
         mret (VRef d));
       Py.setitem cd "checklists" (VList cl_data) ;;
       mret cd)
      Ev (λ r _, r = cd).
  Proof.
    intros Hcd. pose proof (reached_stable h0 cs) as Hst.
    eapply sound_seq; [apply _|done| |intros _].
    { apply sound_for_each; [apply _..|done|]. intros [k v] Hkv.
      apply sound_plain. simpl.
      apply sound_setitem; [| | |by apply new_is_free];
        unfold copied_attrs in Hkv;
        repeat (apply elem_of_cons in Hkv as [[= -> ->]|Hkv]; [solve_key|]);
        by apply elem_of_nil in Hkv. }
    eapply sound_seq; [apply _|done| |intros _].
    { apply sound_plain, sound_setitem; [solve_key|done|done|by apply new_is_free]. }
    eapply sound_seq; [apply _|done| |intros _].
    { apply sound_for_each; [apply _..|done|]. intros c Hc.
      by apply trim_comment_sound. }
    eapply sound_seq; [apply _|done| |intros cl_data].
    { apply sound_map_each; [apply _..|done|]. intros cl _.
      apply sound_plain.
      eapply sound_seq; [apply _|done|apply sound_alloc|].
      intros d. apply sound_ret; [apply _|done]. }
    eapply sound_seq; [apply _|done| |intros _].
    { apply sound_plain, sound_setitem; [solve_key|done|done|by apply new_is_free]. }
    apply sound_ret; [apply _|done].
  Qed.

  (** Shaping changes the heap by an evolution, and nothing else. *)
Lemma shape_card_sound :
    sound (λ w, w_heap w = h0) (shape_card card) Ev (λ cd _, h0 !! cd = None).
  Proof.
    intros w Hw. unfold shape_card. rewrite bind_unfold. unfold Py.alloc at 1.
    set (cd := fresh (dom (w_heap w))). set (w1 := set_heap _ w).
    assert (Hcd : h0 !! cd = None).
    { rewrite <-Hw. apply not_elem_of_dom, is_fresh. }
    assert (H1 : Ev w w1).
    { split_and!; [|done..]. simpl. apply changes_evolves, changes_alloc.
      by rewrite Hw. }
    assert (Hr1 : reached h0 cs w1).
    { unfold reached. rewrite <-Hw at 2. apply H1. }
    pose proof (shape_rest_sound cd Hcd w1 Hr1) as Hrest.
    match type of Hrest with match ?t with _ => _ end =>
      destruct t as [r w2|e w2|l] end; [|by etrans|done].
    destruct Hrest as [H2 ->]. split; [by etrans|done].
  Qed.
End ShapeCard.

Lemma keeps_heap_dump_yaml root py cd tree_path :
  keeps_heap (dump_yaml root py cd tree_path).
Proof.
  unfold dump_yaml.
  apply keeps_heap_bind.
  { apply keeps_heap_readonly, readonly_bind; [apply readonly_getitem|apply readonly_as_str]. }
  intros id. apply keeps_heap_bind; [apply keeps_heap_readonly, readonly_toyaml|].
  intros data. apply keeps_heap_write_card.
Qed.

Section DlCard.
Variable h0 : gmap loc pydict.
Variable card : Card.
#[local] Abbreviation cs := (card_comments card).
Hypothesis Hcs : (∀ c, c ∈ cs → is_Some (h0 !! c)) ∨ h0 = ∅.

#[local] Existing Instance evolves_reflexive.
#[local] Existing Instance evolves_transitive.
#[local] Existing Instance changes_reflexive.
#[local] Existing Instance changes_transitive.

#[local] Abbreviation Hr := (heap_rel (evolves h0 cs)).

Lemma reached_stable_rel w w' : reached h0 cs w → Hr w w' → reached h0 cs w'.
  Proof. intros H1 H2. unfold reached, heap_rel in *. by etrans. Qed.

Lemma sound_heap_only_rel {A} (m : M A) Q :
    sound (reached h0 cs) m (heap_only (evolves h0 cs)) Q →
    sound (reached h0 cs) m Hr Q.
  Proof. apply sound_rel_weaken. intros w w'. apply heap_only_rel. Qed.

Lemma dump_txt_sound root py cd tree_path :
    h0 !! cd = None →
    sound (reached h0 cs) (dump_txt root py cd tree_path) Hr (λ _ _, True).
  Proof.
    intros Hcd. pose proof reached_stable_rel as Hst. unfold dump_txt.
    eapply sound_seq; [apply _|done| |intros comments].
    { apply sound_readonly; [apply _|].
      apply readonly_bind; [apply readonly_getitem|apply readonly_iterate]. }
    eapply sound_seq; [apply _|done| |intros comments'].
    { apply sound_readonly; [apply _|].
      apply readonly_map_each, readonly_format_comment. }
    eapply sound_seq; [apply _|done| |intros name].
    { apply sound_readonly; [apply _|]. apply readonly_getitem. }
    eapply sound_seq; [apply _|done| |intros _].
    { destruct (unicode_utf8 py name); [|apply sound_raise; apply _].
      apply sound_heap_only_rel, sound_plain.
      apply sound_setitem; [solve_key|done|done|by apply new_is_free]. }
    eapply sound_seq; [apply _|done| |intros name'].
    { apply sound_readonly; [apply _|].
      apply readonly_bind; [apply readonly_getitem|apply readonly_fmt]. }
    eapply sound_seq; [apply _|done| |intros description].
    { apply sound_readonly; [apply _|].
      apply readonly_bind; [apply readonly_getitem|apply readonly_fmt]. }
    eapply sound_seq; [apply _|done| |intros id].
    { apply sound_readonly; [apply _|].
      apply readonly_bind; [apply readonly_getitem|apply readonly_as_str]. }
    apply sound_keeps_heap; [apply _|]. apply keeps_heap_write_card.
  Qed.

  (** [dl_card] changes the heap by an evolution. *)
Lemma dl_card_sound root py tree_path :
    sound (λ w, w_heap w = h0) (dl_card root py card tree_path) Hr (λ _ _, True).
  Proof.
    intros w Hw. unfold dl_card. rewrite bind_unfold.
    pose proof (shape_card_sound h0 card Hcs w Hw) as Hshape.
    destruct (shape_card card w) as [cd w1|e w1|l]; [|by apply heap_only_rel|done].
    destruct Hshape as [H1%heap_only_rel Hcd].
    assert (Hr1 : reached h0 cs w1).
    { unfold reached. rewrite <-Hw at 2. apply H1. }
    rewrite bind_unfold.
    pose proof (sound_keeps_heap (reached h0 cs) (evolves h0 cs) _
                  (keeps_heap_dump_yaml root py cd tree_path) w1 Hr1) as Hy.
    destruct (dump_yaml root py cd tree_path w1) as [[] w2|e w2|l]; [|by etrans|done].
    destruct Hy as [H2 _].
    pose proof (dump_txt_sound root py cd tree_path Hcd w2
                  (reached_stable_rel _ _ Hr1 H2)) as Ht.
    destruct (dump_txt root py cd tree_path w2) as [[] w3|e w3|l]; [|by do 2 etrans|done].
    destruct Ht as [H3 _]. split; [by do 2 etrans|done].
  Qed.
End DlCard.

(** C6, as amended.  Shaping a fetched card edits in place the comment
    dictionaries of the card and the author dictionaries they refer to,
    and allocates new objects; every other object of the heap keeps its
    value through [dl_card], whatever its outcome, and [shape_card]
    touches neither the file system, nor the working directory, nor the
    log. *)
Theorem shaping_frame (root : string) (py : PyLib) (card : Card)
    (tree_path : string) (w : world) :
  (∀ c, c ∈ card_comments card → is_Some (w_heap w !! c)) →
  match dl_card root py card tree_path w with
  | Ret _ w' | Raise _ w' =>
      ∀ l d, w_heap w !! l = Some d →
             ¬ edited (w_heap w) (card_comments card) l →
             w_heap w' !! l = Some d
  | Outside _ => True
  end
  ∧ match shape_card card w with
    | Ret _ w' | Raise _ w' =>
        w_fs w' = w_fs w ∧ w_cwd w' = w_cwd w ∧ w_log w' = w_log w
    | Outside _ => True
    end.
Proof.
  intros Hcs. split.
  - pose proof (dl_card_sound (w_heap w) card (or_introl Hcs) root py tree_path w eq_refl) as H.
    assert (Hfr : ∀ w', heap_rel (evolves (w_heap w) (card_comments card)) w w' →
      ∀ l d, w_heap w !! l = Some d →
             ¬ edited (w_heap w) (card_comments card) l → w_heap w' !! l = Some d).
    { intros w' Hev l d Hl Hne.
      destruct (Hev l d Hl) as (d' & Hl' & _ & _ & _ & Hd).
      rewrite Hl'. f_equal. apply Hd; [by rewrite Hl|done]. }
    destruct (dl_card root py card tree_path w) as [[] w'|e w'|l]; [|by apply Hfr|done].
    destruct H as [H _]. by apply Hfr.
  - pose proof (shape_card_sound (w_heap w) card (or_introl Hcs) w eq_refl) as H.
    destruct (shape_card card w) as [cd w'|e w'|l]; [|by destruct H as (_ & ? & ? & ?)|done].
    by destruct H as [(_ & ? & ? & ?) _].
Qed.

(** ** What a successful step tells *)

Lemma bind_ret_inv {A B} (m : M A) (f : A → M B) w b w' :
  (m ≫= f) w = Ret b w' → ∃ a w1, m w = Ret a w1 ∧ f a w1 = Ret b w'.
Proof. rewrite bind_unfold. destruct (m w) as [a w1|e w1|l]; [eauto|done..]. Qed.

Lemma delitem_ret v k w w' :
  Py.delitem v k w = Ret () w' →
  ∃ l d, v = VRef l ∧ w_heap w !! l = Some d ∧ is_Some (d !! k)
         ∧ w' = set_heap (<[l := delete k d]> (w_heap w)) w.
Proof.
  destruct v as [| | | | |l]; try done. simpl.
  unfold Py.the_dict, mbind, M_bind, modify, raise.
  destruct (w_heap w !! l) as [d|] eqn:Hl; [|done].
  destruct (d !! k) eqn:Hk; [|done].
  intros [= <-]. exists l, d. by rewrite Hk.
Qed.

Lemma setitem_ret l k v w w' :
  Py.setitem l k v w = Ret () w' →
  ∃ d, w_heap w !! l = Some d ∧ w' = set_heap (<[l := <[k := v]> d]> (w_heap w)) w.
Proof.
  unfold Py.setitem, Py.the_dict, mbind, M_bind, modify.
  destruct (w_heap w !! l) as [d|] eqn:Hl; [|done]. intros [= <-]. eauto.
Qed.

Lemma getitem_ret v k x w w' :
  Py.getitem v k w = Ret x w' →
  w' = w ∧ ∃ l d, v = VRef l ∧ w_heap w !! l = Some d ∧ d !! k = Some x.
Proof.
  destruct v as [| | | | |l]; try done. simpl.
  unfold Py.the_dict, mbind, M_bind, raise.
  destruct (w_heap w !! l) as [d|] eqn:Hl; [|done].
  destruct (d !! k) eqn:Hk; [|done].
  intros [= <- <-]. split; [done|]. by exists l, d.
Qed.

Lemma append_item_ret l k v w w' :
  Py.append_item l k v w = Ret () w' →
  ∃ d xs, w_heap w !! l = Some d ∧ d !! k = Some (VList xs)
          ∧ w' = set_heap (<[l := <[k := VList (xs ++ [v])]> d]> (w_heap w)) w.
Proof.
  unfold Py.append_item. intros (x & w1 & Hg & Hs)%bind_ret_inv.
  apply getitem_ret in Hg as (-> & l' & d & [= <-] & Hl & Hk).
  destruct x as [| | | |xs|]; try done.
  apply setitem_ret in Hs as (d' & Hl' & ->).
  rewrite Hl in Hl'. injection Hl' as <-. by exists d, xs.
Qed.

(** ** [keeps_key] *)
Section KeepsKey.
Variable k0 : string.

#[local] Instance keeps_key_refl : Reflexive (keeps_key k0).
  Proof. intros h l d Hl. by exists d. Qed.

#[local] Instance keeps_key_trans : Transitive (keeps_key k0).
  Proof.
    intros h1 h2 h3 H12 H23 l d Hl.
    destruct (H12 l d Hl) as (d2 & Hl2 & E2).
    destruct (H23 l d2 Hl2) as (d3 & Hl3 & E3).
    exists d3. split; [done|congruence].
  Qed.

#[local] Abbreviation T := (λ _ : world, True).
#[local] Abbreviation K := (heap_only (keeps_key k0)).

Lemma keeps_key_insert h l d d' :
    h !! l = Some d → d' !! k0 = d !! k0 → keeps_key k0 h (<[l := d']> h).
  Proof.
    intros Hl Hk l' dl Hl'. destruct (decide (l' = l)) as [->|Hne].
    - rewrite Hl in Hl'. injection Hl' as <-. exists d'. by rewrite lookup_insert_eq.
    - exists dl. by rewrite lookup_insert_ne.
  Qed.

Lemma keeps_key_alloc h l d : h !! l = None → keeps_key k0 h (<[l := d]> h).
  Proof.
    intros Hn l' dl Hl'. exists dl. rewrite lookup_insert_ne by congruence. done.
  Qed.

Lemma kk_delitem v k : k ≠ k0 → sound T (Py.delitem v k) K (λ _ _, True).
  Proof.
    intros Hk w _. destruct v as [| | | | |l]; simpl; try done.
    unfold Py.the_dict, mbind, M_bind.
    destruct (w_heap w !! l) as [d|] eqn:Hl; [|done].
    destruct (d !! k); simpl; [|done].
    split; [|done]. split_and!; try done. simpl.
    eapply keeps_key_insert; [done|]. by rewrite lookup_delete_ne.
  Qed.

Lemma kk_setitem l k v : k ≠ k0 → sound T (Py.setitem l k v) K (λ _ _, True).
  Proof.
    intros Hk w _. unfold Py.setitem, Py.the_dict, mbind, M_bind.
    destruct (w_heap w !! l) as [d|] eqn:Hl; [|done]. simpl.
    split; [|done]. split_and!; try done. simpl.
    eapply keeps_key_insert; [done|]. by rewrite lookup_insert_ne.
  Qed.

Lemma kk_alloc d : sound T (Py.alloc d) K (λ _ _, True).
  Proof.
    intros w _. unfold Py.alloc. split; [|done]. split_and!; try done. simpl.
    apply keeps_key_alloc. apply not_elem_of_dom, is_fresh.
  Qed.
End KeepsKey.

#[local] Existing Instance changes_reflexive.
#[local] Existing Instance changes_transitive.
#[local] Existing Instance keeps_key_refl.
#[local] Existing Instance keeps_key_trans.

Lemma sound_ret_heap {A} (m : M A) Rh w a w' :
  sound (λ _, True) m (heap_only Rh) (λ _ _, True) →
  m w = Ret a w' → Rh (w_heap w) (w_heap w').
Proof. intros Hs Hm. specialize (Hs w I). rewrite Hm in Hs. by destruct Hs as [[? _] _]. Qed.

Lemma dict_get_ret l k v w w' :
  Py.dict_get l k w = Ret v w' →
  w' = w ∧ ∃ d, w_heap w !! l = Some d ∧ v = default VNone (d !! k).
Proof.
  unfold Py.dict_get, Py.the_dict, mbind, M_bind, mret, M_ret.
  destruct (w_heap w !! l) as [d|] eqn:Hl; [|done]. intros [= <- <-]. eauto.
Qed.

Lemma truthy_ret v b w w' : Py.truthy v w = Ret b w' → w' = w.
Proof. intros H. pose proof (readonly_truthy v w) as Hro. by rewrite H in Hro. Qed.

Lemma truthy_none w : Py.truthy VNone w = Ret false w.
Proof. reflexivity. Qed.

Lemma edited_empty (cs : list loc) l : is_Some ((∅ : gmap loc pydict) !! l) → edited ∅ cs l.
Proof. rewrite lookup_empty. by intros [? ?]. Qed.

(** The deletion of the three personal keys. *)
Lemma strip_author_ret v w w' :
  for_each ["avatarHash"; "fullName"; "initials"] (λ key, Py.delitem v key) w = Ret () w' →
  ∃ m md md', v = VRef m ∧ w_heap w !! m = Some md ∧ w_heap w' !! m = Some md'
    ∧ md' !! "avatarHash" = None ∧ md' !! "fullName" = None ∧ md' !! "initials" = None.
Proof.
  simpl. intros ([] & w1 & H1 & H)%bind_ret_inv.
  apply bind_ret_inv in H as ([] & w2 & H2 & H).
  apply bind_ret_inv in H as ([] & w3 & H3 & [= <-]).
  apply delitem_ret in H1 as (m & md & -> & Hm & _ & ->).
  apply delitem_ret in H2 as (m2 & md2 & [= <-] & Hm2 & _ & ->).
  apply delitem_ret in H3 as (m3 & md3 & [= <-] & Hm3 & _ & ->).
  simpl in *. rewrite lookup_insert_eq in Hm2. injection Hm2 as <-.
  rewrite lookup_insert_eq in Hm3. injection Hm3 as <-.
  exists m, md, (delete "initials" (delete "fullName" (delete "avatarHash" md))).
  rewrite lookup_insert_eq. split_and!; try done.
  - rewrite !lookup_delete_ne by done. apply lookup_delete_eq.
  - rewrite lookup_delete_ne by done. apply lookup_delete_eq.
  - apply lookup_delete_eq.
Qed.

Lemma strip_author_changes v :
  sound (λ _, True)
    (for_each ["avatarHash"; "fullName"; "initials"] (λ key, Py.delitem v key))
    (heap_only (changes ∅ [] (λ _, False))) (λ _ _, True).
Proof.
  apply sound_for_each; [apply _..|done|]. intros key Hkey.
  apply sound_delitem.
  - intros ->. revert Hkey. solve_key.
  - intros ->. revert Hkey. solve_key.
  - intros l _. apply edited_empty.
Qed.

Lemma strip_author_keeps v :
  sound (λ _, True)
    (for_each ["avatarHash"; "fullName"; "initials"] (λ key, Py.delitem v key))
    (heap_only (keeps_key "comments")) (λ _ _, True).
Proof.
  apply sound_for_each; [apply _..|done|]. intros key Hkey.
  apply kk_delitem. intros ->. revert Hkey. solve_key.
Qed.

(** The installation of the sentinel author. *)
Lemma install_sentinel_ret c d w w' :
  w_heap w !! c = Some d →
  (s ← Py.alloc {[ "username" := VStr SENTINEL ]};
   Py.setitem c "memberCreator" (VRef s)) w = Ret () w' →
  ∃ s, w_heap w !! s = None
    ∧ w' = set_heap (<[c := <["memberCreator" := VRef s]> d]>
                       (<[s := {[ "username" := VStr SENTINEL ]}]> (w_heap w))) w.
Proof.
  intros Hd (s & w1 & Ha & Hs)%bind_ret_inv.
  unfold Py.alloc in Ha. injection Ha as <- <-.
  apply setitem_ret in Hs as (d' & Hc & ->). simpl in *.
  set (s := fresh (dom (w_heap w))) in *.
  assert (Hs : w_heap w !! s = None) by apply not_elem_of_dom, is_fresh.
  rewrite lookup_insert_ne in Hc by congruence.
  rewrite Hd in Hc. injection Hc as <-. by exists s.
Qed.

Lemma install_sentinel_keeps c :
  sound (λ _, True)
    (s ← Py.alloc {[ "username" := VStr SENTINEL ]};
     Py.setitem c "memberCreator" (VRef s))
    (heap_only (keeps_key "comments")) (λ _ _, True).
Proof.
  eapply sound_seq; [apply _|done|apply kk_alloc|].
  intros s. apply kk_setitem. discriminate.
Qed.

Lemma redacted_changes h h' c :
  changes ∅ [] (λ _, False) h h' → redacted h c → redacted h' c.
Proof.
  intros Hch (d & m & md & Hc & Hid & Hmc & Hm & Ha & Hf & Hi).
  destruct (Hch c d Hc) as (d' & Hc' & Hp & _ & Hmc' & _).
  destruct (Hch m md Hm) as (md' & Hm' & Hpm & _ & _ & _).
  exists d', m, md'. split_and!; try done.
  - apply Hp; [solve_key|done].
  - rewrite Hmc'; [done|]. by intros [].
  - apply Hpm; [solve_key|done].
  - apply Hpm; [solve_key|done].
  - apply Hpm; [solve_key|done].
Qed.

Lemma sentinel_changes h h' c :
  changes ∅ [] (λ _, False) h h' → sentinel_author h c → sentinel_author h' c.
Proof.
  intros Hch (m & md & Hmc & Hm & Hu).
  unfold author_of in Hmc. destruct (h !! c) as [d|] eqn:Hc; [|done]. simpl in Hmc.
  destruct (Hch c d Hc) as (d' & Hc' & _ & _ & Hmc' & _).
  destruct (Hch m md Hm) as (md' & Hm' & _ & Hu' & _ & _).
  exists m, md'. split_and!; [|done|congruence].
  unfold author_of. rewrite Hc'. simpl. rewrite Hmc'; [done|]. by intros [].
Qed.

Lemma append_changes l k v w w' :
  k ∉ protected_keys → k ≠ "username" → k ≠ "memberCreator" →
  Py.append_item l k v w = Ret () w' →
  changes ∅ [] (λ _, False) (w_heap w) (w_heap w').
Proof.
  intros Hp Hu Hm H.
  refine (sound_ret_heap _ _ _ _ _ _ H).
  apply sound_append_item; try done. apply edited_empty.
Qed.

(** One successful iteration: the comment had a creator id; it ends
    redacted; it ends with the sentinel author if it had none; and it is
    appended to the comments of the record. *)
Lemma trim_comment_post cd c w w' :
  trim_comment cd c w = Ret () w' →
  (∃ d, w_heap w !! c = Some d ∧ is_Some (d !! "idMemberCreator"))
  ∧ redacted (w_heap w') c
  ∧ (no_author (w_heap w) c → sentinel_author (w_heap w') c)
  ∧ (∀ xs, comments_of (w_heap w) cd = Some (VList xs) →
           comments_of (w_heap w') cd = Some (VList (xs ++ [VRef c]))).
Proof.
  unfold trim_comment.
  intros ([] & w1 & Hdel & H)%bind_ret_inv.
  apply delitem_ret in Hdel as (c' & d & [= <-] & Hc & Hid & ->).
  apply bind_ret_inv in H as (v & w1 & Hget & H).
  apply dict_get_ret in Hget as (-> & d1 & Hc1 & Hv).
  simpl in Hc1. rewrite lookup_insert_eq in Hc1. injection Hc1 as <-.
  rewrite lookup_delete_ne in Hv by done.
  apply bind_ret_inv in H as (b & w1 & Htr & H).
  pose proof (truthy_ret _ _ _ _ Htr) as ->.
  apply bind_ret_inv in H as ([] & w2 & Hbr & Happ).
  set (h := w_heap w) in *.
  set (h1 := <[c := delete "idMemberCreator" d]> h) in *.
  assert (Hch' : changes ∅ [] (λ _, False) (w_heap w2) (w_heap w')).
  { eapply append_changes; [..|exact Happ]; solve_key. }
  (* the comments of the record are not touched before the append *)
  assert (Hkk : keeps_key "comments" h (w_heap w2)).
  { trans h1; [apply (keeps_key_insert _ h c d); [done|by rewrite lookup_delete_ne]|].
    destruct b.
    - exact (sound_ret_heap _ _ _ _ _ (strip_author_keeps v) Hbr).
    - exact (sound_ret_heap _ _ _ _ _ (install_sentinel_keeps c) Hbr). }
  assert (Hcomments : ∀ xs, comments_of h cd = Some (VList xs) →
            comments_of (w_heap w') cd = Some (VList (xs ++ [VRef c]))).
  { intros xs Hxs. unfold comments_of in Hxs.
    destruct (h !! cd) as [dcd|] eqn:Hcd; [|done]. simpl in Hxs.
    destruct (Hkk cd dcd Hcd) as (dcd2 & Hcd2 & Hsame).
    apply append_item_ret in Happ as (dcd2' & xs' & Hcd2' & Hxs' & ->).
    rewrite Hcd2 in Hcd2'. injection Hcd2' as <-.
    rewrite Hsame, Hxs in Hxs'. injection Hxs' as <-.
    unfold comments_of. simpl. rewrite lookup_insert_eq. simpl.
    by rewrite lookup_insert_eq. }
  split; [eauto|].
  destruct b.
  - (* the author is a dictionary: its three personal keys are deleted *)
    pose proof Hbr as Hexp.
    apply strip_author_ret in Hexp as (m & md & md' & -> & Hm & Hm' & Ha & Hf & Hi).
    pose proof (sound_ret_heap _ _ _ _ _ (strip_author_changes _) Hbr) as Hch.
    assert (Hred : redacted (w_heap w2) c).
    { destruct (Hch c (delete "idMemberCreator" d)) as (d2 & Hc2 & Hp & _ & Hmc & _).
      { simpl. unfold h1. by rewrite lookup_insert_eq. }
      exists d2, m, md'. split_and!; try done.
      - apply Hp; [solve_key|]. apply lookup_delete_eq.
      - rewrite Hmc by (by intros []). rewrite lookup_delete_ne by done.
        destruct (d !! "memberCreator"); simpl in *; congruence. }
    split_and!; [by eapply redacted_changes| |done].
    intros (d' & Hc' & Hno). exfalso. rewrite Hc in Hc'. injection Hc' as <-.
    destruct Hno as [Hno|Hno]; rewrite Hno in Hv; simpl in Hv; by subst.
  - (* no author: the sentinel is installed *)
    eapply install_sentinel_ret in Hbr as (s & Hs & Hw2);
      [|simpl; unfold h1; by rewrite lookup_insert_eq].
    subst w2. simpl in *.
    assert (Hsc : s ≠ c).
    { intros ->. subst h1. by rewrite lookup_insert_eq in Hs. }
    set (h2 := <[c := <["memberCreator" := VRef s]> _]> _) in *.
    assert (Hc2 : h2 !! c = Some (<["memberCreator" := VRef s]> (delete "idMemberCreator" d))).
    { subst h2. by rewrite lookup_insert_eq. }
    assert (Hs2 : h2 !! s = Some {[ "username" := VStr SENTINEL ]}).
    { subst h2. rewrite lookup_insert_ne by done. by rewrite lookup_insert_eq. }
    assert (Hred : redacted h2 c).
    { eexists _, s, _. split_and!; [exact Hc2| | |exact Hs2|..]; try done.
      - rewrite lookup_insert_ne by done. apply lookup_delete_eq.
      - by rewrite lookup_insert_eq. }
    assert (Hsen : sentinel_author h2 c).
    { exists s, {[ "username" := VStr SENTINEL ]}. split_and!; [|done|done].
      unfold author_of. rewrite Hc2. simpl. by rewrite lookup_insert_eq. }
    split_and!; [by eapply redacted_changes| |done].
    intros _. by eapply sentinel_changes.
Qed.

#[local] Existing Instance changes_reflexive.
#[local] Existing Instance changes_transitive.
#[local] Existing Instance keeps_key_refl.
#[local] Existing Instance keeps_key_trans.
#[local] Existing Instance evolves_reflexive.
#[local] Existing Instance evolves_transitive.

Lemma reached_empty cs w : reached ∅ cs w.
Proof. intros l d Hl. by rewrite lookup_empty in Hl. Qed.

Lemma redacted_evolves cs h h' c :
  evolves ∅ cs h h' → redacted h c → redacted h' c.
Proof.
  intros Hev (d & m & md & Hc & Hid & Hmc & Hm & Ha & Hf & Hi).
  destruct (Hev c d Hc) as (d' & Hc' & Hp & _ & Hmc' & _).
  destruct (Hev m md Hm) as (md' & Hm' & Hpm & _ & _ & _).
  exists d', m, md'. split_and!; try done.
  - apply Hp; [solve_key|done].
  - destruct Hmc' as [->|[Hs _]]; [done|]. rewrite Hid in Hs. by destruct Hs.
  - apply Hpm; [solve_key|done].
  - apply Hpm; [solve_key|done].
  - apply Hpm; [solve_key|done].
Qed.

Lemma sentinel_evolves cs h h' c :
  evolves ∅ cs h h' → redacted h c → sentinel_author h c → sentinel_author h' c.
Proof.
  intros Hev (d & _ & _ & Hc & Hid & _) (m & md & Hmc & Hm & Hu).
  unfold author_of in Hmc. rewrite Hc in Hmc. simpl in Hmc.
  destruct (Hev c d Hc) as (d' & Hc' & _ & _ & Hmc' & _).
  destruct (Hev m md Hm) as (md' & Hm' & _ & Hu' & _ & _).
  exists m, md'. split_and!; [|done|congruence].
  unfold author_of. rewrite Hc'. simpl.
  destruct Hmc' as [->|[Hs _]]; [done|]. rewrite Hid in Hs. by destruct Hs.
Qed.

Lemma trim_comment_evolves cd c w w' :
  trim_comment cd c w = Ret () w' → evolves ∅ [c] (w_heap w) (w_heap w').
Proof.
  intros H.
  pose proof (trim_comment_sound ∅ [c] (or_intror eq_refl) cd c) as Hs.
  specialize (Hs ltac:(by left) (lookup_empty _) w (reached_empty _ _)).
  rewrite H in Hs. by destruct Hs as [[? _] _].
Qed.

Lemma trim_loop_evolves cd cs w w' :
  for_each cs (trim_comment cd) w = Ret () w' → evolves ∅ cs (w_heap w) (w_heap w').
Proof.
  intros H.
  assert (Hs : sound (reached ∅ cs) (for_each cs (trim_comment cd))
                 (heap_only (evolves ∅ cs)) (λ _ _, True)).
  { apply sound_for_each; [apply _..|apply reached_stable|].
    intros c Hc. apply trim_comment_sound; [by right|done|apply lookup_empty]. }
  specialize (Hs w (reached_empty _ _)). rewrite H in Hs. by destruct Hs as [[? _] _].
Qed.

(** The loop over the comments, when it succeeds. *)
Lemma trim_loop_post cd cs w w' :
  for_each cs (trim_comment cd) w = Ret () w' →
  (∀ c d, c ∈ cs → w_heap w !! c = Some d → is_Some (d !! "idMemberCreator"))
  ∧ (∀ c, c ∈ cs → redacted (w_heap w') c)
  ∧ (∀ c, c ∈ cs → no_author (w_heap w) c → sentinel_author (w_heap w') c)
  ∧ (∀ xs, comments_of (w_heap w) cd = Some (VList xs) →
           comments_of (w_heap w') cd = Some (VList (xs ++ (VRef <$> cs)))).
Proof.
  revert w. induction cs as [|x cs IH]; intros w H.
  - injection H as <-. split_and!; try by intros ? ?%elem_of_nil.
    + by intros ? ? ?%elem_of_nil.
    + intros xs Hxs. by rewrite app_nil_r.
  - simpl in H. apply bind_ret_inv in H as ([] & w1 & Hx & Hrest).
    destruct (trim_comment_post _ _ _ _ Hx) as ((dx & Hdx & Hidx) & Hredx & Hsenx & Hcomx).
    destruct (IH _ Hrest) as (IHid & IHred & IHsen & IHcom).
    pose proof (trim_comment_evolves _ _ _ _ Hx) as E1.
    pose proof (trim_loop_evolves _ _ _ _ Hrest) as E2.
    assert (Hid : ∀ c d, c ∈ x :: cs → w_heap w !! c = Some d →
                         is_Some (d !! "idMemberCreator")).
    { intros c d [->|Hc]%elem_of_cons Hd; [congruence|].
      destruct (E1 c d Hd) as (d1 & Hd1 & Hp & _).
      specialize (IHid c d1 Hc Hd1).
      destruct (d !! "idMemberCreator") eqn:E; [done|].
      rewrite Hp in IHid; [done|solve_key|done]. }
    split_and!; [done|..].
    + intros c [->|Hc]%elem_of_cons; [|by apply IHred].
      by eapply redacted_evolves.
    + intros c [->|Hc]%elem_of_cons Hno.
      { eapply sentinel_evolves; [done..|by apply Hsenx]. }
      apply IHsen; [done|].
      destruct Hno as (d & Hd & Hno).
      destruct (E1 c d Hd) as (d1 & Hd1 & _ & _ & Hmc & _).
      exists d1. split; [done|].
      destruct Hmc as [->|[_ Hn]]; [done|].
      specialize (IHid c d1 Hc Hd1). rewrite Hn in IHid. by destruct IHid.
    + intros xs Hxs. rewrite (IHcom _ (Hcomx _ Hxs)).
      by rewrite <-app_assoc.
Qed.

#[local] Existing Instance changes_reflexive.
#[local] Existing Instance changes_transitive.
#[local] Existing Instance keeps_key_refl.
#[local] Existing Instance keeps_key_trans.

(** The steps of [shape_card] before and after the loop. *)
Lemma copy_attrs_sound h0 cs card cd :
  h0 !! cd = None →
  sound (λ _, True)
    (for_each (copied_attrs card) (λ kv, Py.setitem cd kv.1 kv.2))
    (heap_only (changes h0 cs (λ _, False))) (λ _ _, True).
Proof.
  intros Hcd. apply sound_for_each; [apply _..|done|]. intros [k v] Hkv. simpl.
  apply sound_setitem; [| | |rewrite Hcd; by intros [? ?]];
    unfold copied_attrs in Hkv;
    repeat (apply elem_of_cons in Hkv as [[= -> ->]|Hkv]; [solve_key|]);
    by apply elem_of_nil in Hkv.
Qed.

Lemma checklists_sound h0 cs card cd :
  h0 !! cd = None →
  sound (λ _, True)
    (cl_data ← map_each (card_checklists card) (λ cl,
       d ← Py.alloc {[ "id" := cl_id cl; "name" := cl_name cl; "items" := cl_items cl ]};
       mret (VRef d));
     Py.setitem cd "checklists" (VList cl_data) ;;
     mret cd)
    (heap_only (changes h0 cs (λ _, False))) (λ _ _, True).
Proof.
  intros Hcd.
  eapply sound_seq; [apply _|done| |intros cl_data].
  { apply sound_map_each; [apply _..|done|]. intros cl _.
    eapply sound_seq; [apply _|done|apply sound_alloc|].
    intros d. by apply sound_ret; [apply _|]. }
  eapply sound_seq; [apply _|done| |intros _].
  { apply sound_setitem; [solve_key|done|done|rewrite Hcd; by intros [? ?]]. }
  by apply sound_ret; [apply _|].
Qed.

Lemma checklists_keeps card cd :
  sound (λ _, True)
    (cl_data ← map_each (card_checklists card) (λ cl,
       d ← Py.alloc {[ "id" := cl_id cl; "name" := cl_name cl; "items" := cl_items cl ]};
       mret (VRef d));
     Py.setitem cd "checklists" (VList cl_data) ;;
     mret cd)
    (heap_only (keeps_key "comments")) (λ _ _, True).
Proof.
  eapply sound_seq; [apply _|done| |intros cl_data].
  { apply sound_map_each; [apply _..|done|]. intros cl _.
    eapply sound_seq; [apply _|done|apply kk_alloc|].
    intros d. by apply sound_ret; [apply _|]. }
  eapply sound_seq; [apply _|done| |intros _].
  { apply kk_setitem. discriminate. }
  by apply sound_ret; [apply _|].
Qed.

Lemma comments_of_keeps h h' cd v :
  keeps_key "comments" h h' → comments_of h cd = Some v → comments_of h' cd = Some v.
Proof.
  intros Hk. unfold comments_of. destruct (h !! cd) as [d|] eqn:Hd; [|done]. simpl.
  destruct (Hk cd d Hd) as (d' & -> & E). simpl. congruence.
Qed.

(** What a successful shaping establishes: the comments of the record
    are the comment objects of the card, in order; each is redacted; each
    that had no author has the sentinel author. *)
Lemma shape_card_post card w cd w' :
  shape_card card w = Ret cd w' →
  comments_of (w_heap w') cd = Some (VList (VRef <$> card_comments card))
  ∧ (∀ c, c ∈ card_comments card → redacted (w_heap w') c)
  ∧ (∀ c, c ∈ card_comments card →
          no_author (w_heap w) c → sentinel_author (w_heap w') c).
Proof.
  unfold shape_card.
  intros (cd0 & w1 & Halloc & H)%bind_ret_inv.
  unfold Py.alloc in Halloc. injection Halloc as <- <-.
  set (h := w_heap w) in *. set (cd0 := fresh (dom h)) in *.
  assert (Hcd : h !! cd0 = None) by apply not_elem_of_dom, is_fresh.
  apply bind_ret_inv in H as ([] & w2 & Hattrs & H).
  apply bind_ret_inv in H as ([] & w3 & Hset & H).
  apply bind_ret_inv in H as ([] & w4 & Hloop & H).
  pose proof (sound_ret_heap _ _ _ _ _ (checklists_sound ∅ [] card cd0 (lookup_empty _)) H) as Hch.
  pose proof (sound_ret_heap _ _ _ _ _ (checklists_keeps card cd0) H) as Hkk.
  assert (cd = cd0) as ->.
  { apply bind_ret_inv in H as (cl & w5 & _ & H).
    apply bind_ret_inv in H as ([] & w6 & _ & H). by injection H as <- _. }
  (* before the loop: the objects of the initial heap are as they were,
     and the record has an empty list of comments *)
  pose proof (sound_ret_heap _ _ _ _ _ (copy_attrs_sound h [] card cd0 Hcd) Hattrs) as Hpro.
  simpl in Hpro.
  assert (Hpro3 : changes h [] (λ _, False) h (w_heap w3)).
  { trans (<[cd0 := ∅]> h); [by apply changes_alloc|].
    trans (w_heap w2); [done|].
    apply setitem_ret in Hset as (d2 & Hd2 & ->). simpl.
    apply changes_set; [done|solve_key|done|done|rewrite Hcd; by intros [? ?]]. }
  assert (Hcom3 : comments_of (w_heap w3) cd0 = Some (VList [])).
  { apply setitem_ret in Hset as (d2 & Hd2 & ->). unfold comments_of. simpl.
    rewrite lookup_insert_eq. simpl. by rewrite lookup_insert_eq. }
  destruct (trim_loop_post _ _ _ _ Hloop) as (_ & Hred & Hsen & Hcom).
  split_and!.
  - pose proof (Hcom _ Hcom3) as Hcom4. simpl in Hcom4.
    by eapply comments_of_keeps.
  - intros c Hc. eapply redacted_changes; [done|]. by apply Hred.
  - intros c Hc (d & Hd & Hno). eapply sentinel_changes; [done|].
    apply Hsen; [done|].
    destruct (Hpro3 c d Hd) as (d' & Hd' & _ & _ & _ & Hsame).
    exists d'. split; [done|]. rewrite Hsame; [done|by rewrite Hd|].
    intros [Hin|(c' & Hin & _)]; by apply elem_of_nil in Hin.
Qed.

(** C2.  Redaction.  When the shaping of a card succeeds, the comments
    of the shaped record are the comment dictionaries of the card; each
    of them has lost its creator id [idMemberCreator], and its author
    dictionary has none of the keys [avatarHash], [fullName],
    [initials]; and each comment that came without author (the key
    missing or null) has an author dictionary whose [username] is the
    placeholder for deleted accounts. *)
Theorem shaped_comments_redacted (card : Card) (w : world) (cd : loc) (w' : world) :
  shape_card card w = Ret cd w' →
  comments_of (w_heap w') cd = Some (VList (VRef <$> card_comments card))
  ∧ Forall (redacted (w_heap w')) (card_comments card)
  ∧ Forall (λ c, no_author (w_heap w) c → sentinel_author (w_heap w') c)
      (card_comments card).
Proof.
  intros H. destruct (shape_card_post _ _ _ _ H) as (Hcom & Hred & Hsen).
  split_and!; [done|by apply Forall_forall..].
Qed.

Lemma shaped_comments_redacted_witness :
  match shape_card Example.card Example.w0 with
  | Ret cd w' =>
      comments_of (w_heap w') cd
      = Some (VList (VRef <$> card_comments Example.card))
      ∧ Forall (redacted (w_heap w')) (card_comments Example.card)
      ∧ Forall (λ c, no_author (w_heap Example.w0) c → sentinel_author (w_heap w') c)
          (card_comments Example.card)
  | _ => False
  end.
Proof.
  destruct (shape_card Example.card Example.w0) as [cd w'|e w'|l] eqn:E.
  - exact (shaped_comments_redacted Example.card Example.w0 cd w' E).
  - vm_compute in E. discriminate E.
  - vm_compute in E. discriminate E.
Defined.

(** C6, as stated, fails: shaping deletes the creator id of the first
    comment of the example card, in the comment object the card holds. *)
Lemma shaping_edits_comment :
  ¬ (∀ root py card tree_path w w',
       dl_card root py card tree_path w = Ret () w' →
       ∀ c, c ∈ card_comments card → w_heap w' !! c = w_heap w !! c).
Proof.
  intros H.
  destruct (dl_card Example.root Example.py Example.card Example.tree_path Example.w1)
    as [[] w'|e w'|l] eqn:E.
  - specialize (H _ _ _ _ _ _ E 1%positive ltac:(by left)).
    apply (f_equal (λ o, o ≫= (λ d : pydict, d !! "idMemberCreator"))) in H.
    vm_compute in E. injection E as <-. vm_compute in H. discriminate H.
  - vm_compute in E. discriminate E.
  - vm_compute in E. discriminate E.
Qed.

Lemma shaping_frame_witness :
  (∀ c, c ∈ card_comments Example.card → is_Some (w_heap Example.w1 !! c))
  ∧ (match dl_card Example.root Example.py Example.card Example.tree_path Example.w1 with
     | Ret _ w' | Raise _ w' =>
         ∀ l d, w_heap Example.w1 !! l = Some d →
                ¬ edited (w_heap Example.w1) (card_comments Example.card) l →
                w_heap w' !! l = Some d
     | Outside _ => True
     end
     ∧ match shape_card Example.card Example.w1 with
       | Ret _ w' | Raise _ w' =>
           w_fs w' = w_fs Example.w1 ∧ w_cwd w' = w_cwd Example.w1
           ∧ w_log w' = w_log Example.w1
       | Outside _ => True
       end).
Proof.
  assert (H : ∀ c, c ∈ card_comments Example.card → is_Some (w_heap Example.w1 !! c)).
  { intros c Hc. apply (bool_decide_unpack _).
    simpl in Hc. apply elem_of_cons in Hc as [->|Hc]; [by vm_compute|].
    apply elem_of_cons in Hc as [->|Hc]; [by vm_compute|].
    by apply elem_of_nil in Hc. }
  split; [exact H|].
  exact (shaping_frame Example.root Example.py Example.card Example.tree_path Example.w1 H).
Defined.

Lemma gitit_removes_exactly_witness :
  let w := Example.w2 in
  let w1 := set_cwd ["home"; "u"; "results"] w in
  let current := [Example.file_A; Example.file_B] in
  let prev := [Example.file_A; Example.file_B; Example.file_C] in
  Fs.chdir "results" w = Ret () w1
  ∧ get_current_files Example.root "/home/u" w1 = Ret current w1
  ∧ ∃ removals,
      outcome_log (gitit Example.root "/home/u" "now" "results" prev w)
      = w_log w ++ removals
        ++ [Popen ["git"; "add"; "."];
            Popen ["git"; "commit"; "-m"; "backup - " +:+ "now"];
            Popen ["git"; "push"; "origin"; "master"]]
      ∧ Forall (λ e, ∃ f, e = git_rm f) removals
      ∧ ∀ f, git_rm f ∈ removals ↔ f ∈ prev ∧ f ∉ current.
Proof.
  intros w w1 current prev.
  assert (H1 : Fs.chdir "results" w = Ret () w1) by (by vm_compute).
  assert (H2 : get_current_files Example.root "/home/u" w1 = Ret current w1)
    by (by vm_compute).
  split; [exact H1|]. split; [exact H2|].
  exact (gitit_removes_exactly Example.root "/home/u" "now" "results"
           prev current w w1 w1 H1 H2).
Defined.

(** The instance of the specification: with the snapshot [{A, B, C}] and
    the files [{A, B}] present after the run, [gitit] removes [C] only. *)
Example gitit_removes_C :
  outcome_log (gitit Example.root "/home/u" "now" "results"
                 [Example.file_A; Example.file_B; Example.file_C] Example.w2)
  = [git_rm Example.file_C;
     Popen ["git"; "add"; "."];
     Popen ["git"; "commit"; "-m"; "backup - now"];
     Popen ["git"; "push"; "origin"; "master"]].
Proof. by vm_compute. Qed.

(** ** Pieces of paths *)

Lemma split_not_nil a s : Str.split a s ≠ [].
Proof. destruct s as [|c s]; simpl; [done|]. case_decide; [done|]. by destruct (Str.split a s). Qed.

Lemma split_app_sep a s t :
  Str.split a (s +:+ String a t) = Str.split a s ++ Str.split a t.
Proof.
  induction s as [|c s IH]; rewrite ?str_app_nil_l, ?str_app_cons; simpl.
  - by rewrite decide_True.
  - rewrite IH. case_decide; [done|].
    pose proof (split_not_nil a s). by destruct (Str.split a s).
Qed.

Lemma split_no_sep a s : Str.count a s = 0 → Str.split a s = [s].
Proof.
  induction s as [|c s IH]; simpl; [done|].
  case_decide; [lia|]. intros Hs. by rewrite IH.
Qed.

Lemma split_replace a b c s :
  a ≠ c → b ≠ c →
  Str.split c (Str.replace a b s) = map (Str.replace a b) (Str.split c s).
Proof.
  intros Ha Hb. induction s as [|d s IH]; simpl; [done|].
  rewrite IH. destruct (decide (d = a)) as [->|Hda].
  - rewrite decide_False by done. rewrite decide_False by done.
    pose proof (split_not_nil c s). destruct (Str.split c s); [done|].
    simpl. by rewrite decide_True.
  - destruct (decide (d = c)) as [->|Hdc]; [done|].
    pose proof (split_not_nil c s). destruct (Str.split c s); [done|].
    simpl. by rewrite decide_False.
Qed.

Lemma replace_empty_iff a b s : Str.replace a b s = EmptyString ↔ s = EmptyString.
Proof. by destruct s. Qed.

Lemma parts_app_sep s t :
  OsPath.parts (s +:+ String "/" t) = OsPath.parts s ++ OsPath.parts t.
Proof. unfold OsPath.parts. by rewrite split_app_sep, filter_app. Qed.

Lemma parts_empty : OsPath.parts EmptyString = [].
Proof. reflexivity. Qed.

Lemma parts_no_sep s : Str.count "/" s = 0 → s ≠ EmptyString → OsPath.parts s = [s].
Proof.
  intros H Hne. unfold OsPath.parts. rewrite split_no_sep by done.
  rewrite filter_cons. by rewrite decide_True.
Qed.

Lemma parts_no_sep' s :
  Str.count "/" s = 0 →
  OsPath.parts s = if decide (s = EmptyString) then [] else [s].
Proof. intros H. case_decide as E; [by rewrite E|by apply parts_no_sep]. Qed.

Lemma endswith_inv a s : Str.endswith a s = true → ∃ s', s = s' +:+ String a EmptyString.
Proof.
  induction s as [|c s IH]; simpl; [done|].
  destruct s as [|c' s].
  - intros ->%bool_decide_eq_true. by exists EmptyString.
  - intros H. destruct (IH H) as [s' ->]. by exists (String c s').
Qed.

Lemma endswith_app_nonempty a s t :
  t ≠ EmptyString → Str.endswith a (s +:+ t) = Str.endswith a t.
Proof.
  intros Ht. induction s as [|c s IH]; rewrite ?str_app_nil_l, ?str_app_cons; [done|].
  simpl. rewrite IH. destruct (s +:+ t) eqn:E; [|done].
  destruct s, t; done.
Qed.

Lemma endswith_no_sep a s : Str.count a s = 0 → Str.endswith a s = false.
Proof.
  induction s as [|c s IH]; simpl; [done|].
  case_decide; [lia|]. intros Hs. rewrite IH by done.
  destruct s; [by apply bool_decide_eq_false|done].
Qed.

Lemma parts_replace s :
  OsPath.parts (Str.replace " " "_" s) = map (Str.replace " " "_") (OsPath.parts s).
Proof.
  unfold OsPath.parts. rewrite split_replace by done.
  induction (Str.split "/" s) as [|x l IH]; simpl; [done|].
  rewrite !filter_cons, IH.
  destruct (decide (x = EmptyString)) as [->|Hx].
  - by rewrite !decide_False by (by intros []).
  - rewrite !decide_True; [done..|]. by rewrite replace_empty_iff.
Qed.

(** The pieces of a joined path. *)
Lemma parts_join2 a b :
  Str.count "/" b = 0 →
  OsPath.parts (OsPath.join2 a b) = OsPath.parts a ++ OsPath.parts b.
Proof.
  intros Hb. unfold OsPath.join2. rewrite startswith_count_0 by done.
  case_bool_decide as Ha; simpl.
  - subst a. by rewrite str_app_nil_l.
  - destruct (Str.endswith "/" a) eqn:E.
    + apply endswith_inv in E as [a' ->]. rewrite str_app_assoc.
      rewrite str_app_cons, str_app_nil_l.
      rewrite !parts_app_sep, parts_empty. by rewrite app_nil_r.
    + apply parts_app_sep.
Qed.

Lemma parts_join a l :
  Forall (λ b, Str.count "/" b = 0) l →
  OsPath.parts (OsPath.join a l) = OsPath.parts a ++ concat (map OsPath.parts l).
Proof.
  intros Hl. revert a. induction Hl as [|b l Hb _ IH]; intros a; simpl.
  - by rewrite app_nil_r.
  - unfold OsPath.join in *. simpl. rewrite IH, parts_join2 by done.
    by rewrite <-app_assoc.
Qed.

Lemma isabs_join2 a b :
  Str.count "/" b = 0 → OsPath.isabs (OsPath.join2 a b) = OsPath.isabs a.
Proof.
  intros Hb. unfold OsPath.join2, OsPath.isabs.
  rewrite (startswith_count_0 _ b) by done.
  case_bool_decide as Ha; simpl.
  - subst a. rewrite str_app_nil_l. by apply startswith_count_0.
  - destruct a; [done|]. by destruct (Str.endswith _ _).
Qed.

Lemma isabs_join a l :
  Forall (λ b, Str.count "/" b = 0) l → OsPath.isabs (OsPath.join a l) = OsPath.isabs a.
Proof.
  intros Hl. revert a. induction Hl as [|b l Hb _ IH]; intros a; [done|].
  unfold OsPath.join in *. simpl. by rewrite IH, isabs_join2.
Qed.

Lemma isabs_replace s : OsPath.isabs (Str.replace " " "_" s) = OsPath.isabs s.
Proof.
  destruct s as [|c s]; [done|]. unfold OsPath.isabs. simpl.
  case_decide as E; [subst c; by rewrite !bool_decide_eq_false_2|done].
Qed.

(** ** The shape of normalized paths *)

Lemma ordinary_parts c : ordinary c → OsPath.parts c = [c].
Proof. intros (Hne & _ & _ & Hs). by apply parts_no_sep. Qed.

Lemma concat_parts_ordinary l :
  Forall ordinary l → concat (map OsPath.parts l) = l.
Proof.
  induction 1 as [|c l Hc _ IH]; simpl; [done|].
  by rewrite ordinary_parts, IH.
Qed.

Lemma map_parts_replace l :
  map OsPath.parts (map (Str.replace " " "_") l)
  = map (map (Str.replace " " "_")) (map OsPath.parts l).
Proof. rewrite !map_map. apply map_ext. intros s. apply parts_replace. Qed.

Lemma sanitize_app s t : sanitize (s +:+ t) = sanitize s +:+ sanitize t.
Proof. induction s; rewrite ?str_app_nil_l, ?str_app_cons; simpl; rewrite ?str_app_cons; congruence. Qed.

Lemma sanitize_clean s :
  Str.count "/" s = 0 → Str.count " " s = 0 → sanitize s = s.
Proof.
  induction s as [|c s IH]; simpl; [done|]. intros H1 H2.
  unfold sanitize_char. repeat case_decide; try lia. by rewrite IH by lia.
Qed.

Lemma normpath_snoc root frags l :
  normpath root (frags ++ [l])
  = Str.replace " " "_"
      (OsPath.join2 (OsPath.join root (map (Str.replace "/" "-") frags))
         (Str.replace "/" "-" l)).
Proof. unfold normpath, OsPath.join. by rewrite map_app, fold_left_app. Qed.

Lemma parts_sanitized frags :
  Forall ordinary (map sanitize frags) →
  map (Str.replace " " "_") (concat (map OsPath.parts (map (Str.replace "/" "-") frags)))
  = map sanitize frags.
Proof.
  induction frags as [|f frags IH]; simpl; [done|].
  intros [Hf Hfr]%Forall_cons. rewrite map_app, IH by done.
  rewrite parts_no_sep.
  - simpl. by rewrite sanitize_replace.
  - by apply count_replace_gone.
  - intros E. destruct Hf as [Hne _]. apply Hne. by rewrite sanitize_replace, E.
Qed.

(** A normalized path is its own pieces: those of the rewritten root,
    then the sanitized fragments. *)
Lemma normpath_parts root frags :
  Forall ordinary (map sanitize frags) →
  OsPath.parts (normpath root frags)
  = OsPath.parts (rewritten_root root) ++ map sanitize frags.
Proof.
  intros Hord. unfold normpath, rewritten_root.
  rewrite parts_replace, parts_join.
  2:{ apply Forall_map, Forall_true. intros f. simpl. by apply count_replace_gone. }
  rewrite map_app, <-parts_replace. f_equal. by apply parts_sanitized.
Qed.

Lemma normpath_isabs root frags :
  OsPath.isabs (normpath root frags) = OsPath.isabs (rewritten_root root).
Proof.
  unfold normpath, rewritten_root. rewrite !isabs_replace. apply isabs_join.
  apply Forall_map, Forall_true. intros f. simpl. by apply count_replace_gone.
Qed.

Lemma endswith_replace s : Str.endswith "/" (Str.replace " " "_" s) = Str.endswith "/" s.
Proof.
  induction s as [|c s IH]; [done|]. simpl. rewrite IH.
  destruct s as [|c' s]; simpl; [|done].
  case_decide as E; [subst c; by rewrite !bool_decide_eq_false_2|done].
Qed.

Lemma join2_nonempty a b : b ≠ EmptyString → OsPath.join2 a b ≠ EmptyString.
Proof.
  intros Hb. unfold OsPath.join2. destruct (Str.startswith "/" b); [done|].
  destruct (_ || _); destruct a, b; done.
Qed.

Lemma join2_endswith a b :
  b ≠ EmptyString → Str.count "/" b = 0 → Str.endswith "/" (OsPath.join2 a b) = false.
Proof.
  intros Hne Hb. unfold OsPath.join2. rewrite startswith_count_0 by done.
  destruct (_ || _).
  - rewrite endswith_app_nonempty by done. by apply endswith_no_sep.
  - rewrite endswith_app_nonempty by done. simpl. destruct b; [done|].
    by apply (endswith_no_sep _ (String _ _)).
Qed.

Lemma replace_slash_ordinary l :
  ordinary (sanitize l) →
  Str.replace "/" "-" l ≠ EmptyString ∧ Str.count "/" (Str.replace "/" "-" l) = 0.
Proof.
  intros (Hne & _). split; [|by apply count_replace_gone].
  intros E. apply Hne. by rewrite sanitize_replace, E.
Qed.

Lemma normpath_snoc_nonempty root frags l :
  ordinary (sanitize l) → normpath root (frags ++ [l]) ≠ EmptyString.
Proof.
  intros Hl. rewrite normpath_snoc. rewrite replace_empty_iff.
  apply join2_nonempty. by apply replace_slash_ordinary.
Qed.

Lemma normpath_snoc_endswith root frags l :
  ordinary (sanitize l) → Str.endswith "/" (normpath root (frags ++ [l])) = false.
Proof.
  intros Hl. rewrite normpath_snoc, endswith_replace.
  by apply join2_endswith; apply replace_slash_ordinary.
Qed.

(** What the kernel resolves for a normalized path with at least one
    fragment. *)
Lemma normpath_kparts root frags l :
  Forall ordinary (map sanitize (frags ++ [l])) →
  Fs.kparts (normpath root (frags ++ [l]))
  = OsPath.parts (rewritten_root root) ++ map sanitize (frags ++ [l]).
Proof.
  intros Hord. unfold Fs.kparts. rewrite normpath_parts by done.
  rewrite normpath_snoc_endswith; [by rewrite app_nil_r|].
  rewrite map_app in Hord. apply Forall_app in Hord as [_ Hl].
  simpl in Hl. by apply Forall_cons in Hl as [? _].
Qed.

Lemma replace_absent a b s : Str.count a s = 0 → Str.replace a b s = s.
Proof.
  induction s as [|c s IH]; simpl; [done|].
  case_decide; [lia|]. intros Hs. by rewrite IH.
Qed.

Lemma join2_app a x ext :
  Str.count "/" x = 0 → Str.count "/" ext = 0 →
  OsPath.join2 a (x +:+ ext) = OsPath.join2 a x +:+ ext.
Proof.
  intros Hx He. unfold OsPath.join2.
  rewrite !startswith_count_0 by (rewrite ?count_app; lia).
  destruct (_ || _); [by rewrite str_app_assoc|].
  by rewrite str_app_assoc, str_app_cons.
Qed.

(** An extension without slash or space can be added before or after
    normalization. *)
Lemma normpath_ext root frags l ext :
  Str.count "/" ext = 0 → Str.count " " ext = 0 →
  normpath root (frags ++ [l]) +:+ ext = normpath root (frags ++ [l +:+ ext]).
Proof.
  intros H1 H2. rewrite !normpath_snoc.
  rewrite (replace_app _ _ l ext), (replace_absent "/" "-" ext) by done.
  rewrite join2_app by (done || by apply count_replace_gone).
  by rewrite replace_app, (replace_absent " " "_" ext).
Qed.

(** ** Path resolution *)
Section Walk.
Implicit Types (fs : gmap path node) (cur q : path) (l : list string) (c : string).

Lemma walk_ordinary fs cur c rest :
    ordinary c →
    Fs.walk fs cur (c :: rest) =
    match fs !! (cur ++ [c]) with
    | None => match rest with [] => Fs.Absent (cur ++ [c]) | _ => Fs.Err ENOENT end
    | Some Dir => Fs.walk fs (cur ++ [c]) rest
    | Some (File d) =>
        match rest with [] => Fs.Found (cur ++ [c]) (File d) | _ => Fs.Err ENOTDIR end
    | Some (Link t) =>
        match rest with [] => Fs.Found (cur ++ [c]) (Link t) | _ => Fs.Unknown end
    end.
  Proof. intros (_ & H1 & H2 & _). simpl. by rewrite !decide_False. Qed.

Lemma walk_app fs cur l1 l2 q :
    Fs.walk fs cur l1 = Fs.Found q Dir → Fs.walk fs cur (l1 ++ l2) = Fs.walk fs q l2.
  Proof.
    revert cur. induction l1 as [|c l1 IH]; intros cur H; simpl in *.
    - by injection H as <-.
    - case_decide; [by apply IH|]. case_decide; [by apply IH|].
      destruct (fs !! (cur ++ [c])) as [[|d|t]|] eqn:E.
      + by apply IH.
      + by destruct l1.
      + by destruct l1.
      + by destruct l1.
  Qed.

Lemma walk_snoc_dir fs cur l c :
    ordinary c → Fs.walk fs cur l = Fs.Found (cur ++ l) Dir →
    fs !! (cur ++ l ++ [c]) = Some Dir →
    Fs.walk fs cur (l ++ [c]) = Fs.Found (cur ++ l ++ [c]) Dir.
  Proof.
    intros Hc Hl Hd. rewrite (walk_app _ _ _ _ _ Hl), walk_ordinary by done.
    by rewrite <-app_assoc, Hd.
  Qed.

Lemma walk_snoc_absent fs cur l c :
    ordinary c → Fs.walk fs cur l = Fs.Found (cur ++ l) Dir →
    fs !! (cur ++ l ++ [c]) = None →
    Fs.walk fs cur (l ++ [c]) = Fs.Absent (cur ++ l ++ [c]).
  Proof.
    intros Hc Hl Hd. rewrite (walk_app _ _ _ _ _ Hl), walk_ordinary by done.
    by rewrite <-app_assoc, Hd.
  Qed.

  (** Going up as many times as one went down. *)
Lemma parent_snoc cur c : Fs.parent (cur ++ [c]) = cur.
  Proof. unfold Fs.parent. apply removelast_last. Qed.

Lemma walk_up fs cur l rest :
    Fs.walk fs (cur ++ l) (replicate (length l) Fs.dotdot ++ rest) = Fs.walk fs cur rest.
  Proof.
    induction l as [|c l IH] using rev_ind; simpl.
    - by rewrite app_nil_r.
    - rewrite length_app. simpl. rewrite Nat.add_1_r. simpl.
      rewrite app_assoc, parent_snoc. apply IH.
  Qed.

  (** Without [..], a walk ends below where it starts, and only looks at
      what lies on its way. *)
Lemma walk_prefix fs cur l q n :
    Forall (λ c, c ≠ Fs.dotdot) l → Fs.walk fs cur l = Fs.Found q n → cur `prefix_of` q.
  Proof.
    intros Hl. revert cur. induction Hl as [|c l Hc _ IH]; intros cur H; simpl in *.
    - by injection H as <- _.
    - case_decide; [by apply IH|]. rewrite decide_False in H by done.
      destruct (fs !! (cur ++ [c])) as [[|d|t]|] eqn:E.
      + etrans; [|by apply IH]. by apply prefix_app_r.
      + destruct l; [|done]. injection H as <- _. by apply prefix_app_r.
      + destruct l; [|done]. injection H as <- _. by apply prefix_app_r.
      + by destruct l.
  Qed.

Lemma walk_agree fs fs' cur l q :
    Forall (λ c, c ≠ Fs.dotdot) l →
    (∀ k, k `prefix_of` q → fs !! k = Some Dir → fs' !! k = Some Dir) →
    Fs.walk fs cur l = Fs.Found q Dir → Fs.walk fs' cur l = Fs.Found q Dir.
  Proof.
    intros Hl Hag. revert cur. induction Hl as [|c l Hc Hl IH]; intros cur H; simpl in *.
    - done.
    - case_decide; [by apply IH|]. rewrite decide_False in H |- * by done.
      destruct (fs !! (cur ++ [c])) as [[|d|t]|] eqn:E.
      + rewrite (Hag (cur ++ [c])); [by apply IH| |done].
        by eapply walk_prefix.
      + by destruct l.
      + by destruct l.
      + by destruct l.
  Qed.

Lemma follow_not_link n fs q nd :
    (∀ t, nd ≠ Link t) → Fs.follow n fs (Fs.Found q nd) = Fs.Found q nd.
  Proof. intros H. destruct n, nd; try done; by destruct (H target). Qed.

Lemma follow_absent n fs q : Fs.follow n fs (Fs.Absent q) = Fs.Absent q.
  Proof. by destruct n. Qed.

Lemma follow_err n fs e : Fs.follow n fs (Fs.Err e) = Fs.Err e.
  Proof. by destruct n. Qed.

Lemma follow_unknown n fs : Fs.follow n fs Fs.Unknown = Fs.Unknown.
  Proof. by destruct n. Qed.
End Walk.

Lemma root_at_agree root w w' R :
  w_cwd w' = w_cwd w →
  (∀ k, k `prefix_of` R → w_fs w !! k = Some Dir → w_fs w' !! k = Some Dir) →
  root_at root w R → root_at root w' R.
Proof.
  intros Hcwd Hag [Hup Hw]. split; [done|].
  unfold Fs.start_dir in *. rewrite Hcwd. by eapply walk_agree.
Qed.

Lemma root_at_grows root w w' R :
  w_cwd w' = w_cwd w → grows (w_fs w) (w_fs w') → root_at root w R → root_at root w' R.
Proof. intros Hcwd Hg. apply root_at_agree; [done|]. intros k _. apply Hg. Qed.

(** What [lstat] and [stat] do on a normalized path. *)
Lemma lstat_normpath root w R frags l :
  root_at root w R → Forall ordinary (map sanitize (frags ++ [l])) →
  Fs.lstat w (normpath root (frags ++ [l]))
  = Fs.walk (w_fs w) R (map sanitize (frags ++ [l])).
Proof.
  intros [_ Hroot] Hord. unfold Fs.lstat.
  rewrite decide_False.
  2:{ apply normpath_snoc_nonempty. rewrite map_app in Hord.
      apply Forall_app in Hord as [_ Hl]. simpl in Hl. by apply Forall_cons in Hl as [? _]. }
  rewrite normpath_kparts by done.
  unfold Fs.start_dir in *. rewrite normpath_isabs. by apply walk_app.
Qed.

Lemma stat_normpath root w R frags l :
  root_at root w R → Forall ordinary (map sanitize (frags ++ [l])) →
  Fs.stat w (normpath root (frags ++ [l]))
  = Fs.follow Fs.MAXSYMLINKS (w_fs w) (Fs.walk (w_fs w) R (map sanitize (frags ++ [l]))).
Proof. intros. unfold Fs.stat. by erewrite lstat_normpath. Qed.

(** ** Writing a card *)

Lemma follow_never_link n fs r q t : Fs.follow n fs r ≠ Fs.Found q (Link t).
Proof.
  revert r. induction n as [|n IH]; intros [p [|d|t']| | |]; simpl; try done.
  case_decide; [done|]. apply IH.
Qed.

Lemma stat_never_link w s q t : Fs.stat w s ≠ Fs.Found q (Link t).
Proof. apply follow_never_link. Qed.

Lemma parts_nonempty s x : x ∈ OsPath.parts s → x ≠ EmptyString.
Proof. unfold OsPath.parts. rewrite list_elem_of_filter. by intros [? _]. Qed.

Lemma split_no_slash s x : x ∈ Str.split "/" s → Str.count "/" x = 0.
Proof.
  revert x. induction s as [|c s IH]; intros x; simpl.
  - rewrite elem_of_cons, elem_of_nil. by intros [->|[]].
  - case_decide as E.
    + rewrite elem_of_cons. intros [->|Hx]; [done|by apply IH].
    + destruct (Str.split "/" s) as [|y ys] eqn:Es; [by destruct (split_not_nil "/" s)|].
      rewrite elem_of_cons. intros [->|Hx].
      * simpl. rewrite decide_False by done. apply IH. left.
      * apply IH. by right.
Qed.

Lemma parts_no_slash s x : x ∈ OsPath.parts s → Str.count "/" x = 0.
Proof.
  unfold OsPath.parts. rewrite list_elem_of_filter. intros [_ Hx]. by eapply split_no_slash.
Qed.

Lemma join_nonempty a l :
  a ≠ EmptyString → Forall (λ b, b ≠ EmptyString) l → OsPath.join a l ≠ EmptyString.
Proof.
  intros Ha Hl. revert a Ha. induction Hl as [|b l Hb _ IH]; intros a Ha; [done|].
  simpl. apply IH. by apply join2_nonempty.
Qed.

Lemma relpath_none cwd path start :
  OsPath.relpath cwd path start = None ↔ path = EmptyString.
Proof.
  unfold OsPath.relpath. case_bool_decide; [done|].
  split; [|done]. by destruct (_ ++ _).
Qed.

Lemma relpath_nonempty cwd path start r :
  OsPath.relpath cwd path start = Some r → r ≠ EmptyString.
Proof.
  unfold OsPath.relpath. case_bool_decide; [done|].
  set (sl := OsPath.parts (OsPath.abspath cwd start)).
  set (pl := OsPath.parts (OsPath.abspath cwd path)).
  set (i := length (OsPath.commonprefix sl pl)).
  assert (Forall (λ b, b ≠ EmptyString)
            (replicate (length sl - i) Fs.dotdot ++ drop i pl)) as Hall.
  { apply Forall_app. split.
    - apply Forall_forall. intros x [-> _]%elem_of_replicate. done.
    - apply Forall_forall. intros x Hx%subseteq_drop. by eapply parts_nonempty. }
  change (String "." (String "." EmptyString)) with Fs.dotdot.
  destruct (_ ++ _) as [|x rest]; [by intros [= <-]|].
  apply Forall_cons in Hall as [Hx Hrest]. intros [= <-]. by apply join_nonempty.
Qed.

Lemma open_write_unfold s data w :
  Fs.open_write s data w =
  match Fs.stat w s with
  | Fs.Found q (File _) | Fs.Absent q => Ret () (written q data w)
  | Fs.Found _ Dir => Raise (IOError EISDIR) w
  | Fs.Found _ (Link _) => Raise (IOError ELOOP) w
  | Fs.Err e => Raise (IOError e) w
  | Fs.Unknown => Outside (w_log w)
  end.
Proof. done. Qed.

Lemma symlink_unfold target s w :
  target ≠ EmptyString →
  Fs.symlink target s w =
  match Fs.lstat w s with
  | Fs.Absent q => Ret () (linked q target w)
  | Fs.Found _ _ => Raise (OSError EEXIST) w
  | Fs.Err e => Raise (OSError e) w
  | Fs.Unknown => Outside (w_log w)
  end.
Proof. intros H. unfold Fs.symlink. by rewrite decide_False. Qed.

Lemma write_card_unfold blob link data w :
  write_card blob link data w =
  match OsPath.relpath (Fs.getcwd w) blob (OsPath.dirname link) with
  | None => Raise ValueError w
  | Some r => (Fs.open_write blob data ;; Fs.symlink r link) w
  end.
Proof. unfold write_card. rewrite bind_unfold. simpl. by destruct (OsPath.relpath _ _ _). Qed.

(** The outcomes of [write_card] on a blob that can be written. *)
Lemma write_card_writable blob link data w q r :
  OsPath.relpath (Fs.getcwd w) blob (OsPath.dirname link) = Some r →
  can_write w blob q →
  write_card blob link data w =
  match Fs.lstat (written q data w) link with
  | Fs.Absent p => Ret () (linked p r (written q data w))
  | Fs.Found _ _ => Raise (OSError EEXIST) (written q data w)
  | Fs.Err e => Raise (OSError e) (written q data w)
  | Fs.Unknown => Outside (w_log w)
  end.
Proof.
  intros Hr Hq. rewrite write_card_unfold, Hr, bind_unfold, open_write_unfold.
  assert (Fs.symlink r link (written q data w) = _) as Hs
    by (apply symlink_unfold; by eapply relpath_nonempty).
  destruct Hq as [Hq|[d Hq]]; rewrite Hq; by rewrite Hs.
Qed.

Lemma write_card_ret blob link data w w' :
  write_card blob link data w = Ret () w' ↔
  ∃ q p r, OsPath.relpath (Fs.getcwd w) blob (OsPath.dirname link) = Some r
           ∧ can_write w blob q
           ∧ Fs.lstat (written q data w) link = Fs.Absent p
           ∧ w' = linked p r (written q data w).
Proof.
  split.
  - rewrite write_card_unfold.
    destruct (OsPath.relpath _ _ _) as [r|] eqn:Hr; [|done].
    rewrite bind_unfold, open_write_unfold.
    assert (∀ w1, Fs.symlink r link w1 = _) as Hs
      by (intros w1; apply symlink_unfold; by eapply relpath_nonempty).
    destruct (Fs.stat w blob) as [q [|d|t]| q | e |] eqn:Hst; try done.
    + rewrite Hs. destruct (Fs.lstat _ link) as [| p | |] eqn:Hl; try done.
      intros [= <-]. exists q, p, r. unfold can_write. eauto 10.
    + rewrite Hs. destruct (Fs.lstat _ link) as [| p | |] eqn:Hl; try done.
      intros [= <-]. exists q, p, r. unfold can_write. eauto 10.
  - intros (q & p & r & Hr & Hq & Hl & ->).
    by rewrite (write_card_writable _ _ _ _ _ _ Hr Hq), Hl.
Qed.

Lemma write_card_raise blob link data w e w' :
  write_card blob link data w = Raise e w' ↔
    (blob = EmptyString ∧ e = ValueError ∧ w' = w)
  ∨ (blob ≠ EmptyString ∧ w' = w ∧ ∃ er, e = IOError er ∧ open_refused w blob er)
  ∨ (blob ≠ EmptyString ∧
     ∃ q er, can_write w blob q ∧ w' = written q data w
             ∧ e = OSError er ∧ link_refused w' link er).
Proof.
  rewrite write_card_unfold.
  destruct (OsPath.relpath _ _ _) as [r|] eqn:Hr.
  - assert (blob ≠ EmptyString) as Hne.
    { intros Hb. eapply relpath_none in Hb. by rewrite Hb in Hr. }
    rewrite bind_unfold, open_write_unfold.
    assert (∀ w1, Fs.symlink r link w1 = _) as Hs
      by (intros w1; apply symlink_unfold; by eapply relpath_nonempty).
    unfold open_refused, link_refused, can_write.
    destruct (Fs.stat w blob) as [q [|d|t]| q | er |] eqn:Hst.
    + split.
      * intros [= <- <-]. right; left. eauto 10.
      * intros [(? & _)|[(_ & -> & er & -> & [?|[-> _]])|(_ & q' & er & [?|[? ?]] & _)]];
          done.
    + rewrite Hs. split.
      * destruct (Fs.lstat _ link) as [p n| p | er |] eqn:Hl; try done.
        -- intros [= <- <-]. right; right. split; [done|]. exists q, EEXIST. eauto 10.
        -- intros [= <- <-]. right; right. split; [done|]. exists q, er. eauto 10.
      * intros [(? & _)|[(_ & -> & er & -> & [?|[-> [? ?]]])|
                         (_ & q' & er & Hq & -> & -> & Hl)]]; try done.
        assert (q' = q) as -> by (by destruct Hq as [?|[? ?]]; simplify_eq).
        destruct Hl as [->|[-> (p & n & ->)]]; done.
    + by destruct (stat_never_link w blob q t).
    + rewrite Hs. split.
      * destruct (Fs.lstat _ link) as [p n| p | er |] eqn:Hl; try done.
        -- intros [= <- <-]. right; right. split; [done|]. exists q, EEXIST. eauto 10.
        -- intros [= <- <-]. right; right. split; [done|]. exists q, er. eauto 10.
      * intros [(? & _)|[(_ & -> & er & -> & [?|[-> [? ?]]])|
                         (_ & q' & er & Hq & -> & -> & Hl)]]; try done.
        assert (q' = q) as -> by (by destruct Hq as [?|[? ?]]; simplify_eq).
        destruct Hl as [->|[-> (p & n & ->)]]; done.
    + split.
      * intros [= <- <-]. right; left. eauto 10.
      * intros [(? & _)|[(_ & -> & er' & -> & [?|[-> [? ?]]])|
                         (_ & q' & er' & [?|[? ?]] & _)]]; try done. by simplify_eq.
    + split; [done|].
      intros [(? & _)|[(_ & -> & er' & -> & [?|[-> [? ?]]])|
                       (_ & q' & er' & [?|[? ?]] & _)]]; done.
  - apply relpath_none in Hr as ->. split.
    + intros [= <- <-]. by left.
    + intros [(_ & -> & ->)|[(? & _)|(? & _)]]; done.
Qed.

(** X1.  [write_card] returns exactly when the blob path is not
    empty, the blob can be opened for writing (it names a regular file or
    nothing, in an existing directory) and, the payload once written, the
    link path names nothing in an existing directory; the file system then
    holds the payload at the blob and, at the link path, a symbolic link whose
    target is the path of the blob relative to the directory of the link.
    It raises exactly in three cases: [ValueError] for an empty blob path,
    nothing being written; [IOError] when [open] refuses the blob path,
    nothing being written; [OSError] when [symlink] refuses the link path (a
    directory on the way missing or not a directory, or any entry already
    there), the blob being already written. *)
Theorem write_card_exact (blob link data : string) (w : world) :
  (∀ w', write_card blob link data w = Ret () w' ↔
     ∃ q p r, OsPath.relpath (Fs.getcwd w) blob (OsPath.dirname link) = Some r
              ∧ can_write w blob q
              ∧ Fs.lstat (written q data w) link = Fs.Absent p
              ∧ w' = linked p r (written q data w))
  ∧ (∀ e w', write_card blob link data w = Raise e w' ↔
         (blob = EmptyString ∧ e = ValueError ∧ w' = w)
       ∨ (blob ≠ EmptyString ∧ w' = w ∧ ∃ er, e = IOError er ∧ open_refused w blob er)
       ∨ (blob ≠ EmptyString ∧
          ∃ q er, can_write w blob q ∧ w' = written q data w
                  ∧ e = OSError er ∧ link_refused w' link er)).
Proof.
  split; [intros w'; apply write_card_ret | intros e w'; apply write_card_raise].
Qed.

Lemma write_card_exact_witness :
  write_card Example.blob_yaml Example.link_yaml "yaml" Example.w1
  = Ret () (linked ["home"; "u"; "results"; "current"; "b_B"; "l_L"; "1_x_y.yaml"]
              "../../../raw_tickets/abc.yaml"
              (written ["home"; "u"; "results"; "raw_tickets"; "abc.yaml"] "yaml"
Example.w1)).
Proof.
  apply (proj1 (write_card_exact Example.blob_yaml Example.link_yaml "yaml" Example.w1)).
  exists ["home"; "u"; "results"; "raw_tickets"; "abc.yaml"],
         ["home"; "u"; "results"; "current"; "b_B"; "l_L"; "1_x_y.yaml"],
         "../../../raw_tickets/abc.yaml".
  split; [by vm_compute|]. split; [left; by vm_compute|]. split; [by vm_compute|done].
Defined.

(** ** Creating and removing directories *)

Lemma ordinary_not_dotdot l : Forall ordinary l → Forall (λ c, c ≠ Fs.dotdot) l.
Proof. intros H. eapply Forall_impl; [done|]. by intros c (_ & _ & ? & _). Qed.

Lemma walk_found_at fs cur comps q n :
  Forall ordinary comps → Fs.walk fs cur comps = Fs.Found q n → q = cur ++ comps.
Proof.
  intros Hc. revert cur. induction Hc as [|c l Hc _ IH]; intros cur.
  - simpl. intros [= <- _]. by rewrite app_nil_r.
  - rewrite walk_ordinary by done.
    destruct (fs !! (cur ++ [c])) as [[|d|t]|] eqn:E.
    + intros H%IH. by rewrite <-app_assoc in H.
    + destruct l; [|done]. by intros [= <- _].
    + destruct l; [|done]. by intros [= <- _].
    + by destruct l.
Qed.

Lemma walk_absent_at fs cur comps q :
  Forall ordinary comps → Fs.walk fs cur comps = Fs.Absent q →
  q = cur ++ comps ∧ fs !! q = None.
Proof.
  intros Hc. revert cur. induction Hc as [|c l Hc _ IH]; intros cur; [done|].
  rewrite walk_ordinary by done.
  destruct (fs !! (cur ++ [c])) as [[|d|t]|] eqn:E.
  - intros H%IH. by rewrite <-app_assoc in H.
  - by destruct l.
  - by destruct l.
  - destruct l; [|done]. by intros [= <-].
Qed.

(** The directories on the way to a directory are directories. *)
Lemma walk_found_init fs cur l1 l2 q n :
  Forall ordinary (l1 ++ l2) → Fs.walk fs cur (l1 ++ l2) = Fs.Found q n →
  Fs.walk fs cur l1 = Fs.Found (cur ++ l1) Dir ∨ l2 = [].
Proof.
  revert cur. induction l1 as [|c l1 IH]; intros cur Hc H.
  - left. simpl. by rewrite app_nil_r.
  - simpl in Hc. apply Forall_cons in Hc as [Hc Hl].
    change ((c :: l1) ++ l2) with (c :: (l1 ++ l2)) in H.
    rewrite walk_ordinary in H |- * by done.
    destruct (fs !! (cur ++ [c])) as [[|d|t]|] eqn:E.
    + destruct (IH _ Hl H) as [H1|H1]; [left|by right]. by rewrite H1, <-app_assoc.
    + destruct (l1 ++ l2) eqn:El; [|done]. apply app_eq_nil in El as [_ ->]. by right.
    + destruct (l1 ++ l2) eqn:El; [|done]. apply app_eq_nil in El as [_ ->]. by right.
    + by destruct (l1 ++ l2).
Qed.

Lemma walk_free fs cur need :
  Forall ordinary need → free_from fs cur need →
  (∃ q, Fs.walk fs cur need = Fs.Absent q) ∨ Fs.walk fs cur need = Fs.Err ENOENT.
Proof.
  intros Hc [Hne Hfree]. destruct Hc as [|c l Hc _]; [done|].
  rewrite walk_ordinary by done. specialize (Hfree []). simpl in Hfree.
  rewrite Hfree. destruct l; eauto.
Qed.

Section AddDirs.
Implicit Types (fs : gmap path node) (base : path) (new : list string).

Lemma add_dirs_snoc fs base new c :
    add_dirs fs base (new ++ [c]) = <[base ++ new ++ [c] := Dir]> (add_dirs fs base new).
  Proof.
    revert fs base. induction new as [|x new IH]; intros fs base; simpl; [done|].
    rewrite IH. f_equal. by rewrite <-app_assoc.
  Qed.

Lemma grows_add_dirs fs base new : grows fs (add_dirs fs base new).
  Proof.
    induction new as [|c new IH] using rev_ind; [by intros k|].
    rewrite add_dirs_snoc. intros k Hk. destruct (decide (base ++ new ++ [c] = k)) as [<-|Hne].
    - by rewrite lookup_insert_eq.
    - rewrite lookup_insert_ne by done. by apply IH.
  Qed.

Lemma lookup_add_dirs_other fs base new k :
    (∀ i, 0 < i ≤ length new → k ≠ base ++ take i new) →
    add_dirs fs base new !! k = fs !! k.
  Proof.
    induction new as [|c new IH] using rev_ind; [done|].
    intros Hk. rewrite add_dirs_snoc, lookup_insert_ne.
    - apply IH. intros i Hi. specialize (Hk i). rewrite length_app in Hk. simpl in Hk.
      rewrite take_app_le in Hk by lia. apply Hk. lia.
    - intros <-. apply (Hk (length (new ++ [c]))).
      + rewrite length_app. simpl. lia.
      + by rewrite firstn_all.
  Qed.

Lemma walk_add_dirs fs base new :
    Forall ordinary new →
    Fs.walk (add_dirs fs base new) base new = Fs.Found (base ++ new) Dir.
  Proof.
    induction new as [|c new IH] using rev_ind; intros Hc.
    - simpl. by rewrite app_nil_r.
    - apply Forall_app in Hc as [Hnew Hc]. apply Forall_cons in Hc as [Hc _].
      rewrite add_dirs_snoc. apply walk_snoc_dir; [done| |by rewrite lookup_insert_eq].
      eapply walk_agree; [by apply ordinary_not_dotdot| |by apply IH].
      intros k _ Hk. destruct (decide (base ++ new ++ [c] = k)) as [<-|Hne].
      + by rewrite lookup_insert_eq.
      + by rewrite lookup_insert_ne.
  Qed.
End AddDirs.

Lemma exists_at_found start comps w q n :
  Fs.walk (w_fs w) start comps = Fs.Found q n → (∀ t, n ≠ Link t) →
  Fs.exists_at start comps w = Ret true w.
Proof. intros H Hn. unfold Fs.exists_at. by rewrite H, follow_not_link. Qed.

Lemma exists_at_free start comps w :
  (∃ q, Fs.walk (w_fs w) start comps = Fs.Absent q)
  ∨ Fs.walk (w_fs w) start comps = Fs.Err ENOENT →
  Fs.exists_at start comps w = Ret false w.
Proof.
  intros [[q H]|H]; unfold Fs.exists_at; by rewrite H, ?follow_absent, ?follow_err.
Qed.

Lemma mkdir_at_absent start comps w q :
  Fs.walk (w_fs w) start comps = Fs.Absent q →
  Fs.mkdir_at start comps w = Ret () (set_fs (<[q := Dir]> (w_fs w)) w).
Proof. intros H. unfold Fs.mkdir_at. by rewrite H. Qed.

(** [os.makedirs] on a path that is free from some point on: the missing
    directories are created, the outermost first. *)
Lemma makedirs_go_chain start abs P R have need w :
  Forall (λ c, c ≠ Fs.dotdot) P →
  Fs.walk (w_fs w) start P = Fs.Found R Dir →
  Forall ordinary (have ++ need) →
  Fs.walk (w_fs w) R have = Fs.Found (R ++ have) Dir →
  free_from (w_fs w) (R ++ have) need →
  Fs.makedirs_go start abs (reverse (P ++ have ++ need)) w
  = Ret () (set_fs (add_dirs (w_fs w) (R ++ have) need) w).
Proof.
  intros HP Hroot Hord Hhave. induction need as [|t need' IH] using rev_ind.
  { by intros [? _]. }
  intros [_ Hfree].
  apply Forall_app in Hord as [Hoh Hon]. apply Forall_app in Hon as [Hon' Ht].
  apply Forall_cons in Ht as [Ht _].
  assert (Fs.walk (w_fs w) start (P ++ have) = Fs.Found (R ++ have) Dir) as Hwh.
  { by rewrite (walk_app _ _ _ _ _ Hroot). }
  rewrite !app_assoc, reverse_snoc, <-!app_assoc. simpl.
  destruct (decide (need' = [])) as [->|Hne'].
  - (* the head exists *)
    rewrite app_nil_r in *.
    assert (Fs.mkdir_at start (reverse (t :: reverse (P ++ have))) w
            = Ret () (set_fs (<[(R ++ have) ++ [t] := Dir]> (w_fs w)) w)) as Hmk.
    { apply mkdir_at_absent. rewrite reverse_cons, reverse_involutive.
      rewrite <-app_assoc, (walk_app _ _ _ _ _ Hroot).
      rewrite (walk_app _ _ _ _ _ Hhave), walk_ordinary by done.
      specialize (Hfree []). simpl in Hfree. by rewrite Hfree. }
    rewrite bind_unfold. destruct (negb abs && _).
    + simpl. by rewrite Hmk.
    + rewrite reverse_involutive, (exists_at_found _ _ _ _ _ Hwh) by done. by rewrite Hmk.
  - (* the head is missing: it is created first *)
    assert (take 1 (need' ++ [t]) = take 1 need') as Htake by (by destruct need').
    rewrite Htake in Hfree.
    assert (free_from (w_fs w) (R ++ have) need') as Hfree' by done.
    specialize (IH ltac:(by apply Forall_app) Hfree').
    rewrite bind_unfold.
    rewrite bool_decide_eq_false_2, andb_false_r.
    2:{ intros Hr%(f_equal reverse). rewrite reverse_involutive in Hr.
        apply app_eq_nil in Hr as [_ Hr]. by apply app_eq_nil in Hr as [_ Hr]. }
    rewrite reverse_involutive.
    rewrite exists_at_free.
    2:{ rewrite (walk_app _ _ _ _ _ Hroot), (walk_app _ _ _ _ _ Hhave).
        by apply walk_free. }
    rewrite bind_unfold. unfold ignoring_eexist at 1. rewrite IH.
    rewrite decide_False by (by destruct Ht as (_ & ? & _)).
    set (fs1 := add_dirs (w_fs w) (R ++ have) need').
    rewrite (mkdir_at_absent _ _ _ (R ++ have ++ need' ++ [t])).
    + simpl. by rewrite add_dirs_snoc, <-!app_assoc.
    + simpl. rewrite reverse_cons, reverse_involutive.
      assert (Fs.walk fs1 start P = Fs.Found R Dir) as Hroot1.
      { eapply walk_agree; [done| |done]. intros k _. apply grows_add_dirs. }
      assert (Fs.walk fs1 R have = Fs.Found (R ++ have) Dir) as Hhave1.
      { eapply walk_agree; [by apply ordinary_not_dotdot| |done].
        intros k _. apply grows_add_dirs. }
      rewrite <-!app_assoc, (walk_app _ _ _ _ _ Hroot1), (walk_app _ _ _ _ _ Hhave1).
      pose proof (walk_add_dirs (w_fs w) (R ++ have) need' Hon') as Hneed1.
      rewrite (walk_app _ _ _ _ _ Hneed1), walk_ordinary by done.
      rewrite <-!app_assoc. unfold fs1. rewrite lookup_add_dirs_other.
      * destruct need' as [|c need'']; [done|]. simpl in Hfree.
        specialize (Hfree (need'' ++ [t])). rewrite <-app_assoc in Hfree.
        simpl in Hfree |- *. by rewrite Hfree.
      * intros i Hi Heq. rewrite <-!app_assoc in Heq.
        do 2 apply app_inv_head in Heq.
        apply (f_equal length) in Heq. rewrite length_app, length_take in Heq.
        simpl in Heq. lia.
Qed.

(** ** [mkdir] and [wipe_dir] below the result directory *)

Lemma lookup_filter_keep (fs : gmap path node) (q k : path) :
  ¬ q `prefix_of` k → filter (λ kv : path * node, ¬ q `prefix_of` kv.1) fs !! k = fs !! k.
Proof.
  intros Hk. apply option_eq. intros n. rewrite map_lookup_filter_Some.
  split; [by intros [? _]|by intros ?].
Qed.

Lemma lookup_filter_drop (fs : gmap path node) (q k : path) :
  q `prefix_of` k → filter (λ kv : path * node, ¬ q `prefix_of` kv.1) fs !! k = None.
Proof.
  intros Hk. apply eq_None_not_Some. intros [n Hn].
  apply map_lookup_filter_Some in Hn as [_ Hn]. by apply Hn.
Qed.

Lemma prefix_app_longer {A} (l k : list A) (x : A) (l' : list A) :
  ¬ (l ++ x :: l') `prefix_of` k ∨ ¬ k `prefix_of` l.
Proof.
  destruct (decide (length k ≤ length l)) as [Hle|Hgt].
  - left. intros H%prefix_length. rewrite length_app in H. simpl in H. lia.
  - right. intros H%prefix_length. lia.
Qed.

Lemma not_prefix_of_shorter {A} (l k : list A) (x : A) (l' : list A) :
  k `prefix_of` l → ¬ (l ++ x :: l') `prefix_of` k.
Proof. intros Hk. by destruct (prefix_app_longer l k x l'). Qed.

Lemma root_at_same root w w' R :
  w_fs w' = w_fs w → w_cwd w' = w_cwd w → root_at root w R → root_at root w' R.
Proof. intros Hfs Hcwd. apply root_at_agree; [done|]. intros k _. by rewrite Hfs. Qed.

Section Below.
Variables (root : string) (w : world) (R : path) (frags : list string) (l : string).
Hypothesis Hroot : root_at root w R.
Hypothesis Hord : Forall ordinary (map sanitize (frags ++ [l])).

#[local] Abbreviation full := (normpath root (frags ++ [l])).
#[local] Abbreviation comps := (map sanitize (frags ++ [l])).

Lemma exists_normpath :
    Fs.exists_ full w =
    match Fs.follow Fs.MAXSYMLINKS (w_fs w) (Fs.walk (w_fs w) R comps) with
    | Fs.Found _ _ => Ret true w
    | Fs.Absent _ | Fs.Err _ => Ret false w
    | Fs.Unknown => Outside (w_log w)
    end.
  Proof. unfold Fs.exists_. by rewrite (stat_normpath _ _ R). Qed.

Lemma exists_normpath_found q n :
    Fs.walk (w_fs w) R comps = Fs.Found q n → (∀ t, n ≠ Link t) →
    Fs.exists_ full w = Ret true w.
  Proof. intros H Hn. by rewrite exists_normpath, H, follow_not_link. Qed.

Lemma exists_normpath_free have need :
    comps = have ++ need → Fs.walk (w_fs w) R have = Fs.Found (R ++ have) Dir →
    free_from (w_fs w) (R ++ have) need →
    Fs.exists_ full w = Ret false w.
  Proof.
    intros Hc Hhave Hfree. rewrite exists_normpath, Hc, (walk_app _ _ _ _ _ Hhave).
    pose proof Hord as Hneed. rewrite Hc in Hneed. apply Forall_app in Hneed as [_ Hneed].
    destruct (walk_free _ _ _ Hneed Hfree) as [[q ->]| ->];
      by rewrite ?follow_absent, ?follow_err.
  Qed.

Lemma mkdir_exists q n :
    Fs.walk (w_fs w) R comps = Fs.Found q n → (∀ t, n ≠ Link t) →
    mkdir root (frags ++ [l]) w = Ret () w.
  Proof.
    intros H Hn. unfold mkdir. rewrite bind_unfold.
    by rewrite (exists_normpath_found q n).
  Qed.

Lemma makedirs_normpath have need :
    comps = have ++ need → Fs.walk (w_fs w) R have = Fs.Found (R ++ have) Dir →
    free_from (w_fs w) (R ++ have) need →
    Fs.makedirs full w = Ret () (set_fs (add_dirs (w_fs w) (R ++ have) need) w).
  Proof.
    intros Hc Hhave Hfree. unfold Fs.makedirs. rewrite decide_False.
    2:{ apply normpath_snoc_nonempty. pose proof Hord as Hl. rewrite map_app in Hl.
        apply Forall_app in Hl as [_ Hl]. by apply Forall_cons in Hl as [? _]. }
    rewrite bind_unfold. simpl. rewrite normpath_parts by done.
    rewrite Hc. destruct Hroot as [Hup Hw].
    unfold Fs.start_dir in *. rewrite normpath_isabs.
    apply makedirs_go_chain; [done|done|by rewrite <-Hc|done|done].
  Qed.

Lemma mkdir_creates have need :
    comps = have ++ need → Fs.walk (w_fs w) R have = Fs.Found (R ++ have) Dir →
    free_from (w_fs w) (R ++ have) need →
    mkdir root (frags ++ [l]) w = Ret () (set_fs (add_dirs (w_fs w) (R ++ have) need) w).
  Proof.
    intros Hc Hhave Hfree. unfold mkdir. rewrite bind_unfold.
    rewrite (exists_normpath_free have need) by done.
    by apply makedirs_normpath.
  Qed.

Lemma rm_r_normpath :
    Fs.rm_r full w =
    match Fs.walk (w_fs w) R comps with
    | Fs.Found q _ =>
        Ret () (set_fs (filter (λ kv : path * node, ¬ q `prefix_of` kv.1) (w_fs w)) w)
    | Fs.Absent _ | Fs.Err _ => Ret () w
    | Fs.Unknown => Outside (w_log w)
    end.
  Proof.
    unfold Fs.rm_r. rewrite normpath_parts by done.
    rewrite (lstat_normpath _ _ R) by done.
    pose proof Hord as Hl. rewrite map_app in Hl.
    apply Forall_app in Hl as [_ Hl]. apply Forall_cons in Hl as [(_ & Hd & Hdd & _) _].
    rewrite map_app at 1. simpl. rewrite app_assoc, reverse_snoc.
    rewrite bool_decide_eq_false_2; [done|]. by intros [?|?].
  Qed.
End Below.

Lemma os_system_rm_r_plain p w :
  shell_plain p →
  os_system_rm_r p w = Fs.rm_r p (add_log (System ("rm -r " +:+ p)) w).
Proof.
  intros Hp. unfold os_system_rm_r. rewrite bind_unfold. simpl.
  unfold shell_plain in Hp. by rewrite Hp.
Qed.

Lemma wipe_dir_unfold root frags w :
  wipe_dir root frags w =
  (e ← Fs.exists_ (normpath root frags);
   (if e : bool then os_system_rm_r (normpath root frags) else mret ()) ;;
   mkdir root frags) (add_log (WipeDir frags) w).
Proof. unfold wipe_dir. by rewrite bind_unfold. Qed.

Section Wipe.
Variables (root : string) (w : world) (R : path) (frags : list string) (l : string).
Hypothesis Hroot : root_at root w R.
Hypothesis Hord : Forall ordinary (map sanitize (frags ++ [l])).

#[local] Abbreviation full := (normpath root (frags ++ [l])).
#[local] Abbreviation comps := (map sanitize (frags ++ [l])).
#[local] Abbreviation T := (R ++ map sanitize (frags ++ [l])).

  (** The directory is missing: it is made, with the missing directories
      on the way, and no command is run. *)
Lemma wipe_dir_missing have need :
    comps = have ++ need → Fs.walk (w_fs w) R have = Fs.Found (R ++ have) Dir →
    free_from (w_fs w) (R ++ have) need →
    wipe_dir root (frags ++ [l]) w
    = Ret () (set_fs (add_dirs (w_fs w) (R ++ have) need)
                (add_log (WipeDir (frags ++ [l])) w)).
  Proof.
    intros Hc Hhave Hfree. rewrite wipe_dir_unfold.
    set (w0 := add_log _ w).
    assert (root_at root w0 R) as Hroot0 by (by eapply root_at_same).
    rewrite bind_unfold, (exists_normpath_free root w0 R frags l Hroot0 Hord have need) by done.
    rewrite bind_unfold. simpl.
    by rewrite (mkdir_creates root w0 R frags l Hroot0 Hord have need).
  Qed.

  (** The directory is there and the command line is a plain word list of
      one word: the directory is removed with what it holds, and made
      again. *)
Lemma wipe_dir_existing n :
    shell_plain full →
    Fs.walk (w_fs w) R comps = Fs.Found T n → (∀ t, n ≠ Link t) →
    wipe_dir root (frags ++ [l]) w
    = Ret () (set_fs (<[T := Dir]>
                        (filter (λ kv : path * node, ¬ T `prefix_of` kv.1) (w_fs w)))
                (add_log (System ("rm -r " +:+ full))
                   (add_log (WipeDir (frags ++ [l])) w))).
  Proof.
    intros Hplain Hfound Hn. rewrite wipe_dir_unfold.
    set (w0 := add_log _ w).
    assert (root_at root w0 R) as Hroot0 by (by eapply root_at_same).
    rewrite bind_unfold, (exists_normpath_found root w0 R frags l Hroot0 Hord T n) by done.
    rewrite bind_unfold, os_system_rm_r_plain by done.
    set (w1 := add_log _ w0).
    assert (root_at root w1 R) as Hroot1 by (by eapply root_at_same).
    rewrite (rm_r_normpath root w1 R frags l Hroot1 Hord).
    change (w_fs w1) with (w_fs w). rewrite Hfound. simpl.
    set (fs2 := filter _ (w_fs w)). set (w2 := set_fs fs2 w1).
    pose proof Hord as Hord'. rewrite map_app in Hord'. simpl in Hord'.
    assert (∀ k, k `prefix_of` R ++ map sanitize frags →
                 w_fs w !! k = Some Dir → fs2 !! k = Some Dir) as Hkeep.
    { intros k Hk Hd. unfold fs2. rewrite lookup_filter_keep; [done|].
      rewrite map_app. simpl. rewrite app_assoc. by apply not_prefix_of_shorter. }
    assert (root_at root w2 R) as Hroot2.
    { eapply (root_at_agree _ w1); [done| |done].
      intros k Hk. apply Hkeep. by apply prefix_app_r. }
    rewrite (mkdir_creates root w2 R frags l Hroot2 Hord (map sanitize frags) [sanitize l]).
    - assert (T = (R ++ map sanitize frags) ++ [sanitize l]) as ->
        by (by rewrite (map_app sanitize frags [l]), app_assoc).
      done.
    - by rewrite (map_app sanitize frags [l]).
    - rewrite (map_app sanitize frags [l]) in Hfound.
      destruct (walk_found_init (w_fs w) R (map sanitize frags) [sanitize l] _ _ Hord' Hfound)
        as [Hh|?]; [|done].
      eapply walk_agree; [|exact Hkeep|exact Hh].
      apply Forall_app in Hord' as [Hf _]. by apply ordinary_not_dotdot.
    - split; [done|]. intros k. simpl. unfold w2, fs2. simpl.
      apply lookup_filter_drop. rewrite map_app. simpl.
      rewrite <-!app_assoc. simpl. do 2 apply prefix_app. by apply prefix_cons, prefix_nil.
  Qed.
End Wipe.

(** ** A command line the shell cannot read *)

Lemma os_system_rm_r_nothing p w :
  Sh.read_operand p = Sh.NothingRuns →
  os_system_rm_r p w = Ret () (add_log (System ("rm -r " +:+ p)) w).
Proof. intros Hp. unfold os_system_rm_r. rewrite bind_unfold. simpl. by rewrite Hp. Qed.

(** X8.  [wipe_dir] on an existing entry whose command line the shell
    cannot read (an unterminated quote: a syntax error, nothing runs): the
    call returns without error, [rm -r] having been asked for, and the file
    system is exactly as before; the directory keeps what it held. *)
Theorem wipe_dir_unreadable (root : string) (w : world) (R : path)
    (frags : list string) (l : string) (n : node) :
  root_at root w R → Forall ordinary (map sanitize (frags ++ [l])) →
  Sh.read_operand (normpath root (frags ++ [l])) = Sh.NothingRuns →
  Fs.walk (w_fs w) R (map sanitize (frags ++ [l]))
  = Fs.Found (R ++ map sanitize (frags ++ [l])) n →
  (∀ t, n ≠ Link t) →
  wipe_dir root (frags ++ [l]) w
  = Ret () (add_log (System ("rm -r " +:+ normpath root (frags ++ [l])))
              (add_log (WipeDir (frags ++ [l])) w)).
Proof.
  intros Hroot Hord Hsh Hfound Hn. rewrite wipe_dir_unfold.
  set (w0 := add_log _ w).
  assert (root_at root w0 R) as Hroot0 by (by eapply root_at_same).
  rewrite bind_unfold, (exists_normpath_found root w0 R frags l Hroot0 Hord
                          (R ++ map sanitize (frags ++ [l])) n) by done.
  rewrite bind_unfold, os_system_rm_r_nothing by done.
  set (w1 := add_log _ w0).
  assert (root_at root w1 R) as Hroot1 by (by eapply root_at_same).
  by rewrite (mkdir_exists root w1 R frags l Hroot1 Hord
                (R ++ map sanitize (frags ++ [l])) n).
Qed.

Lemma wipe_dir_unreadable_witness :
  wipe_dir Example.root ["current"; Example.quote_dirname] Example.w4
  = Ret () (add_log (System "rm -r results/current/b_Dev's")
              (add_log (WipeDir ["current"; Example.quote_dirname]) Example.w4)).
Proof.
  apply (wipe_dir_unreadable Example.root Example.w4 ["home"; "u"; "results"]
           ["current"] Example.quote_dirname Dir).
  - split; [|by vm_compute]. vm_compute. repeat constructor. discriminate.
  - vm_compute. repeat constructor; discriminate.
  - by vm_compute.
  - by vm_compute.
  - discriminate.
Defined.

(** ** What [wipe_dir] achieves *)

Lemma app_ne_self {A} (l k : list A) : k ≠ [] → l ++ k ≠ l.
Proof.
  intros Hk Heq. apply (f_equal length) in Heq. rewrite length_app in Heq.
  destruct k; [done|]. simpl in Heq. lia.
Qed.

Lemma walk_found_lookup fs cur l c :
  Forall ordinary (l ++ [c]) →
  Fs.walk fs cur (l ++ [c]) = Fs.Found (cur ++ l ++ [c]) Dir →
  fs !! (cur ++ l ++ [c]) = Some Dir.
Proof.
  intros Hord Hw.
  destruct (walk_found_init fs cur l [c] _ _ Hord Hw) as [Hl|?]; [|done].
  apply Forall_app in Hord as [_ Hc]. apply Forall_cons in Hc as [Hc _].
  rewrite (walk_app _ _ _ _ _ Hl), walk_ordinary in Hw by done.
  rewrite <-app_assoc in Hw.
  destruct (fs !! (cur ++ l ++ [c])) as [[|d|t]|]; done.
Qed.

Lemma wiped_root_at root w w' R comps :
  wiped R comps w w' → root_at root w R → root_at root w' R.
Proof. intros (_ & Hcwd & _ & _ & _ & Hk). by apply root_at_agree. Qed.

Lemma wiped_remove_make (w w' : world) (R : path) (hv : list string) (c : string) n :
  Forall ordinary (hv ++ [c]) →
  Fs.walk (w_fs w) R (hv ++ [c]) = Fs.Found (R ++ hv ++ [c]) n →
  w_heap w' = w_heap w → w_cwd w' = w_cwd w →
  w_fs w' = <[R ++ hv ++ [c] := Dir]>
              (filter (λ kv : path * node, ¬ (R ++ hv ++ [c]) `prefix_of` kv.1) (w_fs w)) →
  wiped R (hv ++ [c]) w w'.
Proof.
  intros Hord Hfound Hheap Hcwd Hfs.
  assert (∀ k, k `prefix_of` R ++ hv → w_fs w !! k = Some Dir → w_fs w' !! k = Some Dir)
    as Hkeep.
  { intros k Hk Hd. rewrite Hfs, lookup_insert_ne, lookup_filter_keep; [done|..].
    - rewrite app_assoc. by apply not_prefix_of_shorter.
    - intros <-. rewrite app_assoc in Hk. apply prefix_length in Hk.
      rewrite !length_app in Hk. simpl in Hk. lia. }
  split; [done|]. split; [done|]. split; [|split; [|split]].
  - destruct (walk_found_init (w_fs w) R hv [c] _ _ Hord Hfound) as [Hh|?]; [|done].
    apply Forall_app in Hord as [Hhv Hc]. apply Forall_cons in Hc as [Hc _].
    apply walk_snoc_dir; [done| |by rewrite Hfs, lookup_insert_eq].
    eapply walk_agree; [by apply ordinary_not_dotdot|exact Hkeep|exact Hh].
  - intros k Hk. rewrite Hfs, lookup_insert_ne, lookup_filter_drop; [done|..].
    + rewrite !app_assoc. by apply prefix_app_r.
    + rewrite !app_assoc. intros Heq. symmetry in Heq. by apply app_ne_self in Heq.
  - intros k Hk1 Hk2. rewrite Hfs, lookup_insert_ne, lookup_filter_keep; [done|done|].
    by intros <-.
  - intros k Hk. apply Hkeep. by apply prefix_app_r.
Qed.

Lemma wiped_make (w w' : world) (R : path) (have need : list string) :
  Forall ordinary (have ++ need) →
  Fs.walk (w_fs w) R have = Fs.Found (R ++ have) Dir →
  free_from (w_fs w) (R ++ have) need →
  w_heap w' = w_heap w → w_cwd w' = w_cwd w →
  w_fs w' = add_dirs (w_fs w) (R ++ have) need →
  wiped R (have ++ need) w w'.
Proof.
  intros Hord Hhave [Hne Hfree] Hheap Hcwd Hfs.
  apply Forall_app in Hord as [Hoh Hon].
  split; [done|]. split; [done|]. split; [|split; [|split]].
  - rewrite Hfs.
    assert (Fs.walk (add_dirs (w_fs w) (R ++ have) need) R have
            = Fs.Found (R ++ have) Dir) as Hh.
    { eapply walk_agree; [by apply ordinary_not_dotdot| |done].
      intros k _. apply grows_add_dirs. }
    rewrite (walk_app _ _ _ _ _ Hh), app_assoc. by apply walk_add_dirs.
  - intros k Hk. rewrite Hfs, lookup_add_dirs_other.
    + specialize (Hfree (drop 1 need ++ k)).
      rewrite (app_assoc (take 1 need)), take_drop in Hfree.
      by rewrite <-!app_assoc in Hfree |- *.
    + intros i Hi Heq. rewrite <-!app_assoc in Heq. do 2 apply app_inv_head in Heq.
      apply (f_equal length) in Heq. rewrite length_app, length_take in Heq.
      destruct k; [done|]. simpl in Heq. lia.
  - intros k Hk1 Hk2. rewrite Hfs. apply lookup_add_dirs_other.
    intros i Hi ->. apply Hk2. rewrite <-app_assoc. do 2 apply prefix_app.
    rewrite <-(take_drop i need) at 2. by apply prefix_app_r.
  - intros k _. rewrite Hfs. apply grows_add_dirs.
Qed.

(** [wipe_dir] on a path that is a directory or free, the command line
    being one plain word: the call returns, and the directory is there,
    empty. *)
Lemma wipe_dir_emptied root w R frags l :
  root_at root w R → Forall ordinary (map sanitize (frags ++ [l])) →
  shell_plain (normpath root (frags ++ [l])) →
  dir_or_free (w_fs w) R (map sanitize (frags ++ [l])) →
  ∃ w', wipe_dir root (frags ++ [l]) w = Ret () w'
        ∧ wiped R (map sanitize (frags ++ [l])) w w'
        ∧ (w_log w' = w_log w ++ [WipeDir (frags ++ [l])]
           ∨ w_log w' = w_log w ++ [WipeDir (frags ++ [l]);
                                    System ("rm -r " +:+ normpath root (frags ++ [l]))]).
Proof.
  intros Hroot Hord Hplain [Hdir|(have & need & Hc & Hhave & Hfree)].
  - eexists. split; [by eapply wipe_dir_existing|]. split.
    + rewrite (map_app sanitize frags [l]) in *. simpl in *.
      eapply wiped_remove_make; [done|done|done|done|done].
    + right. simpl. by rewrite <-app_assoc.
  - eexists. split; [by eapply wipe_dir_missing|]. split.
    + rewrite Hc in *. by eapply wiped_make.
    + by left.
Qed.

(** X7.  [wipe_dir] on a path below the result directory that is a
    directory or is free, the command line [rm -r <path>] being one plain
    word: the call returns, and so does a second call; after each the path
    is a directory reached through directories, with nothing in it; what is
    neither in it nor on the way to it is as before; and the second call
    leaves the file system as the first left it. *)
Lemma wipe_dir_twice root w R frags l :
  root_at root w R → Forall ordinary (map sanitize (frags ++ [l])) →
  shell_plain (normpath root (frags ++ [l])) →
  dir_or_free (w_fs w) R (map sanitize (frags ++ [l])) →
  ∃ w1 w2, wipe_dir root (frags ++ [l]) w = Ret () w1
           ∧ wiped R (map sanitize (frags ++ [l])) w w1
           ∧ wipe_dir root (frags ++ [l]) w1 = Ret () w2
           ∧ wiped R (map sanitize (frags ++ [l])) w1 w2
           ∧ w_fs w2 = w_fs w1.
Proof.
  intros Hroot Hord Hplain Hstate.
  destruct (wipe_dir_emptied root w R frags l Hroot Hord Hplain Hstate)
    as (w1 & Hw1 & Hwiped1 & _).
  pose proof (wiped_root_at root _ _ _ _ Hwiped1 Hroot) as Hroot1.
  pose proof Hwiped1 as (_ & _ & Hdir1 & Hempty1 & _).
  exists w1. eexists. split; [done|]. split; [done|].
  split; [by eapply wipe_dir_existing|].
  assert (w_fs w1 !! (R ++ map sanitize (frags ++ [l])) = Some Dir) as HT.
  { rewrite (map_app sanitize frags [l]) in *. simpl in *.
    by apply walk_found_lookup. }
  split.
  - rewrite (map_app sanitize frags [l]) in *. simpl in *.
    eapply wiped_remove_make; [done|done|done|done|done].
  - simpl. apply map_eq. intros k.
    destruct (decide (R ++ map sanitize (frags ++ [l]) = k)) as [<-|Hne].
    + by rewrite lookup_insert_eq.
    + rewrite lookup_insert_ne by done.
      destruct (decide ((R ++ map sanitize (frags ++ [l])) `prefix_of` k)) as [[k' ->]|Hp].
      * rewrite lookup_filter_drop by (by apply prefix_app_r).
        rewrite <-app_assoc. symmetry. apply Hempty1. intros ->.
        by rewrite app_nil_r in Hne.
      * by rewrite lookup_filter_keep.
Qed.

Lemma wipe_dir_twice_witness :
  ∃ w1 w2, wipe_dir Example.root (["current"] ++ ["b_B"]) Example.w1 = Ret () w1
           ∧ wiped ["home"; "u"; "results"] (map sanitize (["current"] ++ ["b_B"]))
Example.w1 w1
           ∧ wipe_dir Example.root (["current"] ++ ["b_B"]) w1 = Ret () w2
           ∧ wiped ["home"; "u"; "results"] (map sanitize (["current"] ++ ["b_B"])) w1 w2
           ∧ w_fs w2 = w_fs w1.
Proof.
  apply (wipe_dir_twice Example.root Example.w1 ["home"; "u"; "results"]
           ["current"] "b_B").
  - split; [|by vm_compute]. vm_compute. repeat constructor. discriminate.
  - vm_compute. repeat constructor; discriminate.
  - by vm_compute.
  - left. by vm_compute.
Defined.

(** ** [os.path.abspath], [os.path.dirname] and [os.path.relpath] *)

Lemma parts_join2_rel a b :
  Str.startswith "/" b = false →
  OsPath.parts (OsPath.join2 a b) = OsPath.parts a ++ OsPath.parts b.
Proof.
  intros Hb. unfold OsPath.join2. rewrite Hb.
  case_bool_decide as Ha; simpl.
  - subst a. by rewrite str_app_nil_l.
  - destruct (Str.endswith "/" a) eqn:E.
    + apply endswith_inv in E as [a' ->]. rewrite str_app_assoc.
      rewrite str_app_cons, str_app_nil_l.
      rewrite !parts_app_sep, parts_empty. by rewrite app_nil_r.
    + apply parts_app_sep.
Qed.

Lemma isabs_app a x : OsPath.isabs a = true → OsPath.isabs (a +:+ x) = true.
Proof. by destruct a. Qed.

Lemma isabs_join2_rel a b :
  OsPath.isabs a = true → Str.startswith "/" b = false →
  OsPath.isabs (OsPath.join2 a b) = true.
Proof.
  intros Ha Hb. unfold OsPath.join2. rewrite Hb.
  destruct (_ || _); by apply isabs_app.
Qed.

Lemma parts_cons_slash s : OsPath.parts (String "/" s) = OsPath.parts s.
Proof. unfold OsPath.parts. simpl. by rewrite filter_cons, decide_False by naive_solver. Qed.

Lemma parts_iter_slash i s : OsPath.parts (Nat.iter i (String "/") s) = OsPath.parts s.
Proof. induction i as [|i IH]; simpl; [done|]. by rewrite parts_cons_slash. Qed.

Lemma parts_str_join comps :
  Forall (λ c, c ≠ EmptyString ∧ Str.count "/" c = 0) comps →
  OsPath.parts (Str.join "/" comps) = comps.
Proof.
  induction 1 as [|x l [Hx1 Hx2] Hl IH]; [done|].
  destruct l as [|y l].
  - simpl. by apply parts_no_sep.
  - change (Str.join "/" (x :: y :: l)) with (x +:+ "/" +:+ Str.join "/" (y :: l)).
    rewrite str_app_cons, str_app_nil_l, parts_app_sep, IH.
    by rewrite parts_no_sep.
Qed.

Section Norm.
Implicit Types (i : nat) (acc l : list string) (c : string).

Lemma norm_step_empty i acc : OsPath.norm_step i acc EmptyString = acc.
  Proof. unfold OsPath.norm_step. by rewrite bool_decide_eq_true_2 by (by left). Qed.

Lemma norm_step_ordinary i acc c : ordinary c → OsPath.norm_step i acc c = acc ++ [c].
  Proof.
    intros (H1 & H2 & H3 & _). unfold OsPath.norm_step.
    rewrite bool_decide_eq_false_2 by (by intros [?|?]).
    by rewrite (bool_decide_eq_true_2 (c ≠ _)).
  Qed.

Lemma norm_step_abs i acc c :
    i ≠ 0 → OsPath.norm_step i acc c = OsPath.norm_step 1 acc c.
  Proof.
    intros Hi. unfold OsPath.norm_step.
    by rewrite (bool_decide_eq_false_2 (i = 0)), (bool_decide_eq_false_2 (1 = 0)).
  Qed.

Lemma fold_norm_abs i l acc :
    i ≠ 0 → fold_left (OsPath.norm_step i) l acc = fold_left (OsPath.norm_step 1) l acc.
  Proof.
    intros Hi. revert acc. induction l as [|c l IH]; intros acc; simpl; [done|].
    by rewrite IH, norm_step_abs.
  Qed.

Lemma fold_norm_parts i s acc :
    fold_left (OsPath.norm_step i) (Str.split "/" s) acc
    = fold_left (OsPath.norm_step i) (OsPath.parts s) acc.
  Proof.
    unfold OsPath.parts. revert acc.
    induction (Str.split "/" s) as [|c l IH]; intros acc; simpl; [done|].
    rewrite filter_cons. destruct (decide (c = EmptyString)) as [->|Hc].
    - rewrite decide_False by (by intros ?). by rewrite norm_step_empty.
    - rewrite decide_True by done. simpl. by rewrite IH.
  Qed.

Lemma fold_norm_ordinary i l acc :
    Forall ordinary l → fold_left (OsPath.norm_step i) l acc = acc ++ l.
  Proof.
    intros Hl. revert acc. induction Hl as [|c l Hc _ IH]; intros acc; simpl.
    - by rewrite app_nil_r.
    - by rewrite norm_step_ordinary, IH, <-app_assoc.
  Qed.

Lemma Forall_removelast {A} (P : A → Prop) (l0 : list A) :
    Forall P l0 → Forall P (removelast l0).
  Proof.
    induction 1 as [|x l1 Hx Hl IH]; simpl; [done|].
    destruct l1; [done|]. by constructor.
  Qed.

Lemma fold_norm_clean i l acc :
    Forall (λ c, c ≠ EmptyString ∧ Str.count "/" c = 0) acc →
    Forall (λ c, Str.count "/" c = 0) l →
    Forall (λ c, c ≠ EmptyString ∧ Str.count "/" c = 0)
      (fold_left (OsPath.norm_step i) l acc).
  Proof.
    intros Hacc Hl. revert acc Hacc. induction Hl as [|c l Hc _ IH]; intros acc Hacc; [done|].
    simpl. apply IH. unfold OsPath.norm_step.
    case_bool_decide as H1; [done|].
    destruct (_ || _).
    - apply Forall_app. split; [done|]. constructor; [|done].
      split; [|done]. intros ->. apply H1. by left.
    - by apply Forall_removelast.
  Qed.
End Norm.

Lemma initial_slashes_abs s : OsPath.isabs s = true → OsPath.initial_slashes s ≠ 0.
Proof.
  destruct s as [|c s]; [done|]. unfold OsPath.isabs. simpl.
  intros ->%bool_decide_eq_true.
  destruct s as [|c2 s]; [done|].
  destruct c2 as [[] [] [] [] [] [] [] []]; try done.
  destruct s as [|c3 s]; [done|].
  destruct c3 as [[] [] [] [] [] [] [] []]; done.
Qed.

Lemma isabs_nonempty s : OsPath.isabs s = true → s ≠ EmptyString.
Proof. by destruct s. Qed.

Lemma parts_clean s :
  Forall (λ c, c ≠ EmptyString ∧ Str.count "/" c = 0) (OsPath.parts s).
Proof.
  apply Forall_forall. intros x Hx. split; [by eapply parts_nonempty|by eapply parts_no_slash].
Qed.

Lemma parts_normpath_abs s :
  OsPath.isabs s = true →
  OsPath.parts (OsPath.normpath s) = fold_left (OsPath.norm_step 1) (OsPath.parts s) [].
Proof.
  intros Hs. unfold OsPath.normpath.
  rewrite bool_decide_eq_false_2 by (by apply isabs_nonempty).
  pose proof (initial_slashes_abs s Hs) as Hi.
  destruct (OsPath.initial_slashes s) as [|i]; [done|].
  cbv zeta. rewrite bool_decide_eq_false_2 by done.
  rewrite parts_iter_slash, fold_norm_parts, fold_norm_abs by done.
  apply parts_str_join. apply fold_norm_clean; [done|].
  eapply Forall_impl; [apply parts_clean|]. by intros c [_ ?].
Qed.

Lemma parts_abspath cwd p :
  OsPath.isabs cwd = true →
  OsPath.parts (OsPath.abspath cwd p)
  = fold_left (OsPath.norm_step 1)
      ((if OsPath.isabs p then [] else OsPath.parts cwd) ++ OsPath.parts p) [].
Proof.
  intros Hcwd. unfold OsPath.abspath.
  destruct (OsPath.isabs p) eqn:Hp.
  - by rewrite parts_normpath_abs.
  - simpl. rewrite parts_normpath_abs by (by apply isabs_join2_rel).
    by rewrite parts_join2_rel.
Qed.

Lemma commonprefix_app N a b :
  OsPath.commonprefix (N ++ a) (N ++ b) = N ++ OsPath.commonprefix a b.
Proof. induction N as [|x N IH]; simpl; [done|]. by rewrite decide_True, IH. Qed.

(** The relative path between two paths that part at a known point. *)
Lemma relpath_of_parts cwd path start N ts tp :
  path ≠ EmptyString →
  OsPath.parts (OsPath.abspath cwd start) = N ++ ts →
  OsPath.parts (OsPath.abspath cwd path) = N ++ tp →
  OsPath.commonprefix ts tp = [] →
  OsPath.relpath cwd path start =
  match replicate (length ts) Fs.dotdot ++ tp with
  | [] => Some Fs.dot
  | x :: rest => Some (OsPath.join x rest)
  end.
Proof.
  intros Hne Hs Hp Hc. unfold OsPath.relpath.
  rewrite bool_decide_eq_false_2 by done.
  rewrite Hs, Hp, commonprefix_app, Hc, app_nil_r.
  rewrite length_app, Nat.add_sub', drop_app_length. done.
Qed.

(** [os.path.dirname] *)
Lemma rcut_no_slash b : Str.count "/" b = 0 → OsPath.rcut b = (EmptyString, b).
Proof.
  induction b as [|c b IH]; simpl; [done|].
  case_decide as Hc; [lia|]. intros Hb. rewrite IH by done. simpl.
  by rewrite (bool_decide_eq_false_2 (c = _)).
Qed.

Lemma rcut_app_slash X b :
  Str.count "/" b = 0 → OsPath.rcut (X +:+ String "/" b) = (X +:+ String "/" EmptyString, b).
Proof.
  intros Hb. induction X as [|c X IH]; rewrite ?str_app_nil_l, ?str_app_cons.
  - simpl. by rewrite rcut_no_slash.
  - simpl. rewrite IH. destruct X; by rewrite ?str_app_nil_l, ?str_app_cons.
Qed.

Lemma rstrip_app_slash X :
  OsPath.rstrip_slash (X +:+ String "/" EmptyString) = OsPath.rstrip_slash X.
Proof.
  induction X as [|c X IH]; rewrite ?str_app_nil_l, ?str_app_cons; [done|].
  simpl. by rewrite IH.
Qed.

Lemma rstrip_id X : Str.endswith "/" X = false → OsPath.rstrip_slash X = X.
Proof.
  induction X as [|c X IH]; [done|]. simpl. destruct X as [|c' X].
  - intros Hc%bool_decide_eq_false. simpl. by rewrite decide_False.
  - intros H. by rewrite IH.
Qed.

Lemma dirname_app X b :
  X ≠ EmptyString → Str.endswith "/" X = false → Str.count "/" b = 0 →
  OsPath.dirname (X +:+ String "/" b) = X.
Proof.
  intros HX Hend Hb. unfold OsPath.dirname. rewrite rcut_app_slash by done. simpl.
  rewrite rstrip_app_slash, rstrip_id by done.
  rewrite !bool_decide_eq_true_2; [done|done|by destruct X].
Qed.

(** A normalized path of at least two fragments: the path of the first
    fragments, a slash, and the last fragment rewritten. *)
Lemma normpath_last root fr d l :
  ordinary (sanitize d) →
  normpath root ((fr ++ [d]) ++ [l])
  = normpath root (fr ++ [d]) +:+ String "/" (sanitize l).
Proof.
  intros Hd. rewrite (normpath_snoc root (fr ++ [d])).
  set (J := OsPath.join root (map (Str.replace "/" "-") (fr ++ [d]))).
  assert (normpath root (fr ++ [d]) = Str.replace " " "_" J) as -> by done.
  destruct (replace_slash_ordinary d Hd) as [Hd1 Hd2].
  assert (J ≠ EmptyString ∧ Str.endswith "/" J = false) as [HJ1 HJ2].
  { unfold J, OsPath.join. rewrite map_app, fold_left_app. simpl.
    split; [by apply join2_nonempty|by apply join2_endswith]. }
  unfold OsPath.join2.
  rewrite startswith_count_0 by (by apply count_replace_gone).
  rewrite HJ2, bool_decide_eq_false_2 by done. simpl.
  rewrite replace_app. simpl. by rewrite sanitize_replace.
Qed.

Lemma dirname_normpath root fr d l :
  ordinary (sanitize d) →
  OsPath.dirname (normpath root ((fr ++ [d]) ++ [l])) = normpath root (fr ++ [d]).
Proof.
  intros Hd. rewrite normpath_last by done. apply dirname_app.
  - by apply normpath_snoc_nonempty.
  - by apply normpath_snoc_endswith.
  - apply sanitize_no_slash.
Qed.

#[local] Existing Instance keeps_key_refl.
#[local] Existing Instance keeps_key_trans.

(** ** The two files of a card *)

Lemma sound_ret_rel {A} (m : M A) R Q w a w' :
  sound (λ _, True) m R Q → m w = Ret a w' → R w w'.
Proof. intros Hs Hm. specialize (Hs w I). rewrite Hm in Hs. by destruct Hs. Qed.

(** The key [id] of a record is not touched once it is set. *)
Lemma kk_append_item l v :
  sound (λ _, True) (Py.append_item l "comments" v) (heap_only (keeps_key "id"))
    (λ _ _, True).
Proof.
  unfold Py.append_item.
  eapply sound_seq; [apply _|done|apply sound_readonly; [apply _..|done|]|].
  { apply readonly_getitem. }
  intros [| | | |xs|]; try (apply sound_raise; apply _).
  apply kk_setitem. discriminate.
Qed.

Lemma trim_comment_keeps_id cd c :
  sound (λ _, True) (trim_comment cd c) (heap_only (keeps_key "id")) (λ _ _, True).
Proof.
  unfold trim_comment.
  eapply sound_seq; [apply _|done|apply kk_delitem; discriminate|intros _].
  eapply sound_seq; [apply _|done|apply sound_readonly; [apply _..|done|]|].
  { apply readonly_dict_get. }
  intros member_info.
  eapply sound_seq; [apply _|done|apply sound_readonly; [apply _..|done|]|].
  { apply readonly_truthy. }
  intros t.
  eapply sound_seq; [apply _|done| |intros _; apply kk_append_item].
  destruct t.
  - apply sound_for_each; [apply _..|done|]. intros key Hkey.
    apply kk_delitem. intros ->. revert Hkey. solve_key.
  - eapply sound_seq; [apply _|done|apply kk_alloc|].
    intros s. apply kk_setitem. discriminate.
Qed.

Lemma checklists_keeps_id card cd :
  sound (λ _, True)
    (cl_data ← map_each (card_checklists card) (λ cl,
       d ← Py.alloc {[ "id" := cl_id cl; "name" := cl_name cl; "items" := cl_items cl ]};
       mret (VRef d));
     Py.setitem cd "checklists" (VList cl_data) ;;
     mret cd)
    (heap_only (keeps_key "id")) (λ r _, r = cd).
Proof.
  eapply sound_seq; [apply _|done| |intros cl_data].
  { apply sound_map_each; [apply _..|done|]. intros cl _.
    eapply sound_seq; [apply _|done|apply kk_alloc|].
    intros d. by apply sound_ret; [apply _|]. }
  eapply sound_seq; [apply _|done| |intros _].
  { apply kk_setitem. discriminate. }
  by apply sound_ret; [apply _|].
Qed.

(** A successful shaping leaves the files alone and yields a record
    whose [id] is the id of the card. *)
Lemma shape_card_id card w cd w' :
  shape_card card w = Ret cd w' →
  w_fs w' = w_fs w ∧ w_cwd w' = w_cwd w ∧ w_log w' = w_log w
  ∧ ∃ d, w_heap w' !! cd = Some d ∧ d !! "id" = Some (VStr (card_id card)).
Proof.
  unfold shape_card.
  intros (cd0 & w1 & Halloc & H)%bind_ret_inv.
  unfold Py.alloc in Halloc. injection Halloc as <- <-.
  set (cd0 := fresh (dom (w_heap w))) in *.
  apply bind_ret_inv in H as ([] & w2 & Hattrs & H).
  unfold copied_attrs in Hattrs.
  change (for_each (?x :: ?l) ?body) with (body x ;; for_each l body) in Hattrs.
  apply bind_ret_inv in Hattrs as ([] & w1' & Hid & Hattrs).
  apply setitem_ret in Hid as (d1 & Hd1 & ->). simpl in Hd1.
  rewrite lookup_insert_eq in Hd1. injection Hd1 as <-.
  assert (heap_only (keeps_key "id")
            (set_heap (<[cd0 := <["id" := VStr (card_id card)]> ∅]>
                         (<[cd0 := ∅]> (w_heap w))) (set_heap (<[cd0 := ∅]> (w_heap w)) w))
            w2) as H12.
  { refine (sound_ret_rel _ _ _ _ _ _ _ Hattrs).
    apply sound_for_each; [apply _..|done|]. intros [k v] Hkv. simpl.
    apply kk_setitem.
    repeat (apply elem_of_cons in Hkv as [[= -> ->]|Hkv]; [discriminate|]).
    by apply elem_of_nil in Hkv. }
  apply bind_ret_inv in H as ([] & w3 & Hset & H).
  assert (heap_only (keeps_key "id") w2 w3) as H23.
  { refine (sound_ret_rel _ _ _ _ _ _ _ Hset). apply kk_setitem. discriminate. }
  apply bind_ret_inv in H as ([] & w4 & Hloop & H).
  assert (heap_only (keeps_key "id") w3 w4) as H34.
  { refine (sound_ret_rel _ _ _ _ _ _ _ Hloop).
    apply sound_for_each; [apply _..|done|]. intros c _. apply trim_comment_keeps_id. }
  pose proof (checklists_keeps_id card cd0 w4 I) as H45. rewrite H in H45.
  destruct H45 as [H45 ->].
  assert (heap_only (keeps_key "id")
            (set_heap (<[cd0 := <["id" := VStr (card_id card)]> ∅]>
                         (<[cd0 := ∅]> (w_heap w))) (set_heap (<[cd0 := ∅]> (w_heap w)) w))
            w') as (Hk & Hfs & Hcwd & Hlog).
  { etrans; [exact H12|]. etrans; [exact H23|]. etrans; [exact H34|exact H45]. }
  split; [done|]. split; [done|]. split; [done|].
  simpl in Hk. destruct (Hk cd0 _ (lookup_insert_eq _ _ _)) as (d' & Hd' & Hid).
  exists d'. split; [done|]. by rewrite Hid, lookup_insert_eq.
Qed.

Lemma readonly_ret_inv {A} (m : M A) w a w' : readonly m → m w = Ret a w' → w' = w.
Proof. intros Hro Hm. specialize (Hro w). by rewrite Hm in Hro. Qed.

Lemma as_str_ret v s w w' : as_str v w = Ret s w' → v = VStr s ∧ w' = w.
Proof. destruct v; try done. by intros [= -> ->]. Qed.

Lemma record_id_ret cd id w s w' :
  (∃ d, w_heap w !! cd = Some d ∧ d !! "id" = Some (VStr id)) →
  (Py.getitem (VRef cd) "id" ≫= as_str) w = Ret s w' → s = id ∧ w' = w.
Proof.
  intros (d & Hd & Hid) (x & w1 & Hg & Hs)%bind_ret_inv.
  apply getitem_ret in Hg as (-> & l & d' & [= <-] & Hd' & Hx).
  apply as_str_ret in Hs as [-> ->]. split; [|done]. congruence.
Qed.

Lemma dump_yaml_ret root py cd tp id w w' :
  (∃ d, w_heap w !! cd = Some d ∧ d !! "id" = Some (VStr id)) →
  dump_yaml root py cd tp w = Ret () w' →
  ∃ data, write_card (normpath root ["raw_tickets"; id] +:+ ".yaml")
            (tp +:+ ".yaml") data w = Ret () w'.
Proof.
  intros Hid. unfold dump_yaml.
  intros (s & w1 & Hs & H)%bind_ret_inv.
  apply (record_id_ret _ _ _ _ _ Hid) in Hs as [-> ->].
  apply bind_ret_inv in H as (data & w2 & Hy & H).
  apply (readonly_ret_inv _ _ _ _ (readonly_toyaml py _)) in Hy as ->.
  by exists data.
Qed.

Lemma dump_txt_ret root py cd tp id w w' :
  (∃ d, w_heap w !! cd = Some d ∧ d !! "id" = Some (VStr id)) →
  dump_txt root py cd tp w = Ret () w' →
  ∃ w1 data, w_fs w1 = w_fs w ∧ w_cwd w1 = w_cwd w ∧ w_log w1 = w_log w
    ∧ write_card (normpath root ["raw_tickets"; id] +:+ ".txt")
        (tp +:+ ".txt") data w1 = Ret () w'.
Proof.
  intros (d & Hd & Hid). unfold dump_txt.
  intros (comments & w1 & Hc & H)%bind_ret_inv.
  assert (w1 = w) as ->.
  { eapply readonly_ret_inv; [|exact Hc].
    apply readonly_bind; [apply readonly_getitem|apply readonly_iterate]. }
  apply bind_ret_inv in H as (texts & w1 & Ht & H).
  assert (w1 = w) as ->.
  { eapply readonly_ret_inv; [|exact Ht].
    apply readonly_map_each. intros c. apply readonly_format_comment. }
  apply bind_ret_inv in H as (name & w1 & Hn & H).
  apply (readonly_ret_inv _ _ _ _ (readonly_getitem _ _)) in Hn as ->.
  apply bind_ret_inv in H as ([] & w2 & Hset & H).
  destruct (unicode_utf8 py name) as [u|]; [|done].
  apply setitem_ret in Hset as (d' & Hd' & ->).
  rewrite Hd in Hd'. injection Hd' as <-.
  set (w2 := set_heap _ w) in *.
  apply bind_ret_inv in H as (name' & w3 & Hn' & H).
  assert (w3 = w2) as ->.
  { eapply readonly_ret_inv; [|exact Hn'].
    apply readonly_bind; [apply readonly_getitem|apply readonly_fmt]. }
  apply bind_ret_inv in H as (descr & w3 & Hdescr & H).
  assert (w3 = w2) as ->.
  { eapply readonly_ret_inv; [|exact Hdescr].
    apply readonly_bind; [apply readonly_getitem|apply readonly_fmt]. }
  apply bind_ret_inv in H as (s & w3 & Hs & H).
  apply record_id_ret with (id := id) in Hs as [-> ->].
  2:{ eexists. split; [apply lookup_insert_eq|]. by rewrite lookup_insert_ne. }
  by eexists w2, _.
Qed.

(** A successful [dl_card] is two successful calls of [write_card], on
    the blobs named after the id of the card, the files being touched by
    nothing else. *)
Lemma dl_card_files root py card tp w w' :
  dl_card root py card tp w = Ret () w' →
  ∃ w1 w2 w3 datay datat,
    (w_fs w1 = w_fs w ∧ w_cwd w1 = w_cwd w ∧ w_log w1 = w_log w)
    ∧ write_card (normpath root ["raw_tickets"; card_id card] +:+ ".yaml")
        (tp +:+ ".yaml") datay w1 = Ret () w2
    ∧ (w_fs w3 = w_fs w2 ∧ w_cwd w3 = w_cwd w2 ∧ w_log w3 = w_log w2)
    ∧ write_card (normpath root ["raw_tickets"; card_id card] +:+ ".txt")
        (tp +:+ ".txt") datat w3 = Ret () w'.
Proof.
  unfold dl_card. intros (cd & w1 & Hshape & H)%bind_ret_inv.
  apply shape_card_id in Hshape as (Hfs & Hcwd & Hlog & Hid).
  apply bind_ret_inv in H as ([] & w2 & Hy & Ht).
  destruct (dump_yaml_ret _ _ _ _ _ _ _ Hid Hy) as (datay & Hwy).
  assert (w_heap w2 = w_heap w1) as Hheap.
  { pose proof (keeps_heap_write_card
                  (normpath root ["raw_tickets"; card_id card] +:+ ".yaml")
                  (tp +:+ ".yaml") datay w1) as Hk.
    by rewrite Hwy in Hk. }
  rewrite <-Hheap in Hid.
  destruct (dump_txt_ret _ _ _ _ _ _ _ Hid Ht) as (w3 & datat & Hfs3 & Hcwd3 & Hlog3 & Hwt).
  by exists w1, w2, w3, datay, datat.
Qed.

(** ** The blob and the link of a card in the file system *)

Lemma ordinary_raw_tickets : ordinary "raw_tickets".
Proof. unfold ordinary. by split_and!. Qed.

Lemma ordinary_current : ordinary "current".
Proof. unfold ordinary. by split_and!. Qed.

Lemma getcwd_abs w : OsPath.isabs (Fs.getcwd w) = true.
Proof. done. Qed.

Lemma follow_link n fs p t :
  t ≠ EmptyString →
  Fs.follow (S n) fs (Fs.Found p (Link t))
  = Fs.follow n fs (Fs.walk fs (if OsPath.isabs t then [] else Fs.parent p) (Fs.kparts t)).
Proof. intros Ht. simpl. by rewrite decide_False. Qed.

Section CardFiles.
Variables (root : string) (R : path) (bd ld cn id ext : string).
Hypothesis Hbd : ordinary (sanitize bd).
Hypothesis Hld : ordinary (sanitize ld).
Hypothesis Hcn : ordinary (sanitize cn +:+ ext).
Hypothesis Hid : ordinary (sanitize id +:+ ext).
Hypothesis Hext1 : Str.count "/" ext = 0.
Hypothesis Hext2 : Str.count " " ext = 0.

#[local] Abbreviation blob_path := (normpath root ["raw_tickets"; id] +:+ ext).
#[local] Abbreviation link_path := (normpath root ["current"; bd; ld; cn] +:+ ext).
#[local] Abbreviation sL := ["current"; sanitize bd; sanitize ld].
#[local] Abbreviation blob := (R ++ ["raw_tickets"; sanitize id +:+ ext]).
#[local] Abbreviation link := (R ++ sL ++ [sanitize cn +:+ ext]).
#[local] Abbreviation target := ("../../../raw_tickets/" +:+ (sanitize id +:+ ext)).

Lemma blob_path_eq : blob_path = normpath root (["raw_tickets"] ++ [id +:+ ext]).
  Proof. by rewrite <-normpath_ext. Qed.

Lemma link_path_eq : link_path = normpath root (["current"; bd; ld] ++ [cn +:+ ext]).
  Proof. by rewrite <-normpath_ext. Qed.

Lemma sanitize_ext s : sanitize (s +:+ ext) = sanitize s +:+ ext.
  Proof. by rewrite sanitize_app, (sanitize_clean ext). Qed.

Lemma blob_comps :
    map sanitize (["raw_tickets"] ++ [id +:+ ext]) = ["raw_tickets"; sanitize id +:+ ext].
  Proof. simpl. by rewrite sanitize_ext. Qed.

Lemma link_comps :
    map sanitize (["current"; bd; ld] ++ [cn +:+ ext]) = sL ++ [sanitize cn +:+ ext].
  Proof. simpl. by rewrite sanitize_ext. Qed.

Lemma blob_ordinary : Forall ordinary (map sanitize (["raw_tickets"] ++ [id +:+ ext])).
  Proof.
    rewrite blob_comps. repeat first [apply Forall_cons_2|apply Forall_nil_2];
      [apply ordinary_raw_tickets|done].
  Qed.

Lemma link_ordinary :
    Forall ordinary (map sanitize (["current"; bd; ld] ++ [cn +:+ ext])).
  Proof.
    rewrite link_comps. repeat first [apply Forall_cons_2|apply Forall_nil_2];
      [apply ordinary_current|done..].
  Qed.

Lemma dir_ordinary : Forall ordinary (map sanitize ["current"; bd; ld]).
  Proof.
    repeat first [apply Forall_cons_2|apply Forall_nil_2]; [apply ordinary_current|done..].
  Qed.

  (** The target of the link. *)
Lemma relpath_card cwd :
    OsPath.isabs cwd = true →
    OsPath.relpath cwd blob_path (OsPath.dirname link_path) = Some target.
  Proof.
    intros Hcwd. rewrite link_path_eq.
    rewrite (dirname_normpath root ["current"; bd] ld) by done.
    change (["current"; bd] ++ [ld]) with ["current"; bd; ld].
    rewrite blob_path_eq.
    set (Pre := (if OsPath.isabs (rewritten_root root) then [] else OsPath.parts cwd)
                ++ OsPath.parts (rewritten_root root)).
    rewrite (relpath_of_parts cwd _ _ (fold_left (OsPath.norm_step 1) Pre []) sL
               ["raw_tickets"; sanitize id +:+ ext]).
    - simpl. unfold OsPath.join. simpl.
      change (OsPath.join2 (OsPath.join2 (OsPath.join2 Fs.dotdot "..") "..") "raw_tickets")
        with "../../../raw_tickets".
      unfold OsPath.join2.
      destruct Hid as (_ & _ & _ & Hslash).
      by rewrite startswith_count_0.
    - apply normpath_snoc_nonempty. by rewrite sanitize_ext.
    - rewrite parts_abspath, normpath_isabs by done.
      rewrite (normpath_parts root ["current"; bd; ld]) by apply dir_ordinary.
      rewrite app_assoc. fold Pre. rewrite fold_left_app.
      apply fold_norm_ordinary, dir_ordinary.
    - rewrite parts_abspath, normpath_isabs by done.
      rewrite normpath_parts by apply blob_ordinary.
      rewrite app_assoc. fold Pre. rewrite fold_left_app, blob_comps.
      apply fold_norm_ordinary. rewrite <-blob_comps. apply blob_ordinary.
    - done.
  Qed.

Lemma not_blob_prefix k : k `prefix_of` R ++ sL → k ≠ blob.
  Proof.
    intros Hk ->. apply prefix_app_inv in Hk. by destruct Hk as [? [=]].
  Qed.

Section Write.
Variables (wA wB : world) (data : string).
Hypothesis Hroot : root_at root wA R.
Hypothesis Hdir : Fs.walk (w_fs wA) R sL = Fs.Found (R ++ sL) Dir.
Hypothesis Hfree : w_fs wA !! link = None.
Hypothesis Hnolink : ∀ t, w_fs wA !! blob ≠ Some (Link t).
Hypothesis Hret : write_card blob_path link_path data wA = Ret () wB.

Lemma write_card_blob q :
      can_write wA blob_path q → w_fs wA !! (R ++ ["raw_tickets"]) = Some Dir ∧ q = blob.
    Proof.
      unfold can_write. rewrite blob_path_eq, (stat_normpath _ _ R) by
        first [done|apply blob_ordinary].
      rewrite blob_comps, walk_ordinary by apply ordinary_raw_tickets.
      destruct (w_fs wA !! (R ++ ["raw_tickets"])) as [[|d|t]|] eqn:Ert.
      - rewrite walk_ordinary by done. rewrite <-(app_assoc R).
        change (["raw_tickets"] ++ [sanitize id +:+ ext]) with
          ["raw_tickets"; sanitize id +:+ ext].
        destruct (w_fs wA !! blob) as [[|d|t]|] eqn:Eb.
        + simpl. intros [?|[? ?]]; done.
        + rewrite follow_not_link by done. intros [?|[? [= <-]]]; done.
        + by destruct (Hnolink t).
        + rewrite follow_absent. intros [[= <-]|[? ?]]; done.
      - rewrite follow_err. intros [?|[? ?]]; done.
      - rewrite follow_unknown. intros [?|[? ?]]; done.
      - rewrite follow_err. intros [?|[? ?]]; done.
    Qed.

Lemma write_card_in_tree :
      w_fs wA !! (R ++ ["raw_tickets"]) = Some Dir
      ∧ wB = linked link target (written blob data wA).
    Proof.
      apply write_card_ret in Hret as (q & p & r & Hr & Hq & Hl & ->).
      apply write_card_blob in Hq as [Hrt ->]. split; [done|].
      rewrite relpath_card in Hr by apply getcwd_abs. injection Hr as <-.
      f_equal.
      assert (∀ k, k `prefix_of` R ++ sL → w_fs wA !! k = Some Dir →
                   w_fs (written blob data wA) !! k = Some Dir) as Hag.
      { intros k Hk Hd. simpl. rewrite lookup_insert_ne; [done|].
        intros Heq. by apply (not_blob_prefix k). }
      assert (root_at root (written blob data wA) R) as Hroot'.
      { apply (root_at_agree root wA (written blob data wA) R); [reflexivity| |exact Hroot].
        intros k Hk. apply Hag. by apply prefix_app_r. }
      rewrite link_path_eq, (lstat_normpath _ _ R) in Hl by first [done|apply link_ordinary].
      rewrite link_comps in Hl.
      assert (Fs.walk (w_fs (written blob data wA)) R sL = Fs.Found (R ++ sL) Dir) as Hdir'.
      { eapply walk_agree; [|exact Hag|exact Hdir].
        apply ordinary_not_dotdot, dir_ordinary. }
      rewrite (walk_app _ _ _ _ _ Hdir'), walk_ordinary in Hl by done.
      rewrite <-app_assoc in Hl. simpl in Hl.
      rewrite lookup_insert_ne in Hl.
      2:{ intros Heq. apply app_inv_head in Heq. done. }
      pose proof Hfree as Hf. simpl in Hf. rewrite Hf in Hl. by injection Hl as <-.
    Qed.
End Write.

  (** Where the link and the blob lead. *)
Section Resolve.
Variables (w : world) (data : string).
Hypothesis Hroot : root_at root w R.
Hypothesis Hdir : Fs.walk (w_fs w) R sL = Fs.Found (R ++ sL) Dir.
Hypothesis Hlink : w_fs w !! link = Some (Link target).
Hypothesis Hrt : w_fs w !! (R ++ ["raw_tickets"]) = Some Dir.
Hypothesis Hblob : w_fs w !! blob = Some (File data).

Lemma walk_blob :
      Fs.walk (w_fs w) R ["raw_tickets"; sanitize id +:+ ext] = Fs.Found blob (File data).
    Proof.
      rewrite walk_ordinary, Hrt by apply ordinary_raw_tickets.
      rewrite walk_ordinary by done. rewrite <-(app_assoc R). simpl. by rewrite Hblob.
    Qed.

Lemma stat_blob : Fs.stat w blob_path = Fs.Found blob (File data).
    Proof.
      rewrite blob_path_eq, (stat_normpath _ _ R) by first [done|apply blob_ordinary].
      rewrite blob_comps, walk_blob. by apply follow_not_link.
    Qed.

Lemma lstat_link : Fs.lstat w link_path = Fs.Found link (Link target).
    Proof.
      rewrite link_path_eq, (lstat_normpath _ _ R) by first [done|apply link_ordinary].
      rewrite link_comps, (walk_app _ _ _ _ _ Hdir), walk_ordinary by done.
      rewrite <-app_assoc. pose proof Hlink as Hf. simpl in Hf |- *. by rewrite Hf.
    Qed.

Lemma kparts_target :
      Fs.kparts target
      = replicate (length sL) Fs.dotdot ++ ["raw_tickets"; sanitize id +:+ ext].
    Proof.
      destruct Hid as (Hne & _ & _ & Hslash).
      unfold Fs.kparts.
      rewrite endswith_app_nonempty, endswith_no_sep by done.
      change target with ("../../../raw_tickets" +:+ String "/" (sanitize id +:+ ext)).
      rewrite parts_app_sep, app_nil_r, (parts_no_sep (sanitize id +:+ ext)) by done.
      done.
    Qed.

Lemma stat_link : Fs.stat w link_path = Fs.Found blob (File data).
    Proof.
      unfold Fs.stat. rewrite lstat_link. unfold Fs.MAXSYMLINKS.
      rewrite follow_link by done.
      assert (OsPath.isabs target = false) as -> by done.
      rewrite kparts_target.
      rewrite app_assoc, parent_snoc, walk_up, walk_blob. by apply follow_not_link.
    Qed.
End Resolve.
End CardFiles.

(** ** The tree of a board after a run *)

Lemma ordinary_of_char x (a : ascii) :
  a ≠ "."%char → Str.count a x ≠ 0 → Str.count "/" x = 0 → ordinary x.
Proof.
  intros Ha Hx Hs. split_and!; [| | |done]; intros ->; simpl in Hx;
    rewrite ?decide_False in Hx by done; done.
Qed.

Lemma ordinary_underscore a b ext :
  Str.count "/" ext = 0 →
  ordinary (sanitize (Py.underscore a b) +:+ ext).
Proof.
  intros Hext. apply (ordinary_of_char _ "_"); [done| |].
  - unfold Py.underscore. rewrite sanitize_app, !count_app. simpl. lia.
  - rewrite count_app, sanitize_no_slash. done.
Qed.

Lemma ordinary_underscore' a b : ordinary (sanitize (Py.underscore a b)).
Proof.
  rewrite <-(str_app_nil_r (sanitize _)). by apply ordinary_underscore.
Qed.

Lemma ordinary_yaml s : ordinary (sanitize s +:+ ".yaml").
Proof.
  apply (ordinary_of_char _ "y"); [done| |].
  - rewrite count_app. simpl. lia.
  - by rewrite count_app, sanitize_no_slash.
Qed.

Lemma ordinary_txt s : ordinary (sanitize s +:+ ".txt").
Proof.
  apply (ordinary_of_char _ "x"); [done| |].
  - rewrite count_app. simpl. lia.
  - by rewrite count_app, sanitize_no_slash.
Qed.

Lemma str_app_inv_head s a b : s +:+ a = s +:+ b → a = b.
Proof.
  induction s as [|c s IH]; rewrite ?str_app_nil_l, ?str_app_cons; [done|].
  intros [= H]. by apply IH.
Qed.

Section CardLinks.
Variables (root : string) (py : PyLib) (R : path) (bd ld : string) (card : Card).
Variables (w2 w' : world).
Hypothesis Hbd : ordinary (sanitize bd).
Hypothesis Hld : ordinary (sanitize ld).

#[local] Abbreviation sL := ["current"; sanitize bd; sanitize ld].
#[local] Abbreviation link ext :=
    (R ++ ["current"; sanitize bd; sanitize ld] ++ [sanitize (card_basename card) +:+ ext]).
#[local] Abbreviation blob ext := (R ++ ["raw_tickets"; sanitize (card_id card) +:+ ext]).

Hypothesis Hroot2 : root_at root w2 R.
Hypothesis HdirL : Fs.walk (w_fs w2) R sL = Fs.Found (R ++ sL) Dir.
Hypothesis Hempty : ∀ k, k ≠ [] → w_fs w2 !! (R ++ sL ++ k) = None.
Hypothesis Hnolink : ∀ y t, w_fs w2 !! (R ++ ["raw_tickets"; y]) ≠ Some (Link t).
Hypothesis Hdl :
    dl_card root py card (normpath root ["current"; bd; ld; card_basename card]) w2
    = Ret () w'.

Lemma link_not_blob e1 e2 : link e1 ≠ blob e2.
  Proof. intros Heq. apply app_inv_head in Heq. done. Qed.

Lemma yaml_not_txt s : s +:+ ".yaml" ≠ s +:+ ".txt".
  Proof. by intros ?%str_app_inv_head. Qed.

Lemma dl_card_links :
    ∃ dy dt,
      w_fs w' = <[link ".txt" := Link (card_target card ".txt")]>
                  (<[blob ".txt" := File dt]>
                     (<[link ".yaml" := Link (card_target card ".yaml")]>
                        (<[blob ".yaml" := File dy]> (w_fs w2))))
      ∧ w_cwd w' = w_cwd w2
      ∧ w_fs w2 !! (R ++ ["raw_tickets"]) = Some Dir.
  Proof.
    destruct (dl_card_files _ _ _ _ _ _ Hdl)
      as (w3 & w4 & w5 & dy & dt & (Hfs3 & Hcwd3 & _) & Hwy & (Hfs5 & Hcwd5 & _) & Hwt).
    (* the first call: the structured form *)
    assert (root_at root w3 R) as Hroot3 by (by eapply root_at_same).
    destruct (write_card_in_tree root R bd ld (card_basename card) (card_id card) ".yaml"
                Hbd Hld (ordinary_underscore _ _ ".yaml" eq_refl) (ordinary_yaml _)
                eq_refl eq_refl w3 w4 dy Hroot3) as [Hrt ->].
    { by rewrite Hfs3. }
    { rewrite Hfs3. by apply Hempty. }
    { intros t. rewrite Hfs3. apply Hnolink. }
    { exact Hwy. }
    rewrite Hfs3 in Hrt.
    (* the second call: the text form *)
    set (fs4 := <[link ".yaml" := Link (card_target card ".yaml")]>
                  (<[blob ".yaml" := File dy]> (w_fs w2))).
    assert (w_fs w5 = fs4) as Hfs5'.
    { rewrite Hfs5. simpl. by rewrite Hfs3. }
    assert (∀ k, k `prefix_of` R ++ sL → w_fs w2 !! k = Some Dir → fs4 !! k = Some Dir)
      as Hag.
    { intros k Hk Hd. unfold fs4. rewrite !lookup_insert_ne; [done|..].
      - intros <-. apply prefix_app_inv in Hk. by destruct Hk as [? [=]].
      - intros <-. apply prefix_length in Hk. rewrite !length_app in Hk. simpl in Hk. lia. }
    assert (w_cwd w5 = w_cwd w2) as Hcwd5' by (by rewrite Hcwd5).
    assert (root_at root w5 R) as Hroot5.
    { apply (root_at_agree root w2 w5 R); [done| |done].
      intros k Hk. rewrite Hfs5'. apply Hag. by apply prefix_app_r. }
    destruct (write_card_in_tree root R bd ld (card_basename card) (card_id card) ".txt"
                Hbd Hld (ordinary_underscore _ _ ".txt" eq_refl) (ordinary_txt _)
                eq_refl eq_refl w5 w' dt Hroot5) as [_ ->].
    { rewrite Hfs5'. eapply walk_agree; [|exact Hag|exact HdirL].
      apply ordinary_not_dotdot. by apply dir_ordinary. }
    { rewrite Hfs5'. unfold fs4. rewrite !lookup_insert_ne.
      - by apply Hempty.
      - apply not_eq_sym, link_not_blob.
      - intros Heq. do 2 apply app_inv_head in Heq. injection Heq as Heq.
        by apply yaml_not_txt in Heq. }
    { intros t. rewrite Hfs5'. unfold fs4. rewrite lookup_insert_ne by apply link_not_blob.
      rewrite lookup_insert_ne; [apply Hnolink|].
      intros Heq. apply app_inv_head in Heq. injection Heq as Heq.
      by apply yaml_not_txt in Heq. }
    { exact Hwt. }
    exists dy, dt. simpl. rewrite Hfs5'. split; [done|]. split; [done|done].
  Qed.
End CardLinks.

(** ** Link integrity *)

Lemma lookup_insert_below (fs : gmap path node) (R a x : path) (v : node) :
  <[R ++ a := v]> fs !! (R ++ x) = if decide (a = x) then Some v else fs !! (R ++ x).
Proof.
  case_decide as E.
  - subst. apply lookup_insert_eq.
  - apply lookup_insert_ne. by intros ?%app_inv_head.
Qed.

Lemma insert_keeps_dir (fs : gmap path node) (key k P : path) (v : node) :
  k `prefix_of` P → ¬ key `prefix_of` P → fs !! k = Some Dir →
  <[key := v]> fs !! k = Some Dir.
Proof. intros Hk Hkey Hd. rewrite lookup_insert_ne; [done|]. by intros ->. Qed.

(** The state in which the card of a board is dumped: the directory of
    the list is there, empty, in the emptied directory of the board. *)
Section AfterMkdir.
Variables (root : string) (R : path) (bd ld : string) (w w1 : world).
Hypothesis Hbd : ordinary (sanitize bd).
Hypothesis Hld : ordinary (sanitize ld).
Hypothesis Hroot : root_at root w R.
Hypothesis Hwiped : wiped R ["current"; sanitize bd] w w1.
Hypothesis Hnolink : ∀ y t, w_fs w !! (R ++ ["raw_tickets"; y]) ≠ Some (Link t).

#[local] Abbreviation Lk := (R ++ ["current"; sanitize bd; sanitize ld]).
#[local] Abbreviation w2 := (set_fs (<[Lk := Dir]> (w_fs w1)) w1).

Lemma board_ordinary : Forall ordinary ["current"; sanitize bd].
  Proof.
    repeat first [apply Forall_cons_2|apply Forall_nil_2]; [apply ordinary_current|done].
  Qed.

Lemma mkdir_list :
    mkdir root ["current"; bd; ld] w1 = Ret () w2.
  Proof.
    pose proof (wiped_root_at root _ _ _ _ Hwiped Hroot) as Hroot1.
    destruct Hwiped as (_ & _ & HwalkT & HemptyT & _).
    change ["current"; bd; ld] with (["current"; bd] ++ [ld]).
    rewrite (mkdir_creates root w1 R ["current"; bd] ld Hroot1
               (dir_ordinary bd ld Hbd Hld) ["current"; sanitize bd] [sanitize ld]).
    - simpl. by rewrite <-app_assoc.
    - done.
    - done.
    - split; [done|]. intros k. simpl. rewrite <-app_assoc. simpl.
      by apply (HemptyT (sanitize ld :: k)).
  Qed.

Lemma after_mkdir_dirs k :
    w_fs w1 !! k = Some Dir → w_fs w2 !! k = Some Dir.
  Proof.
    intros Hk. simpl. destruct (decide (Lk = k)) as [<-|Hne].
    - apply lookup_insert_eq.
    - by rewrite lookup_insert_ne.
  Qed.

Lemma after_mkdir_root : root_at root w2 R.
  Proof.
    pose proof (wiped_root_at root _ _ _ _ Hwiped Hroot) as Hroot1.
    apply (root_at_agree root w1 w2 R); [done| |done].
    intros k _. apply after_mkdir_dirs.
  Qed.

Lemma after_mkdir_walk :
    Fs.walk (w_fs w2) R ["current"; sanitize bd; sanitize ld] = Fs.Found Lk Dir.
  Proof.
    destruct Hwiped as (_ & _ & HwalkT & _).
    apply (walk_snoc_dir _ R ["current"; sanitize bd] (sanitize ld)); [done| |].
    - eapply walk_agree; [|intros k _; apply after_mkdir_dirs|exact HwalkT].
      apply ordinary_not_dotdot, board_ordinary.
    - simpl. apply lookup_insert_eq.
  Qed.

Lemma after_mkdir_empty k :
    k ≠ [] → w_fs w2 !! (R ++ ["current"; sanitize bd; sanitize ld] ++ k) = None.
  Proof.
    destruct Hwiped as (_ & _ & _ & HemptyT & _).
    intros Hk. simpl. rewrite lookup_insert_below, decide_False.
    - by apply (HemptyT (sanitize ld :: k)).
    - intros [= Heq]. symmetry in Heq. by destruct k.
  Qed.

Lemma after_mkdir_board k :
    w_fs w2 !! (R ++ "current" :: sanitize bd :: k)
    = if decide (k = []) then Some Dir
      else if decide (k = [sanitize ld]) then Some Dir else None.
  Proof.
    destruct Hwiped as (_ & _ & HwalkT & HemptyT & _).
    simpl. rewrite lookup_insert_below.
    destruct (decide (k = [])) as [->|Hne].
    - rewrite decide_False by done.
      by apply (walk_found_lookup _ R ["current"] (sanitize bd)), HwalkT; apply board_ordinary.
    - destruct (decide (k = [sanitize ld])) as [->|Hne'].
      + by rewrite decide_True.
      + rewrite decide_False by (by intros [= ?]). by apply (HemptyT k).
  Qed.

Lemma after_mkdir_blobs y :
    w_fs w2 !! (R ++ ["raw_tickets"; y]) = w_fs w !! (R ++ ["raw_tickets"; y]).
  Proof.
    destruct Hwiped as (_ & _ & _ & _ & Hframe & _).
    simpl. rewrite lookup_insert_below, decide_False by done.
    apply Hframe.
    - intros Hp. apply prefix_app_inv in Hp. by destruct Hp as [? [=]].
    - intros Hp. apply prefix_app_inv in Hp. by destruct Hp as [? [=]].
  Qed.

Lemma after_mkdir_raw :
    w_fs w2 !! (R ++ ["raw_tickets"]) = w_fs w !! (R ++ ["raw_tickets"]).
  Proof.
    destruct Hwiped as (_ & _ & _ & _ & Hframe & _).
    simpl. rewrite lookup_insert_below, decide_False by done.
    apply Hframe.
    - intros Hp. apply prefix_app_inv in Hp. by destruct Hp as [? [=]].
    - intros Hp. apply prefix_app_inv in Hp. by destruct Hp as [? [=]].
  Qed.
End AfterMkdir.

(** The run on one board with one list and one card, step by step. *)
Lemma retrieve_one_card root py b lst card w w' :
  board_name b ≠ "Welcome Board" →
  board_closed_cards b = [] → board_all_lists b = [lst] → list_cards lst = [card] →
  retrieve_trello_data root py [b] w = Ret () w' →
  ∃ w1 w2,
    wipe_dir root ["current"; board_dirname b] w = Ret () w1
    ∧ mkdir root ["current"; board_dirname b; list_name_path lst] w1 = Ret () w2
    ∧ dl_card root py card
        (normpath root ["current"; board_dirname b; list_name_path lst;
                        card_basename card]) w2 = Ret () w'.
Proof.
  intros Hname Hclosed Hlists Hcards. unfold retrieve_trello_data.
  change (for_each [b] ?f) with (f b ;; mret ()).
  intros ([] & wz & Hbody & [= <-])%bind_ret_inv.
  rewrite decide_False in Hbody by done.
  apply bind_ret_inv in Hbody as ([] & w1 & Hwipe & Hrest).
  rewrite Hclosed, Hlists in Hrest.
  apply bind_ret_inv in Hrest as ([] & w1' & [= <-] & Hrest).
  change (for_each [lst] ?f) with (f lst ;; mret ()) in Hrest.
  apply bind_ret_inv in Hrest as ([] & wy & Hlist & [= <-]).
  apply bind_ret_inv in Hlist as ([] & w2 & Hmk & Hcardsrun).
  rewrite Hcards in Hcardsrun.
  change (for_each [card] ?f) with (f card ;; mret ()) in Hcardsrun.
  apply bind_ret_inv in Hcardsrun as ([] & wx & Hdl & [= <-]).
  by exists w1, w2.
Qed.

(** X9.  Link integrity.  A run on one board (not the welcome board,
    without archived card) with one list holding one card, from a state
    where the result directory [R] is reached, the directory of the board
    is a directory or is missing (the command [rm -r] on it being a plain
    one-word command), and no blob is a symbolic link: when the run
    returns, the directory of the board holds the directory of the list,
    which holds the links [<name>.yaml] and [<name>.txt] of the card, and
    nothing else; the target of each link is the path of the blob relative
    to the directory of the link, [../../../raw_tickets/<id><ext>], where
    [<id>] is the id of the card (rewritten as [normpath] does); and the
    link resolves to that blob, a regular file of [raw_tickets]. *)
Theorem link_integrity (root : string) (py : PyLib) (b : Board) (lst : TList)
    (card : Card) (w w' : world) (R : path) :
  board_name b ≠ "Welcome Board" →
  board_closed_cards b = [] → board_all_lists b = [lst] → list_cards lst = [card] →
  root_at root w R →
  shell_plain (normpath root ["current"; board_dirname b]) →
  dir_or_free (w_fs w) R ["current"; sanitize (board_dirname b)] →
  (∀ y t, w_fs w !! (R ++ ["raw_tickets"; y]) ≠ Some (Link t)) →
  retrieve_trello_data root py [b] w = Ret () w' →
  let T := R ++ ["current"; sanitize (board_dirname b)] in
  let L := sanitize (list_name_path lst) in
  let name := λ ext, sanitize (card_basename card) +:+ ext in
  let blob := λ ext, R ++ ["raw_tickets"; sanitize (card_id card) +:+ ext] in
  (∀ k n, w_fs w' !! (T ++ k) = Some n ↔
      (k = [] ∧ n = Dir) ∨ (k = [L] ∧ n = Dir)
      ∨ (k = [L; name ".yaml"] ∧ n = Link (card_target card ".yaml"))
      ∨ (k = [L; name ".txt"] ∧ n = Link (card_target card ".txt")))
  ∧ (∀ ext, ext ∈ [".yaml"; ".txt"] →
      let link_path :=
        normpath root ["current"; board_dirname b; list_name_path lst;
                       card_basename card] +:+ ext in
      let blob_path := normpath root ["raw_tickets"; card_id card] +:+ ext in
      OsPath.relpath (Fs.getcwd w') blob_path (OsPath.dirname link_path)
      = Some (card_target card ext)
      ∧ Fs.lstat w' link_path
        = Fs.Found (T ++ [L; name ext]) (Link (card_target card ext))
      ∧ ∃ data, Fs.stat w' blob_path = Fs.Found (blob ext) (File data)
                ∧ Fs.stat w' link_path = Fs.Found (blob ext) (File data)).
Proof.
  intros Hname Hclosed Hlists Hcards Hroot Hplain Hstate Hnolink Hrun T L name blob.
  pose proof (ordinary_underscore' (board_id b) (board_name b)) as Hbd.
  pose proof (ordinary_underscore' (list_id lst) (list_name lst)) as Hld.
  fold (board_dirname b) in Hbd. fold (list_name_path lst) in Hld.
  destruct (retrieve_one_card _ _ _ _ _ _ _ Hname Hclosed Hlists Hcards Hrun)
    as (w1 & w2 & Hwipe & Hmk & Hdl).
  (* the directory of the board is emptied *)
  destruct (wipe_dir_emptied root w R ["current"] (board_dirname b) Hroot)
    as (w1' & Hwipe' & Hwiped & _);
    [by apply board_ordinary|exact Hplain|exact Hstate|].
  simpl in Hwipe', Hwiped. rewrite Hwipe in Hwipe'. injection Hwipe' as <-.
  (* the directory of the list is made *)
  rewrite (mkdir_list root R _ _ w w1 Hbd Hld Hroot Hwiped) in Hmk. injection Hmk as <-.
  pose proof (after_mkdir_root root R _ (list_name_path lst) w w1 Hroot Hwiped) as Hroot2.
  pose proof (after_mkdir_walk R _ (list_name_path lst) w w1 Hbd Hld Hwiped) as Hwalk2.
  pose proof (after_mkdir_empty R (board_dirname b) (list_name_path lst) w w1 Hwiped)
    as Hempty2.
  pose proof (after_mkdir_board R (board_dirname b) (list_name_path lst) w w1 Hbd Hwiped)
    as Hboard2.
  pose proof (after_mkdir_blobs R (board_dirname b) (list_name_path lst) w w1 Hwiped)
    as Hblobs2.
  pose proof (after_mkdir_raw R (board_dirname b) (list_name_path lst) w w1 Hwiped)
    as Hraw2.
  set (w2 := set_fs _ w1) in *.
  (* the two files of the card *)
  destruct (dl_card_links root py R _ _ card w2 w' Hbd Hld Hroot2 Hwalk2 Hempty2)
    as (dy & dt & Hfs' & Hcwd' & Hrt); [|exact Hdl|].
  { intros y t. rewrite Hblobs2. apply Hnolink. }
  fold L in Hfs', Hwalk2, Hboard2.
  change (card_target card ".txt") with (card_target card ".txt") in Hfs'.
  assert (∀ x, w_fs w' !! (R ++ x) =
               if decide (["current"; sanitize (board_dirname b); L; name ".txt"] = x)
               then Some (Link (card_target card ".txt"))
               else if decide (["raw_tickets"; sanitize (card_id card) +:+ ".txt"] = x)
               then Some (File dt)
               else if decide (["current"; sanitize (board_dirname b); L; name ".yaml"] = x)
               then Some (Link (card_target card ".yaml"))
               else if decide (["raw_tickets"; sanitize (card_id card) +:+ ".yaml"] = x)
               then Some (File dy)
               else w_fs w2 !! (R ++ x)) as Hlook.
  { intros x. rewrite Hfs'. by rewrite !lookup_insert_below. }
  assert (∀ k, k `prefix_of` R ++ ["current"; sanitize (board_dirname b); L] →
               w_fs w2 !! k = Some Dir → w_fs w' !! k = Some Dir) as Hag.
  { intros k Hk Hd. rewrite Hfs'.
    eapply insert_keeps_dir; [exact Hk| |].
    { intros Hp. apply prefix_length in Hp. rewrite !length_app in Hp. simpl in Hp. lia. }
    eapply insert_keeps_dir; [exact Hk| |].
    { intros Hp. apply prefix_app_inv in Hp. by destruct Hp as [? [=]]. }
    eapply insert_keeps_dir; [exact Hk| |].
    { intros Hp. apply prefix_length in Hp. rewrite !length_app in Hp. simpl in Hp. lia. }
    eapply insert_keeps_dir; [exact Hk| |exact Hd].
    intros Hp. apply prefix_app_inv in Hp. by destruct Hp as [? [=]]. }
  assert (root_at root w' R) as Hroot'.
  { apply (root_at_agree root w2 w' R); [done| |done].
    intros k Hk. apply Hag. by apply prefix_app_r. }
  assert (Fs.walk (w_fs w') R ["current"; sanitize (board_dirname b); L]
          = Fs.Found (R ++ ["current"; sanitize (board_dirname b); L]) Dir) as Hwalk'.
  { eapply walk_agree; [|exact Hag|exact Hwalk2].
    apply ordinary_not_dotdot. by apply dir_ordinary. }
  split.
  - (* the directory of the board holds exactly this *)
    intros k n. unfold T. rewrite <-app_assoc. simpl.
    rewrite Hlook, Hboard2.
    assert (name ".yaml" ≠ name ".txt") as Hyt by apply yaml_not_txt.
    repeat case_decide; simplify_eq;
      (split; [intros ?; simplify_eq; auto 6
              |intros [[? ?]|[[? ?]|[[? ?]|[? ?]]]]; by simplify_eq]).
  - (* each link leads to its blob *)
    intros ext Hext link_path blob_path.
    assert (OsPath.relpath (Fs.getcwd w') blob_path (OsPath.dirname link_path)
            = Some (card_target card ext)) as Hrel.
    { apply elem_of_cons in Hext as [->|Hext];
        [|apply elem_of_cons in Hext as [->|Hext]; [|by apply elem_of_nil in Hext]].
      - apply relpath_card; [done|done|apply ordinary_yaml|done|done|apply getcwd_abs].
      - apply relpath_card; [done|done|apply ordinary_txt|done|done|apply getcwd_abs]. }
    split; [exact Hrel|].
    assert (w_fs w' !! (R ++ ["raw_tickets"]) = Some Dir) as Hrt'.
    { rewrite Hlook. by repeat (rewrite decide_False by done). }
    apply elem_of_cons in Hext as [->|Hext];
      [|apply elem_of_cons in Hext as [->|Hext]; [|by apply elem_of_nil in Hext]].
    + assert (w_fs w' !! (R ++ ["current"; sanitize (board_dirname b); L]
                            ++ [name ".yaml"]) = Some (Link (card_target card ".yaml")))
        as Hl.
      { simpl. rewrite Hlook.
        rewrite decide_False by (intros [= Heq]; symmetry in Heq; by apply yaml_not_txt in Heq).
        rewrite decide_False by done. by rewrite decide_True. }
      assert (w_fs w' !! blob ".yaml" = Some (File dy)) as Hb.
      { unfold blob. rewrite Hlook. rewrite decide_False by done.
        rewrite decide_False by (intros [= Heq]; symmetry in Heq; by apply yaml_not_txt in Heq).
        rewrite decide_False by done. by rewrite decide_True. }
      split.
      * unfold T. rewrite <-app_assoc.
        apply (lstat_link root R _ _ _ (card_id card) ".yaml"); try done.
        apply (ordinary_underscore _ _ ".yaml" eq_refl).
      * exists dy. split.
        -- apply (stat_blob root R); try done. apply ordinary_yaml.
        -- apply (stat_link root R); try done;
             [apply (ordinary_underscore _ _ ".yaml" eq_refl)|apply ordinary_yaml].
    + assert (w_fs w' !! (R ++ ["current"; sanitize (board_dirname b); L]
                            ++ [name ".txt"]) = Some (Link (card_target card ".txt")))
        as Hl.
      { simpl. rewrite Hlook. by rewrite decide_True. }
      assert (w_fs w' !! blob ".txt" = Some (File dt)) as Hb.
      { unfold blob. rewrite Hlook. rewrite decide_False by done. by rewrite decide_True. }
      split.
      * unfold T. rewrite <-app_assoc.
        apply (lstat_link root R _ _ _ (card_id card) ".txt"); try done.
        apply (ordinary_underscore _ _ ".txt" eq_refl).
      * exists dt. split.
        -- apply (stat_blob root R); try done. apply ordinary_txt.
        -- apply (stat_link root R); try done;
             [apply (ordinary_underscore _ _ ".txt" eq_refl)|apply ordinary_txt].
Qed.

Lemma link_integrity_witness :
  let R := ["home"; "u"; "results"] in
  let b := Example.board in
  let lst := {| list_id := "l"; list_name := "L"; list_cards := [Example.card] |} in
  let link_path :=
    normpath Example.root ["current"; board_dirname b; list_name_path lst;
                           card_basename Example.card] +:+ ".yaml" in
  let blob_path := normpath Example.root ["raw_tickets"; card_id Example.card] +:+ ".yaml" in
  root_at Example.root Example.w1 R
  ∧ shell_plain (normpath Example.root ["current"; board_dirname b])
  ∧ dir_or_free (w_fs Example.w1) R ["current"; sanitize (board_dirname b)]
  ∧ ∃ w', retrieve_trello_data Example.root Example.py [b] Example.w1 = Ret () w'
      ∧ OsPath.relpath (Fs.getcwd w') blob_path (OsPath.dirname link_path)
        = Some (card_target Example.card ".yaml")
      ∧ Fs.lstat w' link_path
        = Fs.Found ((R ++ ["current"; sanitize (board_dirname b)])
                    ++ [sanitize (list_name_path lst);
                        sanitize (card_basename Example.card) +:+ ".yaml"])
            (Link (card_target Example.card ".yaml"))
      ∧ ∃ data,
          Fs.stat w' blob_path
          = Fs.Found (R ++ ["raw_tickets"; sanitize (card_id Example.card) +:+ ".yaml"])
              (File data)
          ∧ Fs.stat w' link_path
            = Fs.Found (R ++ ["raw_tickets"; sanitize (card_id Example.card) +:+ ".yaml"])
                (File data).
Proof.
  intros R b lst link_path blob_path.
  assert (H1 : root_at Example.root Example.w1 R).
  { split; [|by vm_compute].
    vm_compute. repeat constructor. discriminate. }
  assert (H2 : shell_plain (normpath Example.root ["current"; board_dirname b]))
    by (by vm_compute).
  assert (H3 : dir_or_free (w_fs Example.w1) R ["current"; sanitize (board_dirname b)])
    by (left; by vm_compute).
  assert (H4 : ∀ y t, w_fs Example.w1 !! (R ++ ["raw_tickets"; y]) ≠ Some (Link t)).
  { intros y t Hy.
    assert (map_Forall (λ (_ : path) (n : node), ∀ t, n ≠ Link t) (w_fs Example.w1)) as Hall.
    { apply map_Forall_to_list. vm_compute. repeat (constructor; [discriminate|]).
      constructor. }
    by apply (Hall _ _ Hy t). }
  split; [exact H1|]. split; [exact H2|]. split; [exact H3|].
  assert (returns (retrieve_trello_data Example.root Example.py [b] Example.w1) = true)
    as Hr by (by vm_compute).
  destruct (retrieve_trello_data Example.root Example.py [b] Example.w1)
    as [[] w'|e w'|l] eqn:Hrun; [|done..].
  exists w'. split; [done|].
  refine (proj2 (link_integrity Example.root Example.py b lst Example.card
Example.w1 w' R _ eq_refl eq_refl eq_refl H1 H2 H3 H4 Hrun)
            ".yaml" _).
  - discriminate.
  - by left.
Defined.

(** ** More on the files of a card *)

Lemma walk_absent_init fs cur l c q :
  Forall ordinary (l ++ [c]) → Fs.walk fs cur (l ++ [c]) = Fs.Absent q →
  Fs.walk fs cur l = Fs.Found (cur ++ l) Dir ∧ fs !! (cur ++ l ++ [c]) = None.
Proof.
  revert cur. induction l as [|x l IH]; intros cur Hord H.
  - simpl in Hord. apply Forall_cons in Hord as [Hc _].
    simpl app in H. rewrite walk_ordinary in H by done. simpl. rewrite app_nil_r.
    split; [done|]. by destruct (fs !! (cur ++ [c])) as [[| |]|].
  - simpl in Hord. apply Forall_cons in Hord as [Hx Hl].
    change ((x :: l) ++ [c]) with (x :: (l ++ [c])) in H.
    rewrite walk_ordinary in H |- * by done.
    destruct (fs !! (cur ++ [x])) as [[|d|t]|] eqn:E.
    + destruct (IH _ Hl H) as [H1 H2]. by rewrite H1, <-!app_assoc in *.
    + by destruct l.
    + by destruct l.
    + by destruct l.
Qed.

Section Again.
Variables (root : string) (R : path) (bd ld cn id ext : string).
Hypothesis Hbd : ordinary (sanitize bd).
Hypothesis Hld : ordinary (sanitize ld).
Hypothesis Hcn : ordinary (sanitize cn +:+ ext).
Hypothesis Hid : ordinary (sanitize id +:+ ext).
Hypothesis Hext1 : Str.count "/" ext = 0.
Hypothesis Hext2 : Str.count " " ext = 0.

#[local] Abbreviation blob_path := (normpath root ["raw_tickets"; id] +:+ ext).
#[local] Abbreviation link_path := (normpath root ["current"; bd; ld; cn] +:+ ext).
#[local] Abbreviation sL := ["current"; sanitize bd; sanitize ld].
#[local] Abbreviation blob := (R ++ ["raw_tickets"; sanitize id +:+ ext]).
#[local] Abbreviation link := (R ++ sL ++ [sanitize cn +:+ ext]).
#[local] Abbreviation target := ("../../../raw_tickets/" +:+ (sanitize id +:+ ext)).

Lemma insert_blob_keeps (fs : gmap path node) (n : node) k :
    k `prefix_of` R ++ sL → fs !! k = Some Dir → <[blob := n]> fs !! k = Some Dir.
  Proof.
    intros Hk Hd. rewrite lookup_insert_ne; [done|].
    intros Heq. by apply (not_blob_prefix R bd ld id ext k).
  Qed.

Lemma insert_link_keeps (fs : gmap path node) (n : node) k :
    k `prefix_of` R ++ sL → fs !! k = Some Dir → <[link := n]> fs !! k = Some Dir.
  Proof.
    intros Hk Hd. rewrite lookup_insert_ne; [done|].
    intros <-. apply prefix_length in Hk. rewrite !length_app in Hk. simpl in Hk. lia.
  Qed.

  (** The blob cannot be written where [raw_tickets] is missing. *)
Lemma write_card_no_raw_tickets w w' data :
    root_at root w R → w_fs w !! (R ++ ["raw_tickets"]) = None →
    write_card blob_path link_path data w ≠ Ret () w'.
  Proof.
    intros Hroot Hrt (q & p & r & _ & Hq & _)%write_card_ret.
    unfold can_write in Hq.
    rewrite blob_path_eq, (stat_normpath _ _ R) in Hq
      by first [done|by apply blob_ordinary].
    rewrite blob_comps, walk_ordinary, Hrt, follow_err in Hq
      by first [done|apply ordinary_raw_tickets].
    by destruct Hq as [?|[? ?]].
  Qed.

  (** A second call on the same paths finds the link of the first. *)
Lemma write_card_again wA wB data data2 :
    root_at root wA R →
    (∀ t, w_fs wA !! blob ≠ Some (Link t)) →
    write_card blob_path link_path data wA = Ret () wB →
    write_card blob_path link_path data2 wB
    = Raise (OSError EEXIST) (written blob data2 wB).
  Proof.
    intros Hroot Hnolink Hret.
    apply write_card_ret in Hret as (q & p & r & Hr & Hq & Hl & ->).
    destruct (write_card_blob root R id ext Hid Hext1 Hext2 wA Hroot Hnolink q Hq)
      as [Hrt ->].
    rewrite relpath_card in Hr by first [done|apply getcwd_abs]. injection Hr as <-.
    (* the state after the first write *)
    assert (root_at root (written blob data wA) R) as HrootW.
    { apply (root_at_agree root wA _ R); [reflexivity| |exact Hroot].
      intros k Hk. simpl. apply insert_blob_keeps. by apply prefix_app_r. }
    rewrite link_path_eq, (lstat_normpath _ _ R) in Hl
      by first [done|by apply link_ordinary].
    rewrite link_comps in Hl by done.
    assert (Forall ordinary (sL ++ [sanitize cn +:+ ext])) as Hlo.
    { rewrite <-(link_comps bd ld cn ext) by done. by apply link_ordinary. }
    destruct (walk_absent_at _ _ _ _ Hlo Hl) as [-> _].
    destruct (walk_absent_init _ _ _ _ _ Hlo Hl) as [HdirW HfreeW].
    (* the state the second call starts from *)
    set (wB := linked link target (written blob data wA)).
    assert (∀ k, k `prefix_of` R ++ sL →
                 w_fs (written blob data wA) !! k = Some Dir → w_fs wB !! k = Some Dir)
      as HagB.
    { intros k Hk Hd. simpl. by apply insert_link_keeps. }
    assert (root_at root wB R) as HrootB.
    { apply (root_at_agree root (written blob data wA) wB R); [reflexivity| |exact HrootW].
      intros k Hk. apply HagB. by apply prefix_app_r. }
    assert (w_fs wB !! (R ++ ["raw_tickets"]) = Some Dir) as HrtB.
    { simpl. rewrite lookup_insert_below, decide_False by done.
      by rewrite lookup_insert_below, decide_False. }
    assert (w_fs wB !! blob = Some (File data)) as HblobB.
    { simpl. rewrite lookup_insert_below, decide_False by done.
      apply lookup_insert_eq. }
    assert (can_write wB blob_path blob) as HqB.
    { right. exists data. by apply (stat_blob root R id ext). }
    rewrite (write_card_writable _ _ _ _ blob target).
    2:{ apply relpath_card; first [done|apply getcwd_abs]. }
    2:{ exact HqB. }
    (* the link is in the way *)
    set (wC := written blob data2 wB).
    assert (root_at root wC R) as HrootC.
    { apply (root_at_agree root wB wC R); [reflexivity| |exact HrootB].
      intros k Hk. simpl. apply insert_blob_keeps. by apply prefix_app_r. }
    rewrite (lstat_link root R bd ld cn id ext Hbd Hld Hcn Hext1 Hext2 wC HrootC).
    - done.
    - eapply walk_agree; [|intros k Hk; apply insert_blob_keeps; exact Hk|].
      + apply ordinary_not_dotdot. by apply dir_ordinary.
      + eapply walk_agree; [|exact HagB|exact HdirW].
        apply ordinary_not_dotdot. by apply dir_ordinary.
    - simpl. rewrite lookup_insert_below, decide_False by done.
      apply lookup_insert_eq.
  Qed.
End Again.

(** X2.  The script never makes [raw_tickets]: from a state where the
    result directory [R] is reached and holds no entry [raw_tickets],
    [dl_card] does not return, whatever the card and the path of its
    link. *)
Theorem dl_card_needs_raw_tickets (root : string) (py : PyLib) (R : path)
    (card : Card) (tree_path : string) (w : world) :
  root_at root w R → w_fs w !! (R ++ ["raw_tickets"]) = None →
  ∀ w', dl_card root py card tree_path w ≠ Ret () w'.
Proof.
  intros Hroot Hrt w' Hdl.
  destruct (dl_card_files _ _ _ _ _ _ Hdl)
    as (w1 & w2 & w3 & dy & dt & (Hfs1 & Hcwd1 & _) & Hwy & _).
  apply write_card_ret in Hwy as (q & p & r & _ & Hq & _).
  assert (root_at root w1 R) as Hroot1 by (by eapply root_at_same).
  unfold can_write in Hq.
  rewrite blob_path_eq, (stat_normpath _ _ R) in Hq
    by first [done|apply blob_ordinary; [apply ordinary_yaml|done..]].
  rewrite blob_comps, walk_ordinary, Hfs1, Hrt, follow_err in Hq
    by first [done|apply ordinary_raw_tickets].
  by destruct Hq as [?|[? ?]].
Qed.

Lemma dl_card_needs_raw_tickets_witness :
  root_at Example.root Example.w3 ["home"; "u"; "results"]
  ∧ w_fs Example.w3 !! (["home"; "u"; "results"] ++ ["raw_tickets"]) = None
  ∧ ∀ w', dl_card Example.root Example.py Example.card Example.tree_path Example.w3
          ≠ Ret () w'.
Proof.
  assert (H1 : root_at Example.root Example.w3 ["home"; "u"; "results"]).
  { split; [|by vm_compute]. vm_compute. repeat constructor. discriminate. }
  assert (H2 : w_fs Example.w3 !! (["home"; "u"; "results"] ++ ["raw_tickets"]) = None)
    by (by vm_compute).
  split; [exact H1|]. split; [exact H2|].
  exact (dl_card_needs_raw_tickets Example.root Example.py ["home"; "u"; "results"]
Example.card Example.tree_path Example.w3 H1 H2).
Defined.

(** X3.  A link in the way.  When [write_card] has returned for the blob
    and the link of a card, a second call on the same paths (the directory
    of the board not being wiped in between) rewrites the blob and then
    fails: [symlink] raises [OSError EEXIST] on the link of the first
    call. *)
Theorem write_card_again_fails (root : string) (R : path) (b : Board) (lst : TList)
    (card : Card) (ext data data2 : string) (wA wB : world) :
  let blob_path := normpath root ["raw_tickets"; card_id card] +:+ ext in
  let link_path :=
    normpath root ["current"; board_dirname b; list_name_path lst; card_basename card]
    +:+ ext in
  let blob := R ++ ["raw_tickets"; sanitize (card_id card) +:+ ext] in
  ext ∈ [".yaml"; ".txt"] →
  root_at root wA R →
  (∀ t, w_fs wA !! blob ≠ Some (Link t)) →
  write_card blob_path link_path data wA = Ret () wB →
  write_card blob_path link_path data2 wB
  = Raise (OSError EEXIST) (written blob data2 wB).
Proof.
  intros blob_path link_path blob Hext Hroot Hnolink Hret.
  pose proof (ordinary_underscore' (board_id b) (board_name b)) as Hbd.
  pose proof (ordinary_underscore' (list_id lst) (list_name lst)) as Hld.
  apply elem_of_cons in Hext as [->|Hext];
    [|apply elem_of_cons in Hext as [->|Hext]; [|by apply elem_of_nil in Hext]].
  - apply (write_card_again root R _ _ _ _ ".yaml" Hbd Hld
             (ordinary_underscore _ _ ".yaml" eq_refl) (ordinary_yaml _)
             eq_refl eq_refl wA wB data data2 Hroot Hnolink Hret).
  - apply (write_card_again root R _ _ _ _ ".txt" Hbd Hld
             (ordinary_underscore _ _ ".txt" eq_refl) (ordinary_txt _)
             eq_refl eq_refl wA wB data data2 Hroot Hnolink Hret).
Qed.

Lemma write_card_again_fails_witness :
  let R := ["home"; "u"; "results"] in
  let lst := {| list_id := "l"; list_name := "L"; list_cards := [Example.card] |} in
  let blob_path := normpath Example.root ["raw_tickets"; card_id Example.card] +:+ ".yaml" in
  let link_path :=
    normpath Example.root ["current"; board_dirname Example.board; list_name_path lst;
                           card_basename Example.card] +:+ ".yaml" in
  let blob := R ++ ["raw_tickets"; sanitize (card_id Example.card) +:+ ".yaml"] in
  let wB := linked ["home"; "u"; "results"; "current"; "b_B"; "l_L"; "1_x_y.yaml"]
              "../../../raw_tickets/abc.yaml" (written blob "yaml" Example.w1) in
  write_card blob_path link_path "yaml" Example.w1 = Ret () wB
  ∧ write_card blob_path link_path "again" wB
    = Raise (OSError EEXIST) (written blob "again" wB).
Proof.
  intros R lst blob_path link_path blob wB.
  assert (H1 : root_at Example.root Example.w1 R).
  { split; [|by vm_compute]. vm_compute. repeat constructor. discriminate. }
  assert (H2 : ∀ t, w_fs Example.w1 !! blob ≠ Some (Link t)).
  { intros t. vm_compute. discriminate. }
  assert (H3 : write_card blob_path link_path "yaml" Example.w1 = Ret () wB).
  { vm_cast_no_check (@eq_refl _ (@Ret unit () wB)). }
  split; [exact H3|].
  refine (write_card_again_fails Example.root R Example.board lst Example.card
            ".yaml" "yaml" "again" Example.w1 wB _ H1 H2 H3).
  by left.
Defined.

(** X4.  The target of the links.  Whatever the result directory and
    the working directory, the relative path [write_card] computes from
    the directory of the link of a card (the directory of its list, or
    [archives] for an archived card) to its blob is
    [../../../raw_tickets/<id><ext>], [<id>] being the id of the card with
    its slashes and spaces rewritten: the links do not depend on where the
    repository is. *)
Theorem link_target_fixed (root : string) (w : world) (b : Board) (lst : TList)
    (card : Card) (archived : bool) :
  let place := if archived then "archives" else list_name_path lst in
  let link_path := λ ext,
    normpath root ["current"; board_dirname b; place; card_basename card] +:+ ext in
  let blob_path := λ ext, normpath root ["raw_tickets"; card_id card] +:+ ext in
  OsPath.relpath (Fs.getcwd w) (blob_path ".yaml") (OsPath.dirname (link_path ".yaml"))
  = Some (card_target card ".yaml")
  ∧ OsPath.relpath (Fs.getcwd w) (blob_path ".txt") (OsPath.dirname (link_path ".txt"))
    = Some (card_target card ".txt").
Proof.
  intros place link_path blob_path.
  pose proof (ordinary_underscore' (board_id b) (board_name b)) as Hbd.
  assert (ordinary (sanitize place)) as Hld.
  { destruct archived; [by unfold ordinary; split_and!|].
    apply ordinary_underscore'. }
  split.
  - apply relpath_card; [done|done|apply ordinary_yaml|done|done|apply getcwd_abs].
  - apply relpath_card; [done|done|apply ordinary_txt|done|done|apply getcwd_abs].
Qed.

(** ** [mkdir] *)

Lemma add_dirs_keeps (fs : gmap path node) (base : path) (need : list string) k n :
  free_from fs base need → fs !! k = Some n → add_dirs fs base need !! k = Some n.
Proof.
  intros [Hne Hfree] Hk. rewrite lookup_add_dirs_other; [done|].
  intros i Hi ->. specialize (Hfree (drop 1 (take i need))).
  assert (take 1 need ++ drop 1 (take i need) = take i need) as Heq.
  { rewrite <-(take_drop 1 (take i need)) at 2. f_equal.
    rewrite take_take. f_equal. lia. }
  rewrite Heq in Hfree.
  assert (Some n = None) as [=]. rewrite <-Hk. exact Hfree.
Qed.

(** X5.  [mkdir] on a path below the result directory that is a
    directory or is free: the call returns; the path is then a directory
    reached through directories, the missing directories on the way having
    been made; no entry of the file system is removed or replaced; and a
    second call returns without changing anything. *)
Theorem mkdir_twice (root : string) (w : world) (R : path) (frags : list string)
    (l : string) :
  root_at root w R → Forall ordinary (map sanitize (frags ++ [l])) →
  dir_or_free (w_fs w) R (map sanitize (frags ++ [l])) →
  ∃ w1, mkdir root (frags ++ [l]) w = Ret () w1
        ∧ Fs.walk (w_fs w1) R (map sanitize (frags ++ [l]))
          = Fs.Found (R ++ map sanitize (frags ++ [l])) Dir
        ∧ (∀ k n, w_fs w !! k = Some n → w_fs w1 !! k = Some n)
        ∧ w_heap w1 = w_heap w ∧ w_cwd w1 = w_cwd w ∧ w_log w1 = w_log w
        ∧ mkdir root (frags ++ [l]) w1 = Ret () w1.
Proof.
  intros Hroot Hord [Hdir|(have & need & Hc & Hhave & Hfree)].
  - exists w. pose proof (mkdir_exists root w R frags l Hroot Hord _ Dir Hdir) as Hmk.
    rewrite Hmk by done. by split_and!.
  - set (w1 := set_fs (add_dirs (w_fs w) (R ++ have) need) w).
    assert (Fs.walk (w_fs w1) R (map sanitize (frags ++ [l]))
            = Fs.Found (R ++ map sanitize (frags ++ [l])) Dir) as Hwalk1.
    { rewrite Hc in Hord |- *. apply Forall_app in Hord as [Hoh Hon].
      assert (Fs.walk (w_fs w1) R have = Fs.Found (R ++ have) Dir) as Hh.
      { eapply walk_agree; [by apply ordinary_not_dotdot| |exact Hhave].
        intros k _. apply grows_add_dirs. }
      rewrite (walk_app _ _ _ _ _ Hh), app_assoc. by apply walk_add_dirs. }
    assert (root_at root w1 R) as Hroot1.
    { apply (root_at_grows root w w1 R); [done|apply grows_add_dirs|done]. }
    exists w1. split; [by apply mkdir_creates|]. split; [done|].
    split; [intros k n; by apply add_dirs_keeps|].
    split; [done|]. split; [done|]. split; [done|].
    by apply (mkdir_exists root w1 R frags l Hroot1 Hord _ Dir Hwalk1).
Qed.

Lemma mkdir_twice_witness :
  let R := ["home"; "u"; "results"] in
  root_at Example.root Example.w1 R
  ∧ dir_or_free (w_fs Example.w1) R (map sanitize (["current"; "b_B"] ++ ["new list"]))
  ∧ ∃ w1, mkdir Example.root (["current"; "b_B"] ++ ["new list"]) Example.w1 = Ret () w1
          ∧ Fs.walk (w_fs w1) R (map sanitize (["current"; "b_B"] ++ ["new list"]))
            = Fs.Found (R ++ map sanitize (["current"; "b_B"] ++ ["new list"])) Dir
          ∧ (∀ k n, w_fs Example.w1 !! k = Some n → w_fs w1 !! k = Some n)
          ∧ w_heap w1 = w_heap Example.w1 ∧ w_cwd w1 = w_cwd Example.w1
          ∧ w_log w1 = w_log Example.w1
          ∧ mkdir Example.root (["current"; "b_B"] ++ ["new list"]) w1 = Ret () w1.
Proof.
  intros R.
  assert (H1 : root_at Example.root Example.w1 R).
  { split; [|by vm_compute]. vm_compute. repeat constructor. discriminate. }
  assert (H2 : Forall ordinary (map sanitize (["current"; "b_B"] ++ ["new list"]))).
  { vm_compute. repeat constructor; discriminate. }
  assert (H3 : dir_or_free (w_fs Example.w1) R
                 (map sanitize (["current"; "b_B"] ++ ["new list"]))).
  { right. exists ["current"; "b_B"], ["new_list"].
    split; [by vm_compute|]. split; [by vm_compute|]. split; [done|].
    intros k. apply eq_None_not_Some. intros [n Hn].
    assert (map_Forall (λ (k : path) (_ : node),
              ¬ (R ++ ["current"; "b_B"; "new_list"]) `prefix_of` k) (w_fs Example.w1))
      as Hall by (by apply (bool_decide_unpack _); vm_compute).
    apply (Hall _ _ Hn). unfold R. simpl. by do 6 apply prefix_cons; apply prefix_nil. }
  split; [exact H1|]. split; [exact H3|].
  exact (mkdir_twice Example.root Example.w1 R ["current"; "b_B"] "new list" H1 H2 H3).
Defined.

(** X6.  [mkdir] where something is already stored (a directory, or a
    regular file): the call returns without error and changes nothing; in
    particular it makes no directory where a file has the name. *)
Theorem mkdir_existing_entry (root : string) (w : world) (R : path)
    (frags : list string) (l : string) (q : path) (n : node) :
  root_at root w R → Forall ordinary (map sanitize (frags ++ [l])) →
  Fs.walk (w_fs w) R (map sanitize (frags ++ [l])) = Fs.Found q n →
  (∀ t, n ≠ Link t) →
  mkdir root (frags ++ [l]) w = Ret () w.
Proof.
  intros Hroot Hord Hw Hn. by apply (mkdir_exists root w R frags l Hroot Hord q n).
Qed.

Lemma mkdir_existing_entry_witness :
  mkdir Example.root (["raw_tickets"] ++ ["abc.yaml"]) Example.w2 = Ret () Example.w2.
Proof.
  apply (mkdir_existing_entry Example.root Example.w2 ["home"; "u"; "results"]
           ["raw_tickets"] "abc.yaml"
           ["home"; "u"; "results"; "raw_tickets"; "abc.yaml"] (File "yaml")).
  - split; [|by vm_compute]. vm_compute. repeat constructor. discriminate.
  - vm_compute. repeat constructor; discriminate.
  - by vm_compute.
  - discriminate.
Defined.

(** ** The boards of a run *)

(** X11.  The default board is skipped: the boards named
    [Welcome Board], wherever they are in the list, contribute nothing to
    a run, neither a command nor a file; the run is the run on the other
    boards, in their order. *)
Theorem retrieve_skips_welcome (root : string) (py : PyLib) (boards : list Board)
    (w : world) :
  retrieve_trello_data root py boards w
  = retrieve_trello_data root py
      (filter (λ b, board_name b ≠ "Welcome Board") boards) w.
Proof.
  unfold retrieve_trello_data. revert w.
  induction boards as [|b boards IH]; intros w; [done|].
  destruct (decide (board_name b = "Welcome Board")) as [Hb|Hb].
  - rewrite filter_cons_False by (by intros ?).
    change (for_each (b :: boards) ?f) with (f b ;; for_each boards f).
    rewrite bind_unfold, decide_True by done. apply IH.
  - rewrite filter_cons_True by done.
    change (for_each (b :: ?l) ?f) with (f b ;; for_each l f).
    rewrite !bind_unfold.
    match goal with |- match ?m with _ => _ end = _ => destruct m as [[] w1|e w1|l] end;
      [apply IH|done..].
Qed.

(** ** What a run writes to the log *)

Section Silent.
Lemma silent_readonly {A} (m : M A) : readonly m → silent m.
  Proof. intros Hro w. specialize (Hro w). destruct (m w); simpl; by subst. Qed.

Lemma silent_ret {A} (a : A) : silent (mret a).
  Proof. by intros w. Qed.

Lemma silent_raise {A} e : silent (@raise A e).
  Proof. by intros w. Qed.

Lemma silent_outside {A} : silent (@outside A).
  Proof. by intros w. Qed.

Lemma silent_bind {A B} (m : M A) (f : A → M B) :
    silent m → (∀ a, silent (f a)) → silent (m ≫= f).
  Proof.
    intros Hm Hf w. rewrite bind_unfold. specialize (Hm w).
    destruct (m w) as [a w1|e w1|l]; simpl in *; [|done..].
    by rewrite Hf.
  Qed.

Lemma silent_for_each {A} (l : list A) (body : A → M unit) :
    (∀ x, silent (body x)) → silent (for_each l body).
  Proof.
    intros Hb. induction l as [|x l IH]; simpl; [apply silent_ret|].
    apply silent_bind; [done|]. by intros _.
  Qed.

Lemma silent_map_each {A B} (l : list A) (f : A → M B) :
    (∀ x, silent (f x)) → silent (map_each l f).
  Proof.
    intros Hf. induction l as [|x l IH]; simpl; [apply silent_ret|].
    apply silent_bind; [done|]. intros y.
    apply silent_bind; [done|]. intros ys. apply silent_ret.
  Qed.

Lemma silent_ignoring_eexist (m : M unit) : silent m → silent (ignoring_eexist m).
  Proof.
    intros Hm w. unfold ignoring_eexist. specialize (Hm w).
    destruct (m w) as [a w1|e w1|l]; [done| |done].
    by destruct e as [| | | | |[]].
  Qed.

Lemma silent_modify_heap (f : world → gmap loc pydict) :
    silent (modify (λ w, set_heap (f w) w)).
  Proof. by intros w. Qed.

Lemma silent_alloc d : silent (Py.alloc d).
  Proof. by intros w. Qed.

Lemma silent_setitem l k v : silent (Py.setitem l k v).
  Proof.
    apply silent_bind; [apply silent_readonly, readonly_the_dict|].
    intros d. by intros w.
  Qed.

Lemma silent_delitem v k : silent (Py.delitem v k).
  Proof.
    destruct v; try apply silent_raise.
    apply silent_bind; [apply silent_readonly, readonly_the_dict|].
    intros d. destruct (d !! k); [by intros w|apply silent_raise].
  Qed.

Lemma silent_append_item l k v : silent (Py.append_item l k v).
  Proof.
    apply silent_bind; [apply silent_readonly, readonly_getitem|].
    intros [| | | |xs|]; try apply silent_raise. apply silent_setitem.
  Qed.

Lemma silent_trim_comment cd c : silent (trim_comment cd c).
  Proof.
    unfold trim_comment.
    apply silent_bind; [apply silent_delitem|intros _].
    apply silent_bind; [apply silent_readonly, readonly_dict_get|intros member_info].
    apply silent_bind; [apply silent_readonly, readonly_truthy|intros t].
    apply silent_bind; [|intros _; apply silent_append_item].
    destruct t.
    - apply silent_for_each. intros key. apply silent_delitem.
    - apply silent_bind; [apply silent_alloc|]. intros s. apply silent_setitem.
  Qed.

Lemma silent_shape_card card : silent (shape_card card).
  Proof.
    unfold shape_card.
    apply silent_bind; [apply silent_alloc|intros cd].
    apply silent_bind; [apply silent_for_each; intros kv; apply silent_setitem|intros _].
    apply silent_bind; [apply silent_setitem|intros _].
    apply silent_bind; [apply silent_for_each; intros c; apply silent_trim_comment|intros _].
    apply silent_bind.
    - apply silent_map_each. intros cl.
      apply silent_bind; [apply silent_alloc|]. intros d. apply silent_ret.
    - intros cl_data. apply silent_bind; [apply silent_setitem|]. intros _. apply silent_ret.
  Qed.

  (** The file system calls *)
Lemma silent_open_write s data : silent (Fs.open_write s data).
  Proof. intros w. unfold Fs.open_write. by destruct (Fs.stat w s) as [? [| |]| | |]. Qed.

Lemma silent_symlink t s : silent (Fs.symlink t s).
  Proof.
    intros w. unfold Fs.symlink. case_decide; [done|].
    by destruct (Fs.lstat w s) as [? ?| | |].
  Qed.

Lemma silent_exists s : silent (Fs.exists_ s).
  Proof. intros w. unfold Fs.exists_. by destruct (Fs.stat w s) as [? ?| | |]. Qed.

Lemma silent_mkdir_at start comps : silent (Fs.mkdir_at start comps).
  Proof.
    intros w. unfold Fs.mkdir_at. by destruct (Fs.walk (w_fs w) start comps) as [? ?| | |].
  Qed.

Lemma silent_exists_at start comps : silent (Fs.exists_at start comps).
  Proof.
    intros w. unfold Fs.exists_at. by destruct (Fs.follow _ _ _) as [? ?| | |].
  Qed.

Lemma silent_makedirs_go start abs rcomps : silent (Fs.makedirs_go start abs rcomps).
  Proof.
    induction rcomps as [|tail rhead IH]; simpl; [apply silent_mkdir_at|].
    apply silent_bind.
    - destruct (negb abs && _); [apply silent_ret|apply silent_exists_at].
    - intros [|]; [apply silent_mkdir_at|].
      apply silent_bind; [by apply silent_ignoring_eexist|]. intros _.
      case_decide; [apply silent_ret|apply silent_mkdir_at].
  Qed.

Lemma silent_makedirs name : silent (Fs.makedirs name).
  Proof.
    unfold Fs.makedirs. case_decide; [apply silent_raise|].
    apply silent_bind; [apply silent_readonly, readonly_get|].
    intros w. apply silent_makedirs_go.
  Qed.

Lemma silent_rm_r p : silent (Fs.rm_r p).
  Proof.
    intros w. unfold Fs.rm_r. destruct (reverse _); [done|].
    case_bool_decide; [done|]. by destruct (Fs.lstat w p) as [? ?| | |].
  Qed.

  (** The functions of the script that run no command *)
Lemma silent_mkdir root path : silent (mkdir root path).
  Proof.
    unfold mkdir. apply silent_bind; [apply silent_exists|].
    intros [|]; [apply silent_ret|apply silent_makedirs].
  Qed.

Lemma silent_write_card blob tree data : silent (write_card blob tree data).
  Proof.
    unfold write_card. apply silent_bind; [apply silent_readonly, readonly_get|].
    intros w. destruct (OsPath.relpath _ _ _); [|apply silent_raise].
    apply silent_bind; [apply silent_open_write|]. intros _. apply silent_symlink.
  Qed.

Lemma silent_dump_yaml root py cd tp : silent (dump_yaml root py cd tp).
  Proof.
    unfold dump_yaml.
    apply silent_bind.
    { apply silent_readonly, readonly_bind; [apply readonly_getitem|apply readonly_as_str]. }
    intros id. apply silent_bind; [apply silent_readonly, readonly_toyaml|].
    intros data. apply silent_write_card.
  Qed.

Lemma silent_dump_txt root py cd tp : silent (dump_txt root py cd tp).
  Proof.
    unfold dump_txt.
    apply silent_bind.
    { apply silent_readonly, readonly_bind; [apply readonly_getitem|apply readonly_iterate]. }
    intros comments. apply silent_bind.
    { apply silent_readonly, readonly_map_each. intros c. apply readonly_format_comment. }
    intros texts. apply silent_bind; [apply silent_readonly, readonly_getitem|].
    intros name. apply silent_bind.
    { destruct (unicode_utf8 py name); [apply silent_setitem|apply silent_raise]. }
    intros _. apply silent_bind.
    { apply silent_readonly, readonly_bind; [apply readonly_getitem|apply readonly_fmt]. }
    intros name'. apply silent_bind.
    { apply silent_readonly, readonly_bind; [apply readonly_getitem|apply readonly_fmt]. }
    intros descr. apply silent_bind.
    { apply silent_readonly, readonly_bind; [apply readonly_getitem|apply readonly_as_str]. }
    intros id. apply silent_write_card.
  Qed.

Lemma silent_dl_card root py card tp : silent (dl_card root py card tp).
  Proof.
    unfold dl_card. apply silent_bind; [apply silent_shape_card|].
    intros cd. apply silent_bind; [apply silent_dump_yaml|]. intros _.
    apply silent_dump_txt.
  Qed.
End Silent.

Section Logs.
Context (φ : event → Prop).

Lemma logs_silent {A} (m : M A) : silent m → logs φ m.
  Proof. intros Hm w. exists []. by rewrite Hm, app_nil_r. Qed.

Lemma logs_emit e : φ e → logs φ (emit e).
  Proof. intros He w. exists [e]. split; [done|]. by constructor. Qed.

Lemma logs_bind {A B} (m : M A) (f : A → M B) :
    logs φ m → (∀ a, logs φ (f a)) → logs φ (m ≫= f).
  Proof.
    intros Hm Hf w. rewrite bind_unfold. destruct (Hm w) as (evs & Hlog & Hall).
    destruct (m w) as [a w1|e w1|l]; simpl in *; [|by exists evs..].
    destruct (Hf a w1) as (evs' & Hlog' & Hall').
    exists (evs ++ evs'). rewrite Hlog', Hlog, <-app_assoc. split; [done|].
    by apply Forall_app.
  Qed.

Lemma logs_for_each {A} (l : list A) (body : A → M unit) :
    (∀ x, x ∈ l → logs φ (body x)) → logs φ (for_each l body).
  Proof.
    induction l as [|x l IH]; intros Hb; simpl.
    - apply logs_silent, silent_ret.
    - apply logs_bind; [apply Hb; by left|]. intros _.
      apply IH. intros y Hy. apply Hb. by right.
  Qed.
End Logs.

Lemma logs_mono {A} (φ ψ : event → Prop) (m : M A) :
  (∀ e, φ e → ψ e) → logs φ m → logs ψ m.
Proof.
  intros Hi Hm w. destruct (Hm w) as (evs & Hlog & Hall).
  exists evs. split; [done|]. by eapply Forall_impl.
Qed.

Lemma logs_wipe_dir root frags : logs (wipe_event root frags) (wipe_dir root frags).
Proof.
  unfold wipe_dir.
  apply logs_bind; [apply logs_emit; by left|intros _].
  apply logs_bind; [apply logs_silent, silent_exists|intros e].
  apply logs_bind; [|intros _; apply logs_silent, silent_mkdir].
  destruct e; [|apply logs_silent, silent_ret].
  unfold os_system_rm_r.
  apply logs_bind; [apply logs_emit; by right|intros _].
  destruct (Sh.read_operand _);
    [apply logs_silent, silent_rm_r|apply logs_silent, silent_ret
    |apply logs_silent, silent_outside].
Qed.

(** X12.  The commands of a run.  Whatever the boards, the state and
    the outcome of [retrieve_trello_data] (a return, an exception, or a run
    that leaves the model), the events it adds to the log are calls of
    [wipe_dir] on [current/<board>] or [current/<board>/archives], for a
    board of the list other than the welcome board, and the commands
    [rm -r] on the normalized paths of these directories: no other command
    is run. *)
Theorem wipe_calls_scoped (root : string) (py : PyLib) (boards : list Board)
    (w : world) :
  ∃ evs, outcome_log (retrieve_trello_data root py boards w) = w_log w ++ evs
         ∧ Forall (scoped root boards) evs.
Proof.
  revert w. change (logs (scoped root boards) (retrieve_trello_data root py boards)).
  unfold retrieve_trello_data. apply logs_for_each. intros b Hb.
  case_decide as Hname; [apply logs_silent, silent_ret|].
  apply logs_bind.
  { eapply logs_mono; [|apply logs_wipe_dir]. intros e He. exists b. eauto. }
  intros _. apply logs_bind.
  { destruct (board_closed_cards b) as [|c cs]; [apply logs_silent, silent_ret|].
    apply logs_bind.
    { eapply logs_mono; [|apply logs_wipe_dir]. intros e He. exists b. eauto. }
    intros _. apply logs_silent, silent_for_each. intros card. apply silent_dl_card. }
  intros _. apply logs_silent, silent_for_each. intros lst.
  apply silent_bind; [apply silent_mkdir|]. intros _.
  apply silent_for_each. intros card. apply silent_dl_card.
Qed.

(** ** Changing directory for a while *)

Lemma str_join_nonempty x l :
  x ≠ EmptyString → Str.join "/" (x :: l) ≠ EmptyString.
Proof.
  intros Hx. destruct l as [|y l]; [done|].
  change (Str.join "/" (x :: y :: l)) with (x +:+ "/" +:+ Str.join "/" (y :: l)).
  by destruct x.
Qed.

Lemma endswith_cons a c s :
  s ≠ EmptyString → Str.endswith a (String c s) = Str.endswith a s.
Proof. by destruct s. Qed.

Lemma endswith_str_join l :
  Forall (λ c, c ≠ EmptyString ∧ Str.count "/" c = 0) l → l ≠ [] →
  Str.endswith "/" (Str.join "/" l) = false.
Proof.
  induction 1 as [|x l [Hx1 Hx2] Hl IH]; [done|]. intros _.
  destruct l as [|y l].
  - simpl. by apply endswith_no_sep.
  - change (Str.join "/" (x :: y :: l)) with (x +:+ "/" +:+ Str.join "/" (y :: l)).
    rewrite str_app_cons, str_app_nil_l, endswith_app_nonempty by done.
    apply Forall_cons in Hl as [[Hy _] _].
    pose proof (str_join_nonempty y l Hy) as Hne.
    rewrite endswith_cons by done. by apply IH.
Qed.

Lemma ordinary_clean l :
  Forall ordinary l → Forall (λ c, c ≠ EmptyString ∧ Str.count "/" c = 0) l.
Proof. intros H. eapply Forall_impl; [done|]. by intros c (? & _ & _ & ?). Qed.

Lemma walk_getcwd fs w :
  Forall ordinary (w_cwd w) →
  Fs.walk fs [] (Fs.kparts (Fs.getcwd w)) = Fs.walk fs [] (w_cwd w).
Proof.
  intros Hc. unfold Fs.kparts, Fs.getcwd.
  rewrite parts_cons_slash, parts_str_join by (by apply ordinary_clean).
  destruct (w_cwd w) as [|x l] eqn:E; [done|].
  assert (Str.endswith "/" (String "/" (Str.join "/" (x :: l))) = false) as ->.
  { pose proof Hc as Hc'. apply Forall_cons in Hc' as [(Hx & _) Hl].
    pose proof (str_join_nonempty x l Hx) as Hne.
    rewrite endswith_cons by done.
    apply endswith_str_join; [|done]. by apply ordinary_clean. }
  by rewrite app_nil_r.
Qed.

Lemma stat_getcwd w w' :
  Forall ordinary (w_cwd w) →
  Fs.stat w' (Fs.getcwd w)
  = Fs.follow Fs.MAXSYMLINKS (w_fs w') (Fs.walk (w_fs w') [] (w_cwd w)).
Proof.
  intros Hc. unfold Fs.stat, Fs.lstat. rewrite decide_False by done.
  unfold Fs.start_dir.
  assert (OsPath.isabs (Fs.getcwd w) = true) as -> by done.
  by rewrite walk_getcwd.
Qed.

(** X13.  [temporary_chdir] comes back.  Whether the body returns or
    raises, and also when the directory to enter cannot be entered: if the
    directory the call started in (its names being ordinary names) is
    still a directory reached through directories when the call ends, the
    working directory is that directory again. *)
Theorem temporary_chdir_restores {A} (path : string) (body : M A) (w w' : world) :
  Forall ordinary (w_cwd w) →
  (∃ a, temporary_chdir path body w = Ret a w')
  ∨ (∃ e, temporary_chdir path body w = Raise e w') →
  Fs.walk (w_fs w') [] (w_cwd w) = Fs.Found (w_cwd w) Dir →
  w_cwd w' = w_cwd w.
Proof.
  intros Hc Hout Hwalk.
  assert (∀ w2, w_fs w2 = w_fs w' →
            Fs.chdir (Fs.getcwd w) w2 = Ret () (set_cwd (w_cwd w) w2)) as Hback.
  { intros w2 Hfs. unfold Fs.chdir. rewrite (stat_getcwd w w2 Hc), Hfs, Hwalk.
    by rewrite follow_not_link. }
  assert (∀ s w2 u w3, Fs.chdir s w2 = Ret u w3 → w_fs w3 = w_fs w2) as Hfs_ret.
  { intros s w2 u w3. unfold Fs.chdir.
    destruct (Fs.stat w2 s) as [q [| |]| | |]; try done. by intros [= _ <-]. }
  assert (∀ s w2 e w3, Fs.chdir s w2 = Raise e w3 → w3 = w2) as Hfs_raise.
  { intros s w2 e w3. unfold Fs.chdir.
    destruct (Fs.stat w2 s) as [q [| |]| | |]; try done; by intros [= _ <-]. }
  unfold temporary_chdir in Hout. rewrite bind_unfold in Hout. simpl in Hout.
  rewrite bind_unfold in Hout.
  destruct (Fs.chdir path w) as [[] w1|e1 w1|l1] eqn:Hcd.
  - unfold try_finally in Hout.
    destruct (body w1) as [a w2|e w2|l] eqn:Hbody.
    + rewrite bind_unfold in Hout.
      destruct (Fs.chdir (Fs.getcwd w) w2) as [[] w3|e3 w3|l3] eqn:Hfin.
      * assert (w3 = w') as -> by (destruct Hout as [[? [= _ ?]]|[? ?]]; done).
        rewrite Hback in Hfin by (symmetry; by eapply Hfs_ret). by injection Hfin as <-.
      * assert (w3 = w') as -> by (destruct Hout as [[? ?]|[? [= _ ?]]]; done).
        apply Hfs_raise in Hfin as Heq. subst w2. by rewrite Hback in Hfin.
      * by destruct Hout as [[? ?]|[? ?]].
    + destruct (Fs.chdir (Fs.getcwd w) w2) as [[] w3|e3 w3|l3] eqn:Hfin.
      * assert (w3 = w') as -> by (destruct Hout as [[? ?]|[? [= _ ?]]]; done).
        rewrite Hback in Hfin by (symmetry; by eapply Hfs_ret). by injection Hfin as <-.
      * assert (w3 = w') as -> by (destruct Hout as [[? ?]|[? [= _ ?]]]; done).
        apply Hfs_raise in Hfin as Heq. subst w2. by rewrite Hback in Hfin.
      * by destruct Hout as [[? ?]|[? ?]].
    + by destruct Hout as [[? ?]|[? ?]].
  - apply Hfs_raise in Hcd as ->.
    by destruct Hout as [[? ?]|[? [= _ <-]]].
  - by destruct Hout as [[? ?]|[? ?]].
Qed.

Lemma temporary_chdir_restores_witness :
  let w' := set_cwd ["home"; "u"] Example.w2 in
  Forall ordinary (w_cwd Example.w2)
  ∧ temporary_chdir "results" (Fs.chdir "current") Example.w2 = Ret () w'
  ∧ Fs.walk (w_fs w') [] (w_cwd Example.w2) = Fs.Found (w_cwd Example.w2) Dir
  ∧ w_cwd w' = w_cwd Example.w2.
Proof.
  intros w'.
  assert (H1 : Forall ordinary (w_cwd Example.w2)).
  { vm_compute. repeat constructor; discriminate. }
  assert (H2 : temporary_chdir "results" (Fs.chdir "current") Example.w2 = Ret () w').
  { vm_cast_no_check (@eq_refl _ (@Ret unit () w')). }
  assert (H3 : Fs.walk (w_fs w') [] (w_cwd Example.w2)
               = Fs.Found (w_cwd Example.w2) Dir).
  { vm_cast_no_check (@eq_refl _ (Fs.Found (w_cwd Example.w2) Dir)). }
  split; [exact H1|]. split; [exact H2|]. split; [exact H3|].
  exact (temporary_chdir_restores "results" (Fs.chdir "current") Example.w2 w'
           H1 (or_introl (ex_intro _ () H2)) H3).
Defined.

(** ** Listing the files, from anywhere *)

Lemma bind_ret_inv_ {A B} (m : M A) (f : A → M B) w b w' :
  (m ≫= f) w = Ret b w' → ∃ a w1, m w = Ret a w1 ∧ f a w1 = Ret b w'.
Proof. rewrite bind_unfold. destruct (m w) as [a w1|e w1|l]; [eauto|done..]. Qed.

Lemma isabs_normpath s : OsPath.isabs s = true → OsPath.isabs (OsPath.normpath s) = true.
Proof.
  intros Hs. unfold OsPath.normpath.
  rewrite bool_decide_eq_false_2 by (by apply isabs_nonempty).
  pose proof (initial_slashes_abs s Hs) as Hi.
  destruct (OsPath.initial_slashes s) as [|i]; [done|]. cbv zeta.
  by rewrite bool_decide_eq_false_2.
Qed.

Lemma isabs_abspath cwd p : OsPath.isabs cwd = true → OsPath.isabs (OsPath.abspath cwd p) = true.
Proof.
  intros Hcwd. unfold OsPath.abspath. apply isabs_normpath.
  destruct (OsPath.isabs p) eqn:Hp; [done|]. simpl. by apply isabs_join2_rel.
Qed.

Lemma stat_abs_anywhere s c w :
  OsPath.isabs s = true → Fs.stat (set_cwd c w) s = Fs.stat w s.
Proof. intros Hs. unfold Fs.stat, Fs.lstat, Fs.start_dir. by rewrite Hs. Qed.

Lemma map_each_pure {A B} (l : list A) (g : A → M B) (w w' w2 : world) ys :
  (∀ x, (∃ y, g x = mret y) ∨ g x = outside) →
  map_each l g w = Ret ys w' → map_each l g w2 = Ret ys w2.
Proof.
  intros Hg. revert ys w'. induction l as [|x l IH]; intros ys w'; simpl.
  - by intros [= <- _].
  - rewrite !bind_unfold. destruct (Hg x) as [[y ->]| ->]; [|done]. simpl.
    rewrite !bind_unfold.
    destruct (map_each l g w) as [zs w1|e w1|l1] eqn:E; [|done..].
    rewrite (IH zs w1 eq_refl). simpl. by intros [= <- _].
Qed.

Lemma walk_files_anywhere top c w w' files :
  OsPath.isabs top = true →
  Fs.walk_files top w = Ret files w' →
  Fs.walk_files top (set_cwd c w) = Ret files (set_cwd c w).
Proof.
  intros Htop. unfold Fs.walk_files. rewrite stat_abs_anywhere by done.
  destruct (Fs.stat w top) as [q [| |]| | |]; try by intros [= <- _].
  rewrite !bind_unfold.
  match goal with |- context [map_each ?l ?g w] =>
    destruct (map_each l g w) as [zs w1|e w1|l1] eqn:E; [|done..];
    match goal with |- context [map_each ?l2 ?g2 (set_cwd c w)] =>
      change (map_each l2 g2 (set_cwd c w)) with (map_each l g (set_cwd c w))
    end;
    rewrite (map_each_pure l g w w1 (set_cwd c w) zs); [by intros [= <- _]| |exact E]
  end.
  intros [k n]. cbn [fst snd].
  destruct (Fs.below q k) as [[|d rel]|]; [by left; eexists..| |by left; eexists].
  destruct (Fs.reachable _ _ _); [|by left; eexists].
  destruct (Fs.isdir_entry w k n) as [[|]|]; [by left; eexists..|by right].
Qed.

(** X14.  The listing does not depend on the working directory.  The two
    roots being absolute paths (they are made absolute when the module is
    loaded), [get_current_files] lists the same files from any working
    directory, and changes nothing: this is why [gitit] and [main] can call
    it after [temporary_chdir]. *)
Theorem get_current_files_anywhere (root icwd : string) (c : path) (w w' : world)
    (files : list string) :
  OsPath.isabs icwd = true →
  get_current_files root icwd w = Ret files w' →
  w' = w ∧ get_current_files root icwd (set_cwd c w) = Ret files (set_cwd c w).
Proof.
  intros Hicwd Hget. split.
  { pose proof (readonly_get_current_files root icwd w) as Hro.
    by rewrite Hget in Hro. }
  unfold get_current_files in *.
  apply bind_ret_inv_ in Hget as (f1 & w1 & H1 & Hget).
  apply bind_ret_inv_ in Hget as (f2 & w2 & H2 & [= <- <-]).
  assert (w1 = w) as ->.
  { pose proof (readonly_walk_files (BLOBS_ROOT root icwd) w) as Hro. by rewrite H1 in Hro. }
  rewrite bind_unfold, (walk_files_anywhere _ c w w f1) by
    first [by apply isabs_abspath|done].
  rewrite bind_unfold, (walk_files_anywhere _ c w w2 f2) by
    first [by apply isabs_abspath|done].
  done.
Qed.

Lemma get_current_files_anywhere_witness :
  OsPath.isabs "/home/u" = true
  ∧ get_current_files Example.root "/home/u" (set_cwd ["home"] Example.w0)
    = Ret [] (set_cwd ["home"] Example.w0).
Proof.
  split; [done|].
  refine (proj2 (get_current_files_anywhere Example.root "/home/u" ["home"]
Example.w0 Example.w0 [] eq_refl _)).
  by vm_compute.
Defined.

(** ** The creator ids shaping needs *)

Section GainsNo.
Variable k0 : string.

#[local] Instance gains_no_refl : Reflexive (gains_no k0).
  Proof. intros h l d Hl Hk. by exists d. Qed.

#[local] Instance gains_no_trans : Transitive (gains_no k0).
  Proof.
    intros h1 h2 h3 H12 H23 l d Hl Hk.
    destruct (H23 l d Hl Hk) as (d2 & Hl2 & Hk2). by apply (H12 l d2).
  Qed.

#[local] Abbreviation Tr := (λ _ : world, True).
#[local] Abbreviation G := (heap_only (gains_no k0)).

Lemma gains_no_insert h l d d' :
    h !! l = Some d → (is_Some (d' !! k0) → is_Some (d !! k0)) →
    gains_no k0 h (<[l := d']> h).
  Proof.
    intros Hl Hk l' dl Hl' Hkl. destruct (decide (l' = l)) as [->|Hne].
    - rewrite lookup_insert_eq in Hl'. injection Hl' as <-. exists d. auto.
    - rewrite lookup_insert_ne in Hl' by done. by exists dl.
  Qed.

Lemma gains_no_alloc h l d : d !! k0 = None → gains_no k0 h (<[l := d]> h).
  Proof.
    intros Hd l' dl Hl' Hkl. destruct (decide (l' = l)) as [->|Hne].
    - rewrite lookup_insert_eq in Hl'. injection Hl' as <-.
      rewrite Hd in Hkl. by destruct Hkl.
    - rewrite lookup_insert_ne in Hl' by done. by exists dl.
  Qed.

Lemma gn_delitem v k : sound Tr (Py.delitem v k) G (λ _ _, True).
  Proof.
    intros w _. destruct v as [| | | | |l]; simpl; try done.
    unfold Py.the_dict, mbind, M_bind.
    destruct (w_heap w !! l) as [d|] eqn:Hl; [|done].
    destruct (d !! k) eqn:Hk; simpl; [|done].
    split; [|done]. split_and!; try done. simpl.
    eapply gains_no_insert; [done|].
    intros [x Hx]. apply lookup_delete_Some in Hx as [_ Hx]. by exists x.
  Qed.

Lemma gn_setitem l k v : k ≠ k0 → sound Tr (Py.setitem l k v) G (λ _ _, True).
  Proof.
    intros Hk w _. unfold Py.setitem, Py.the_dict, mbind, M_bind.
    destruct (w_heap w !! l) as [d|] eqn:Hl; [|done]. simpl.
    split; [|done]. split_and!; try done. simpl.
    eapply gains_no_insert; [done|]. by rewrite lookup_insert_ne.
  Qed.

Lemma gn_alloc d : d !! k0 = None → sound Tr (Py.alloc d) G (λ _ _, True).
  Proof.
    intros Hd w _. unfold Py.alloc. split; [|done]. split_and!; try done. simpl.
    by apply gains_no_alloc.
  Qed.

Lemma gn_append_item l k v :
    k ≠ k0 → sound Tr (Py.append_item l k v) G (λ _ _, True).
  Proof.
    intros Hk. unfold Py.append_item.
    eapply sound_seq; [apply _|done|apply sound_readonly; [apply _..|done|]|].
    { apply readonly_getitem. }
    intros [| | | |xs|]; try (apply sound_raise; apply _).
    by apply gn_setitem.
  Qed.
End GainsNo.

#[local] Existing Instance gains_no_refl.
#[local] Existing Instance gains_no_trans.

Lemma gn_trim_comment cd c :
  sound (λ _, True) (trim_comment cd c)
    (heap_only (gains_no "idMemberCreator")) (λ _ _, True).
Proof.
  unfold trim_comment.
  eapply sound_seq; [apply _|done|apply gn_delitem|intros _].
  eapply sound_seq; [apply _|done|apply sound_readonly; [apply _..|done|]|].
  { apply readonly_dict_get. }
  intros member_info.
  eapply sound_seq; [apply _|done|apply sound_readonly; [apply _..|done|]|].
  { apply readonly_truthy. }
  intros t.
  eapply sound_seq; [apply _|done| |intros _; by apply gn_append_item].
  destruct t.
  - apply sound_for_each; [apply _..|done|]. intros key _. apply gn_delitem.
  - eapply sound_seq; [apply _|done|by apply gn_alloc|].
    intros s. by apply gn_setitem.
Qed.

Lemma gn_copy_attrs card cd :
  sound (λ _, True)
    (for_each (copied_attrs card) (λ kv, Py.setitem cd kv.1 kv.2))
    (heap_only (gains_no "idMemberCreator")) (λ _ _, True).
Proof.
  apply sound_for_each; [apply _..|done|]. intros [k v] Hkv. simpl.
  apply gn_setitem. unfold copied_attrs in Hkv.
  repeat (apply elem_of_cons in Hkv as [[= -> ->]|Hkv]; [discriminate|]).
  by apply elem_of_nil in Hkv.
Qed.

(** Shaping changes the heap only, and gives no object a creator id. *)
Lemma gn_shape_card card :
  sound (λ _, True) (shape_card card)
    (heap_only (gains_no "idMemberCreator")) (λ _ _, True).
Proof.
  unfold shape_card.
  eapply sound_seq; [apply _|done|by apply gn_alloc|intros cd].
  eapply sound_seq; [apply _|done|apply gn_copy_attrs|intros _].
  eapply sound_seq; [apply _|done|by apply gn_setitem|intros _].
  eapply sound_seq; [apply _|done| |intros _].
  { apply sound_for_each; [apply _..|done|]. intros c _. apply gn_trim_comment. }
  eapply sound_seq; [apply _|done| |intros cl_data].
  { apply sound_map_each; [apply _..|done|]. intros cl _.
    eapply sound_seq; [apply _|done|by apply gn_alloc|].
    intros d. by apply sound_ret; [apply _|]. }
  eapply sound_seq; [apply _|done|by apply gn_setitem|intros _].
  by apply sound_ret; [apply _|].
Qed.

Lemma has_creator_id_back h h' c :
  gains_no "idMemberCreator" h h' → has_creator_id h' c → has_creator_id h c.
Proof. intros Hg (d' & Hd' & Hk). exact (Hg c d' Hd' Hk). Qed.

(** The loop over the comments returns only when the comments are
    distinct objects, each with its creator id. *)
Lemma trim_loop_needs cd cs w w' :
  for_each cs (trim_comment cd) w = Ret () w' →
  NoDup cs ∧ ∀ c, c ∈ cs → has_creator_id (w_heap w) c.
Proof.
  revert w. induction cs as [|x cs IH]; intros w H.
  - split; [constructor|]. by intros ? ?%elem_of_nil.
  - simpl in H. apply bind_ret_inv in H as ([] & w1 & Hx & Hrest).
    destruct (trim_comment_post _ _ _ _ Hx) as (Hhas & Hred & _).
    destruct (IH _ Hrest) as (Hnd & Hall).
    pose proof (sound_ret_rel _ _ _ _ _ _ (gn_trim_comment cd x) Hx) as (Hg & _).
    split.
    + constructor; [|done]. intros Hin.
      destruct (Hall x Hin) as (d1 & Hd1 & Hk1).
      destruct Hred as (d & m & md & Hd & Hno & _).
      rewrite Hd in Hd1. injection Hd1 as <-. rewrite Hno in Hk1. by destruct Hk1.
    + intros c [->|Hc]%elem_of_cons; [done|].
      eapply has_creator_id_back; [done|by apply Hall].
Qed.

Lemma shape_card_needs card w cd w' :
  shape_card card w = Ret cd w' →
  NoDup (card_comments card)
  ∧ ∀ c, c ∈ card_comments card → has_creator_id (w_heap w) c.
Proof.
  unfold shape_card.
  intros (cd0 & w1 & Halloc & H)%bind_ret_inv.
  pose proof (sound_ret_rel _ _ _ _ _ _ (gn_alloc "idMemberCreator" ∅ eq_refl) Halloc)
    as (G1 & _).
  apply bind_ret_inv in H as ([] & w2 & Hattrs & H).
  pose proof (sound_ret_rel _ _ _ _ _ _ (gn_copy_attrs card cd0) Hattrs) as (G2 & _).
  apply bind_ret_inv in H as ([] & w3 & Hset & H).
  pose proof (sound_ret_rel _ _ _ _ _ _
                (gn_setitem "idMemberCreator" cd0 "comments" (VList []) ltac:(done)) Hset)
    as (G3 & _).
  apply bind_ret_inv in H as ([] & w4 & Hloop & _).
  destruct (trim_loop_needs _ _ _ _ Hloop) as (Hnd & Hall).
  split; [done|]. intros c Hc.
  eapply has_creator_id_back; [|by apply Hall].
  by etrans; [|etrans].
Qed.

(** X15.  [dl_card] on a card one of whose comments has no
    [idMemberCreator] entry, or whose comment list holds the same object
    twice: the call does not return, and when it raises the file system
    is as before: neither file of the card is written. *)
Theorem dl_card_needs_creator_ids (root : string) (py : PyLib) (card : Card)
    (tree_path : string) (w : world) :
  ¬ NoDup (card_comments card)
  ∨ (∃ c, c ∈ card_comments card ∧ ¬ has_creator_id (w_heap w) c) →
  match dl_card root py card tree_path w with
  | Ret _ _ => False
  | Raise _ w' => w_fs w' = w_fs w
  | Outside _ => True
  end.
Proof.
  intros Hbad. unfold dl_card. rewrite bind_unfold.
  pose proof (gn_shape_card card w I) as Hs.
  destruct (shape_card card w) as [cd w1|e w1|l] eqn:Hshape; [|by destruct Hs as (_ & ? & _)|done].
  exfalso. destruct (shape_card_needs _ _ _ _ Hshape) as (Hnd & Hall).
  destruct Hbad as [Hbad|(c & Hc & Hbad)]; [done|]. by apply Hbad, Hall.
Qed.

Lemma dl_card_needs_creator_ids_witness :
  match dl_card Example.root Example.py Example.card_no_creator
Example.tree_path Example.w1 with
  | Ret _ _ => False
  | Raise _ w' => w_fs w' = w_fs Example.w1
  | Outside _ => True
  end.
Proof.
  apply (dl_card_needs_creator_ids Example.root Example.py Example.card_no_creator
Example.tree_path Example.w1).
  right. exists 4%positive. split; [by constructor|].
  intros (d & Hd & [v Hv]). vm_compute in Hd. injection Hd as <-.
  by vm_compute in Hv.
Defined.

(** ** The record shaping builds *)

Lemma foldl_insert_list_to_map (l : list (string * pyval)) (d0 : pydict) :
  foldl (λ (d : pydict) kv, <[kv.1 := kv.2]> d) d0 l = list_to_map (reverse l) ∪ d0.
Proof.
  revert d0. induction l as [|[k v] l IH]; intros d0; simpl.
  - by rewrite (left_id ∅ (∪)).
  - rewrite IH, reverse_cons, list_to_map_app. simpl.
    rewrite <-(assoc (∪)). f_equal.
    by rewrite insert_empty, <-insert_union_singleton_l.
Qed.

Lemma copy_attrs_ret cd (l : list (string * pyval)) w w' d0 :
  for_each l (λ kv, Py.setitem cd kv.1 kv.2) w = Ret () w' →
  w_heap w !! cd = Some d0 →
  w_heap w' = <[cd := foldl (λ (d : pydict) kv, <[kv.1 := kv.2]> d) d0 l]> (w_heap w).
Proof.
  revert w d0. induction l as [|[k v] l IH]; intros w d0 H Hcd.
  - injection H as <-. simpl. by rewrite insert_id.
  - simpl in H. apply bind_ret_inv in H as ([] & w1 & Hset & Hrest).
    apply setitem_ret in Hset as (d & Hd & ->). rewrite Hcd in Hd. injection Hd as <-.
    rewrite (IH _ (<[k := v]> d0) Hrest) by (simpl; by rewrite lookup_insert_eq).
    simpl. by rewrite insert_insert_eq.
Qed.

Lemma copied_attrs_map card :
  foldl (λ (d : pydict) kv, <[kv.1 := kv.2]> d) ∅ (copied_attrs card)
  = list_to_map (copied_attrs card).
Proof.
  rewrite foldl_insert_list_to_map, (right_id ∅ (∪)).
  apply list_to_map_proper; [|apply reverse_Permutation].
  apply (bool_decide_unpack _). by vm_compute.
Qed.

Lemma copied_attrs_none card k :
  k ∈ ["idMemberCreator"; "avatarHash"; "comments"; "checklists"] →
  (list_to_map (copied_attrs card) : pydict) !! k = None.
Proof.
  intros Hk. apply not_elem_of_list_to_map_1.
  repeat (apply elem_of_cons in Hk as [->|Hk];
          [apply (bool_decide_unpack _); by vm_compute|]).
  by apply elem_of_nil in Hk.
Qed.

Section Record.
Variable cd : loc.
Variable d1 : pydict.
Hypothesis Hid : d1 !! "idMemberCreator" = None.
Hypothesis Hav : d1 !! "avatarHash" = None.

  (** One comment more in the record, which is otherwise as it was. *)
Lemma trim_comment_record c w w' xs :
    trim_comment cd c w = Ret () w' →
    w_heap w !! cd = Some (<["comments" := VList xs]> d1) →
    w_heap w' !! cd = Some (<["comments" := VList (xs ++ [VRef c])]> d1).
  Proof.
    unfold trim_comment. intros H Hcd.
    apply bind_ret_inv in H as ([] & w1 & Hdel & H).
    apply delitem_ret in Hdel as (c' & d & [= <-] & Hc & Hk & ->).
    assert (c ≠ cd) as Hne.
    { intros ->. rewrite Hcd in Hc. injection Hc as <-.
      rewrite lookup_insert_ne, Hid in Hk by done. by destruct Hk. }
    apply bind_ret_inv in H as (v & w1 & Hget & H).
    apply dict_get_ret in Hget as (-> & dc & Hdc & Hv).
    apply bind_ret_inv in H as (b & w1 & Htr & H).
    pose proof (truthy_ret _ _ _ _ Htr) as ->.
    apply bind_ret_inv in H as ([] & w2 & Hbr & Happ).
    assert (w_heap w2 !! cd = Some (<["comments" := VList xs]> d1)) as Hcd2.
    { destruct b.
      - simpl in Hbr.
        apply bind_ret_inv in Hbr as ([] & u1 & H1 & Hbr).
        apply bind_ret_inv in Hbr as ([] & u2 & H2 & Hbr).
        apply bind_ret_inv in Hbr as ([] & u3 & H3 & [= <-]).
        apply delitem_ret in H1 as (m & md & -> & Hm & Hkm & ->).
        apply delitem_ret in H2 as (m2 & md2 & [= <-] & _ & _ & ->).
        apply delitem_ret in H3 as (m3 & md3 & [= <-] & _ & _ & ->).
        simpl in *.
        assert (m ≠ cd) as Hm_ne.
        { intros ->. rewrite lookup_insert_ne, Hcd in Hm by done. injection Hm as <-.
          rewrite lookup_insert_ne, Hav in Hkm by done. by destruct Hkm. }
        by rewrite !lookup_insert_ne.
      - simpl in Hdc. rewrite lookup_insert_eq in Hdc. injection Hdc as <-.
        eapply install_sentinel_ret in Hbr as (s & Hs & ->);
          [|simpl; apply lookup_insert_eq].
        simpl in *. rewrite lookup_insert_ne by done.
        rewrite lookup_insert_ne; [by rewrite lookup_insert_ne|].
        intros ->. rewrite lookup_insert_ne, Hcd in Hs by done. done. }
    apply append_item_ret in Happ as (dcd & xs' & Hcd' & Hxs' & ->).
    rewrite Hcd2 in Hcd'. injection Hcd' as <-.
    rewrite lookup_insert_eq in Hxs'. injection Hxs' as <-.
    simpl. by rewrite lookup_insert_eq, insert_insert_eq.
  Qed.

Lemma trim_loop_record cs w w' xs :
    for_each cs (trim_comment cd) w = Ret () w' →
    w_heap w !! cd = Some (<["comments" := VList xs]> d1) →
    w_heap w' !! cd = Some (<["comments" := VList (xs ++ (VRef <$> cs))]> d1).
  Proof.
    revert w xs. induction cs as [|c cs IH]; intros w xs H Hcd.
    - injection H as <-. by rewrite app_nil_r.
    - simpl in H. apply bind_ret_inv in H as ([] & w1 & Hc & Hrest).
      pose proof (trim_comment_record _ _ _ _ Hc Hcd) as Hcd1.
      rewrite (IH _ _ Hrest Hcd1). by rewrite <-app_assoc.
  Qed.
End Record.

(** The checklists become new dictionaries, the objects there stay. *)
Lemma checklists_ret (cls : list Checklist) w vs w' :
  map_each cls (λ cl,
    d ← Py.alloc {[ "id" := cl_id cl; "name" := cl_name cl; "items" := cl_items cl ]};
    mret (VRef d)) w = Ret vs w' →
  (∀ l d, w_heap w !! l = Some d → w_heap w' !! l = Some d)
  ∧ Forall2 (λ cl v, ∃ l, v = VRef l ∧ w_heap w !! l = None
                          ∧ w_heap w' !! l = Some (checklist_dict cl)) cls vs.
Proof.
  revert w vs. induction cls as [|cl cls IH]; intros w vs H.
  - injection H as <- <-. split; [done|constructor].
  - simpl in H. apply bind_ret_inv in H as (v & w1 & Hcl & H).
    apply bind_ret_inv in Hcl as (l & w0 & Halloc & [= <- <-]).
    unfold Py.alloc in Halloc. injection Halloc as <- <-.
    set (l := fresh (dom (w_heap w))) in *.
    assert (w_heap w !! l = None) as Hl by apply not_elem_of_dom, is_fresh.
    apply bind_ret_inv in H as (vs' & w2 & Hrest & [= <- <-]).
    destruct (IH _ _ Hrest) as (Hstay & Hall). simpl in Hstay.
    split.
    + intros l' d Hl'. apply Hstay. rewrite lookup_insert_ne; [done|congruence].
    + constructor.
      * exists l. split_and!; [done..|]. apply Hstay. by rewrite lookup_insert_eq.
      * eapply Forall2_impl; [exact Hall|]. simpl.
        intros cl' v (l' & -> & Hn & Hd). exists l'. split_and!; [done| |done].
        apply lookup_insert_None in Hn. by destruct Hn.
Qed.

(** X16.  The record [dl_card] hands to the two dumps.  When the shaping
    of a card succeeds, the record is a new dictionary that holds the
    thirteen copied attributes of the card, under [comments] the comment
    objects of the card in their order, under [checklists] one new
    dictionary per checklist of the card, in their order, with its [id],
    [name] and [items], and nothing else. *)
Theorem shaped_record_exact (card : Card) (w : world) (cd : loc) (w' : world) :
  shape_card card w = Ret cd w' →
  w_heap w !! cd = None
  ∧ ∃ cls, w_heap w' !! cd = Some (shaped_record card cls)
           ∧ Forall2 (λ cl v, ∃ l, v = VRef l ∧ l ≠ cd
                                   ∧ w_heap w' !! l = Some (checklist_dict cl))
               (card_checklists card) cls.
Proof.
  unfold shape_card.
  intros (cd0 & w1 & Halloc & H)%bind_ret_inv.
  unfold Py.alloc in Halloc. injection Halloc as <- <-.
  set (cd0 := fresh (dom (w_heap w))) in *.
  assert (w_heap w !! cd0 = None) as Hnew by apply not_elem_of_dom, is_fresh.
  apply bind_ret_inv in H as ([] & w2 & Hattrs & H).
  eapply copy_attrs_ret in Hattrs; [|simpl; apply lookup_insert_eq].
  rewrite copied_attrs_map in Hattrs. simpl in Hattrs.
  set (d1 := list_to_map (copied_attrs card) : pydict) in *.
  apply bind_ret_inv in H as ([] & w3 & Hset & H).
  apply setitem_ret in Hset as (d & Hd & ->).
  rewrite Hattrs, lookup_insert_eq in Hd. injection Hd as <-.
  apply bind_ret_inv in H as ([] & w4 & Hloop & H).
  eapply (trim_loop_record cd0 d1) in Hloop;
    [|by apply copied_attrs_none; set_solver|by apply copied_attrs_none; set_solver
     |simpl; apply lookup_insert_eq].
  simpl in Hloop.
  apply bind_ret_inv in H as (cls & w5 & Hcls & H).
  apply checklists_ret in Hcls as (Hstay & Hall).
  apply bind_ret_inv in H as ([] & w6 & Hset & [= <- <-]).
  apply setitem_ret in Hset as (d & Hd & ->).
  rewrite (Hstay _ _ Hloop) in Hd. injection Hd as <-.
  split; [by subst cd0|]. exists cls. simpl. split.
  - by rewrite lookup_insert_eq.
  - eapply Forall2_impl; [exact Hall|]. simpl.
    intros cl v (l & -> & Hn & Hd).
    assert (l ≠ cd0) as Hne by (intros ->; by rewrite Hloop in Hn).
    exists l. split_and!; [done..|]. by rewrite lookup_insert_ne.
Qed.

Lemma shaped_record_exact_witness :
  ∃ cd w', shape_card Example.card Example.w1 = Ret cd w'
  ∧ w_heap Example.w1 !! cd = None
  ∧ ∃ cls, w_heap w' !! cd = Some (shaped_record Example.card cls)
           ∧ Forall2 (λ cl v, ∃ l, v = VRef l ∧ l ≠ cd
                                   ∧ w_heap w' !! l = Some (checklist_dict cl))
               (card_checklists Example.card) cls.
Proof.
  assert (returns (shape_card Example.card Example.w1) = true) as Hr by (by vm_compute).
  destruct (shape_card Example.card Example.w1) as [cd w'|e w'|l] eqn:Hshape;
    [|done..].
  exists cd, w'. split; [done|].
  exact (shaped_record_exact Example.card Example.w1 cd w' Hshape).
Defined.

(** ** What a run leaves alone *)

(** X10.  The run of X9, on one board with one list holding one card:
    when it returns, every entry of the file system that is neither in
    the directory of the board, nor on the way to it, nor one of the two
    blobs of the card, is as it was: the blobs of the other cards and the
    directories of the other boards are kept; and the working directory
    is the one the run started in. *)
Theorem run_keeps_the_rest (root : string) (py : PyLib) (b : Board) (lst : TList)
    (card : Card) (w w' : world) (R : path) :
  board_name b ≠ "Welcome Board" →
  board_closed_cards b = [] → board_all_lists b = [lst] → list_cards lst = [card] →
  root_at root w R →
  shell_plain (normpath root ["current"; board_dirname b]) →
  dir_or_free (w_fs w) R ["current"; sanitize (board_dirname b)] →
  (∀ y t, w_fs w !! (R ++ ["raw_tickets"; y]) ≠ Some (Link t)) →
  retrieve_trello_data root py [b] w = Ret () w' →
  let T := R ++ ["current"; sanitize (board_dirname b)] in
  let blob := λ ext, R ++ ["raw_tickets"; sanitize (card_id card) +:+ ext] in
  w_cwd w' = w_cwd w
  ∧ ∀ k, ¬ T `prefix_of` k → ¬ k `prefix_of` T →
         k ≠ blob ".yaml" → k ≠ blob ".txt" →
         w_fs w' !! k = w_fs w !! k.
Proof.
  intros Hname Hclosed Hlists Hcards Hroot Hplain Hstate Hnolink Hrun T blob.
  pose proof (ordinary_underscore' (board_id b) (board_name b)) as Hbd.
  pose proof (ordinary_underscore' (list_id lst) (list_name lst)) as Hld.
  fold (board_dirname b) in Hbd. fold (list_name_path lst) in Hld.
  destruct (retrieve_one_card _ _ _ _ _ _ _ Hname Hclosed Hlists Hcards Hrun)
    as (w1 & w2 & Hwipe & Hmk & Hdl).
  destruct (wipe_dir_emptied root w R ["current"] (board_dirname b) Hroot)
    as (w1' & Hwipe' & Hwiped & _);
    [by apply board_ordinary|exact Hplain|exact Hstate|].
  simpl in Hwipe', Hwiped. rewrite Hwipe in Hwipe'. injection Hwipe' as <-.
  rewrite (mkdir_list root R _ _ w w1 Hbd Hld Hroot Hwiped) in Hmk. injection Hmk as <-.
  pose proof (after_mkdir_root root R _ (list_name_path lst) w w1 Hroot Hwiped) as Hroot2.
  pose proof (after_mkdir_walk R _ (list_name_path lst) w w1 Hbd Hld Hwiped) as Hwalk2.
  pose proof (after_mkdir_empty R (board_dirname b) (list_name_path lst) w w1 Hwiped)
    as Hempty2.
  pose proof (after_mkdir_blobs R (board_dirname b) (list_name_path lst) w w1 Hwiped)
    as Hblobs2.
  destruct (dl_card_links root py R _ _ card _ w' Hbd Hld Hroot2 Hwalk2 Hempty2)
    as (dy & dt & Hfs' & Hcwd' & _); [|exact Hdl|].
  { intros y t. rewrite Hblobs2. apply Hnolink. }
  destruct Hwiped as (_ & Hcwd1 & _ & _ & Hframe & _).
  split; [by rewrite Hcwd'|].
  intros k HT Hk Hy Ht. rewrite Hfs'.
  assert (∀ x, k ≠ T ++ x) as Hout.
  { intros x ->. apply HT. by apply prefix_app_r. }
  rewrite lookup_insert_ne.
  2:{ intros Heq. apply (Hout [sanitize (list_name_path lst);
                                sanitize (card_basename card) +:+ ".txt"]).
      rewrite <-Heq. unfold T. by rewrite <-app_assoc. }
  rewrite lookup_insert_ne by done.
  rewrite lookup_insert_ne.
  2:{ intros Heq. apply (Hout [sanitize (list_name_path lst);
                                sanitize (card_basename card) +:+ ".yaml"]).
      rewrite <-Heq. unfold T. by rewrite <-app_assoc. }
  rewrite lookup_insert_ne by done.
  simpl. rewrite lookup_insert_ne.
  2:{ intros Heq. apply (Hout [sanitize (list_name_path lst)]).
      rewrite <-Heq. unfold T. by rewrite <-app_assoc. }
  by apply Hframe.
Qed.

Lemma run_keeps_the_rest_witness :
  let R := ["home"; "u"; "results"] in
  let b := Example.board in
  root_at Example.root Example.w1 R
  ∧ shell_plain (normpath Example.root ["current"; board_dirname b])
  ∧ dir_or_free (w_fs Example.w1) R ["current"; sanitize (board_dirname b)]
  ∧ ∃ w', retrieve_trello_data Example.root Example.py [b] Example.w1 = Ret () w'
      ∧ w_cwd w' = w_cwd Example.w1
      ∧ ∀ k, ¬ (R ++ ["current"; sanitize (board_dirname b)]) `prefix_of` k →
             ¬ k `prefix_of` (R ++ ["current"; sanitize (board_dirname b)]) →
             k ≠ R ++ ["raw_tickets"; sanitize (card_id Example.card) +:+ ".yaml"] →
             k ≠ R ++ ["raw_tickets"; sanitize (card_id Example.card) +:+ ".txt"] →
             w_fs w' !! k = w_fs Example.w1 !! k.
Proof.
  intros R b.
  assert (H1 : root_at Example.root Example.w1 R).
  { split; [|by vm_compute].
    vm_compute. repeat constructor. discriminate. }
  assert (H2 : shell_plain (normpath Example.root ["current"; board_dirname b]))
    by (by vm_compute).
  assert (H3 : dir_or_free (w_fs Example.w1) R ["current"; sanitize (board_dirname b)])
    by (left; by vm_compute).
  assert (H4 : ∀ y t, w_fs Example.w1 !! (R ++ ["raw_tickets"; y]) ≠ Some (Link t)).
  { intros y t Hy.
    assert (map_Forall (λ (_ : path) (n : node), ∀ t, n ≠ Link t) (w_fs Example.w1)) as Hall.
    { apply map_Forall_to_list. vm_compute. repeat (constructor; [discriminate|]).
      constructor. }
    by apply (Hall _ _ Hy t). }
  split; [exact H1|]. split; [exact H2|]. split; [exact H3|].
  assert (returns (retrieve_trello_data Example.root Example.py [b] Example.w1) = true)
    as Hr by (by vm_compute).
  destruct (retrieve_trello_data Example.root Example.py [b] Example.w1)
    as [[] w'|e w'|l] eqn:Hrun; [|done..].
  exists w'. split; [done|].
  exact (run_keeps_the_rest Example.root Example.py b
           {| list_id := "l"; list_name := "L"; list_cards := [Example.card] |}
Example.card Example.w1 w' R ltac:(discriminate) eq_refl eq_refl eq_refl
           H1 H2 H3 H4 Hrun).
Defined.

(** ** The names Trello gives *)

Lemma ordinary_archives : ordinary (sanitize "archives").
Proof. by unfold ordinary; split_and!. Qed.

(** X17.  No name leads out of the result directory.  Whatever the ids
    and names of the board, of the list and of the card (with slashes,
    spaces, or made of dots), each path the run builds for them is looked
    up from the result directory [R] by descending through names that are
    neither empty, nor [.], nor [..], and hold no slash: the directory of
    the board is the entry [current/<one name>], the directory of the list
    (or [archives]) an entry of it, the link of the card an entry of that
    one, and the blob of the card an entry of [raw_tickets]. *)
Theorem names_stay_below (root : string) (w : world) (R : path) (b : Board)
    (lst : TList) (card : Card) (archived : bool) (ext : string) :
  root_at root w R → ext ∈ [".yaml"; ".txt"] →
  let bd := board_dirname b in
  let place := if archived then "archives" else list_name_path lst in
  let cb := card_basename card in
  Forall ordinary [sanitize bd; sanitize place; sanitize cb +:+ ext;
                   sanitize (card_id card) +:+ ext]
  ∧ Fs.lstat w (normpath root ["current"; bd])
    = Fs.walk (w_fs w) R ["current"; sanitize bd]
  ∧ Fs.lstat w (normpath root ["current"; bd; place])
    = Fs.walk (w_fs w) R ["current"; sanitize bd; sanitize place]
  ∧ Fs.lstat w (normpath root ["current"; bd; place; cb] +:+ ext)
    = Fs.walk (w_fs w) R ["current"; sanitize bd; sanitize place; sanitize cb +:+ ext]
  ∧ Fs.lstat w (normpath root ["raw_tickets"; card_id card] +:+ ext)
    = Fs.walk (w_fs w) R ["raw_tickets"; sanitize (card_id card) +:+ ext].
Proof.
  intros Hroot Hext bd place cb.
  pose proof (ordinary_underscore' (board_id b) (board_name b)) as Hbd.
  fold (board_dirname b) in Hbd. fold bd in Hbd.
  assert (ordinary (sanitize place)) as Hld.
  { destruct archived; [apply ordinary_archives|apply ordinary_underscore']. }
  assert (Str.count "/" ext = 0 ∧ Str.count " " ext = 0) as [He1 He2].
  { apply elem_of_cons in Hext as [->|Hext];
      [|apply elem_of_cons in Hext as [->|Hext]; [|by apply elem_of_nil in Hext]]; done. }
  assert (ordinary (sanitize cb +:+ ext)) as Hcb by (by apply ordinary_underscore).
  assert (ordinary (sanitize (card_id card) +:+ ext)) as Hid.
  { apply elem_of_cons in Hext as [->|Hext];
      [|apply elem_of_cons in Hext as [->|Hext]; [|by apply elem_of_nil in Hext]];
      [apply ordinary_yaml|apply ordinary_txt]. }
  split; [by repeat first [apply Forall_cons_2|apply Forall_nil_2]|].
  split.
  { apply (lstat_normpath root w R ["current"] bd Hroot).
    simpl. repeat first [apply Forall_cons_2|apply Forall_nil_2];
      [apply ordinary_current|done]. }
  split.
  { apply (lstat_normpath root w R ["current"; bd] place Hroot).
    by apply dir_ordinary. }
  split.
  - rewrite link_path_eq by done.
    rewrite (lstat_normpath root w R _ _ Hroot) by (by apply link_ordinary).
    by rewrite link_comps.
  - rewrite blob_path_eq by done.
    rewrite (lstat_normpath root w R _ _ Hroot) by (by apply blob_ordinary).
    by rewrite blob_comps.
Qed.

Lemma names_stay_below_witness :
  let R := ["home"; "u"; "results"] in
  let lst := {| list_id := "l/1"; list_name := ".."; list_cards := [] |} in
  root_at Example.root Example.w1 R
  ∧ Forall ordinary [sanitize (board_dirname Example.board);
                     sanitize (list_name_path lst);
                     sanitize (card_basename Example.card) +:+ ".yaml";
                     sanitize (card_id Example.card) +:+ ".yaml"]
  ∧ Fs.lstat Example.w1 (normpath Example.root ["current"; board_dirname Example.board;
                                                list_name_path lst])
    = Fs.walk (w_fs Example.w1) R ["current"; "b_B"; "l-1_.."].
Proof.
  intros R lst.
  assert (H1 : root_at Example.root Example.w1 R).
  { split; [|by vm_compute]. vm_compute. repeat constructor. discriminate. }
  split; [exact H1|].
  destruct (names_stay_below Example.root Example.w1 R Example.board lst Example.card
              false ".yaml" H1 ltac:(by left)) as (Hord & _ & Hlist & _).
  split; [exact Hord|exact Hlist].
Defined.

(** ** A broken link where a directory is wanted *)

Section Dangling.
Variables (root : string) (w : world) (R : path) (frags : list string) (l t : string).
Hypothesis Hroot : root_at root w R.
Hypothesis Hord : Forall ordinary (map sanitize (frags ++ [l])).
Hypothesis Hhead :
    Fs.walk (w_fs w) R (map sanitize frags) = Fs.Found (R ++ map sanitize frags) Dir.
Hypothesis Hlink : w_fs w !! (R ++ map sanitize (frags ++ [l])) = Some (Link t).

Lemma walk_to_link :
    Fs.walk (w_fs w) R (map sanitize (frags ++ [l]))
    = Fs.Found (R ++ map sanitize (frags ++ [l])) (Link t).
  Proof.
    pose proof Hord as Ho. rewrite map_app in Ho |- *. simpl in *.
    apply Forall_app in Ho as [_ Ho]. apply Forall_cons in Ho as [Hl _].
    rewrite (walk_app _ _ _ _ _ Hhead), walk_ordinary by done.
    rewrite map_app, app_assoc in Hlink. simpl in Hlink. rewrite Hlink.
    by rewrite app_assoc.
  Qed.

  (** [os.makedirs] finds the link in its way. *)
Lemma makedirs_on_link :
    Fs.makedirs (normpath root (frags ++ [l])) w = Raise (OSError EEXIST) w.
  Proof.
    pose proof Hord as Ho. rewrite map_app in Ho. simpl in Ho.
    apply Forall_app in Ho as [_ Ho]. apply Forall_cons in Ho as [Hl _].
    unfold Fs.makedirs. rewrite decide_False by (by apply normpath_snoc_nonempty).
    rewrite bind_unfold. simpl. rewrite normpath_parts by done.
    destruct Hroot as [Hup Hw]. unfold Fs.start_dir in *. rewrite normpath_isabs.
    set (start := if OsPath.isabs (rewritten_root root) then [] else w_cwd w) in *.
    set (P := OsPath.parts (rewritten_root root)) in *.
    assert (Fs.walk (w_fs w) start (P ++ map sanitize frags)
            = Fs.Found (R ++ map sanitize frags) Dir) as Hwh.
    { by rewrite (walk_app _ _ _ _ _ Hw). }
    assert (Fs.mkdir_at start (P ++ map sanitize (frags ++ [l])) w
            = Raise (OSError EEXIST) w) as Hmk.
    { unfold Fs.mkdir_at. by rewrite (walk_app _ _ _ _ _ Hw), walk_to_link. }
    rewrite (map_app sanitize frags [l]) in Hmk |- *. simpl in Hmk |- *.
    rewrite app_assoc, reverse_snoc. simpl.
    rewrite bind_unfold. rewrite reverse_involutive.
    assert (reverse (sanitize l :: reverse (P ++ map sanitize frags))
            = P ++ map sanitize frags ++ [sanitize l]) as Hrev.
    { by rewrite reverse_cons, reverse_involutive, <-app_assoc. }
    destruct (negb _ && _).
    - simpl. by rewrite Hrev.
    - match goal with
      | |- context [Fs.exists_at ?s ?c w] =>
          rewrite (exists_at_found s c w _ _ Hwh) by done
      end.
      by rewrite Hrev.
  Qed.
End Dangling.

Section LinkToDirectory.
Variables (root : string) (w : world) (R : path) (frags : list string) (l t : string).
Hypothesis Hroot : root_at root w R.
Hypothesis Hord : Forall ordinary (map sanitize (frags ++ [l])).
Hypothesis Hplain : shell_plain (normpath root (frags ++ [l])).
Hypothesis Hhead :
    Fs.walk (w_fs w) R (map sanitize frags) = Fs.Found (R ++ map sanitize frags) Dir.
Hypothesis Hlink : w_fs w !! (R ++ map sanitize (frags ++ [l])) = Some (Link t).
Hypothesis Hex : Fs.exists_ (normpath root (frags ++ [l])) w = Ret true w.

#[local] Abbreviation Tl := (R ++ map sanitize (frags ++ [l])).

  (** The link is removed, not what it points to, and the directory is
      made in its place. *)
Lemma wipe_dir_on_link :
    wipe_dir root (frags ++ [l]) w
    = Ret () (set_fs (<[Tl := Dir]>
                        (filter (λ kv : path * node, ¬ Tl `prefix_of` kv.1) (w_fs w)))
                (add_log (System ("rm -r " +:+ normpath root (frags ++ [l])))
                   (add_log (WipeDir (frags ++ [l])) w))).
  Proof.
    rewrite wipe_dir_unfold. set (w0 := add_log _ w).
    assert (root_at root w0 R) as Hroot0 by (by eapply root_at_same).
    rewrite bind_unfold.
    rewrite (exists_normpath root w0 R frags l Hroot0 Hord).
    rewrite (exists_normpath root w R frags l Hroot Hord) in Hex.
    change (w_fs w0) with (w_fs w).
    destruct (Fs.follow Fs.MAXSYMLINKS (w_fs w) _) as [? ?|?|?|]; try done.
    rewrite bind_unfold, os_system_rm_r_plain by done.
    set (w1 := add_log _ w0).
    assert (root_at root w1 R) as Hroot1 by (by eapply root_at_same).
    rewrite (rm_r_normpath root w1 R frags l Hroot1 Hord).
    change (w_fs w1) with (w_fs w).
    rewrite (walk_to_link w R frags l t Hord Hhead Hlink). simpl.
    set (fs2 := filter _ (w_fs w)). set (w2 := set_fs fs2 w1).
    pose proof Hord as Hord'. rewrite map_app in Hord'. simpl in Hord'.
    assert (∀ k, k `prefix_of` R ++ map sanitize frags →
                 w_fs w !! k = Some Dir → fs2 !! k = Some Dir) as Hkeep.
    { intros k Hk Hd. unfold fs2. rewrite lookup_filter_keep; [done|].
      rewrite map_app. simpl. rewrite app_assoc. by apply not_prefix_of_shorter. }
    assert (root_at root w2 R) as Hroot2.
    { eapply (root_at_agree _ w1); [done| |done].
      intros k Hk. apply Hkeep. by apply prefix_app_r. }
    rewrite (mkdir_creates root w2 R frags l Hroot2 Hord (map sanitize frags) [sanitize l]).
    - assert (Tl = (R ++ map sanitize frags) ++ [sanitize l]) as ->
        by (by rewrite (map_app sanitize frags [l]), app_assoc).
      done.
    - by rewrite (map_app sanitize frags [l]).
    - eapply walk_agree; [|exact Hkeep|exact Hhead].
      apply Forall_app in Hord' as [Hf _]. by apply ordinary_not_dotdot.
    - split; [done|]. intros k. simpl. unfold w2, fs2. simpl.
      apply lookup_filter_drop. rewrite map_app. simpl.
      rewrite <-!app_assoc. simpl. do 2 apply prefix_app. by apply prefix_cons, prefix_nil.
  Qed.
End LinkToDirectory.

(** X18.  A broken link where a directory is wanted.  When the
    normalized path, reached through directories below the result
    directory, is a symbolic link whose target does not exist
    ([os.path.exists] follows the link and answers no), [mkdir] raises
    [OSError EEXIST], [os.makedirs] finding the link in its way; and
    [wipe_dir] removes nothing, no command being run, and raises the same
    error: the file system is left as it was. *)
Theorem mkdir_broken_link (root : string) (w : world) (R : path) (frags : list string)
    (l t : string) :
  root_at root w R → Forall ordinary (map sanitize (frags ++ [l])) →
  Fs.walk (w_fs w) R (map sanitize frags) = Fs.Found (R ++ map sanitize frags) Dir →
  w_fs w !! (R ++ map sanitize (frags ++ [l])) = Some (Link t) →
  Fs.exists_ (normpath root (frags ++ [l])) w = Ret false w →
  mkdir root (frags ++ [l]) w = Raise (OSError EEXIST) w
  ∧ wipe_dir root (frags ++ [l]) w
    = Raise (OSError EEXIST) (add_log (WipeDir (frags ++ [l])) w).
Proof.
  intros Hroot Hord Hhead Hlink Hex.
  assert (∀ w0, w_fs w0 = w_fs w → w_cwd w0 = w_cwd w →
                mkdir root (frags ++ [l]) w0 = Raise (OSError EEXIST) w0) as Hmk.
  { intros w0 Hfs Hcwd.
    assert (root_at root w0 R) as Hroot0 by (by eapply root_at_same).
    unfold mkdir. rewrite bind_unfold.
    rewrite (exists_normpath root w0 R frags l Hroot0 Hord), Hfs.
    rewrite (exists_normpath root w R frags l Hroot Hord) in Hex.
    destruct (Fs.follow Fs.MAXSYMLINKS (w_fs w) _) as [? ?|?|?|]; try done;
      apply (makedirs_on_link root w0 R frags l t Hroot0 Hord); by rewrite Hfs. }
  split; [by apply Hmk|].
  rewrite wipe_dir_unfold. set (w0 := add_log _ w).
  assert (root_at root w0 R) as Hroot0 by (by eapply root_at_same).
  rewrite bind_unfold.
  rewrite (exists_normpath root w0 R frags l Hroot0 Hord).
  rewrite (exists_normpath root w R frags l Hroot Hord) in Hex.
  change (w_fs w0) with (w_fs w).
  destruct (Fs.follow Fs.MAXSYMLINKS (w_fs w) _) as [? ?|?|?|]; try done;
    rewrite bind_unfold; simpl; by apply Hmk.
Qed.

Lemma mkdir_broken_link_witness :
  let R := ["home"; "u"; "results"] in
  let w := set_fs (<[R ++ ["current"; "x_X"] := Link "gone"]> (w_fs Example.w1))
Example.w1 in
  mkdir Example.root (["current"] ++ ["x_X"]) w = Raise (OSError EEXIST) w
  ∧ wipe_dir Example.root (["current"] ++ ["x_X"]) w
    = Raise (OSError EEXIST) (add_log (WipeDir (["current"] ++ ["x_X"])) w).
Proof.
  intros R w.
  apply (mkdir_broken_link Example.root w R ["current"] "x_X" "gone").
  - split; [|by vm_compute]. vm_compute. repeat constructor. discriminate.
  - vm_compute. repeat constructor; discriminate.
  - by vm_compute.
  - by vm_compute.
  - vm_cast_no_check (@eq_refl _ (@Ret bool false w)).
Defined.

(** X19.  A link to a directory where the directory is wanted.  When
    the normalized path, reached through directories below the result
    directory, is a symbolic link whose target exists, the command line
    [rm -r <path>] being one plain word: [wipe_dir] returns; the link is
    replaced by an empty directory; and every entry that is not below the
    path is as it was, so that the directory the link pointed to keeps
    what it holds. *)
Theorem wipe_dir_link_to_directory (root : string) (w : world) (R : path)
    (frags : list string) (l t : string) :
  root_at root w R → Forall ordinary (map sanitize (frags ++ [l])) →
  shell_plain (normpath root (frags ++ [l])) →
  Fs.walk (w_fs w) R (map sanitize frags) = Fs.Found (R ++ map sanitize frags) Dir →
  w_fs w !! (R ++ map sanitize (frags ++ [l])) = Some (Link t) →
  Fs.exists_ (normpath root (frags ++ [l])) w = Ret true w →
  ∃ w', wipe_dir root (frags ++ [l]) w = Ret () w'
        ∧ w_fs w' !! (R ++ map sanitize (frags ++ [l])) = Some Dir
        ∧ (∀ k, k ≠ [] → w_fs w' !! ((R ++ map sanitize (frags ++ [l])) ++ k) = None)
        ∧ (∀ k, ¬ (R ++ map sanitize (frags ++ [l])) `prefix_of` k →
                w_fs w' !! k = w_fs w !! k).
Proof.
  intros Hroot Hord Hplain Hhead Hlink Hex.
  eexists. split; [by eapply wipe_dir_on_link|]. simpl. split_and!.
  - apply lookup_insert_eq.
  - intros k Hk. rewrite lookup_insert_ne.
    + apply lookup_filter_drop. by apply prefix_app_r.
    + intros Heq. apply Hk. apply (app_inv_head (R ++ map sanitize (frags ++ [l]))).
      by rewrite app_nil_r.
  - intros k Hk. rewrite lookup_insert_ne by (intros Heq; apply Hk; by rewrite Heq).
    by apply lookup_filter_keep.
Qed.

Lemma wipe_dir_link_to_directory_witness :
  let R := ["home"; "u"; "results"] in
  let w := set_fs (<[R ++ ["current"; "x_X"] := Link "../raw_tickets"]> (w_fs Example.w2))
Example.w2 in
  ∃ w', wipe_dir Example.root (["current"] ++ ["x_X"]) w = Ret () w'
        ∧ w_fs w' !! (R ++ map sanitize (["current"] ++ ["x_X"])) = Some Dir
        ∧ (∀ k, k ≠ [] →
                w_fs w' !! ((R ++ map sanitize (["current"] ++ ["x_X"])) ++ k) = None)
        ∧ (∀ k, ¬ (R ++ map sanitize (["current"] ++ ["x_X"])) `prefix_of` k →
                w_fs w' !! k = w_fs w !! k).
Proof.
  intros R w.
  apply (wipe_dir_link_to_directory Example.root w R ["current"] "x_X" "../raw_tickets").
  - split; [|by vm_compute]. vm_compute. repeat constructor. discriminate.
  - vm_compute. repeat constructor; discriminate.
  - by vm_compute.
  - by vm_compute.
  - by vm_compute.
  - vm_cast_no_check (@eq_refl _ (@Ret bool true w)).
Defined.
